(** * The summarize workflow of mastra-ui, embedded in Rocq

    Sources embedded here:
    - [src/mastra/workflows/summarizeWorkflow.ts]: the four steps
      (fetch-page, summarizer, critique, conditional-save), the three
      [.map] closures between them and their composition;
    - [src/src/mastra/tools/fetchPage.ts]: the fetch-page tool;
    - [src/src/mastra/agents/critic.ts], [summarizer.ts], [index.ts]: the
      agents and their registration;
    - [src/unnamed/part_001]: the save-summary tool;
    - [src/src/mastra/evals/summaryEval.ts]: the summary evaluators
      ([tokenize], [runEvals]) and, after them in the same file, the
      evaluation command [runSummaryEval.ts] ([parseArgs],
      [readOptionalFile], [main] and its [catch]).

    JavaScript strings are sequences of UTF-16 code units, numbers are
    IEEE 754 binary64 values, objects are ordered property lists.  The
    collaborators (network, language models, file system, clock) are
    explicit: the read-only ones form an environment, the mutable ones a
    world that every step threads through. *)

From Stdlib Require Import ZArith NArith List String Ascii Bool Lia.
From Stdlib Require Import Floats.SpecFloat.
From stdpp Require Import base option list gmap.
Import ListNotations.

Set Default Proof Using "Type".
Set Warnings "-register-all,-abstract-large-number".
Local Open Scope N_scope.

(* ================================================================== *)
(** * JavaScript strings *)
(* ================================================================== *)

(** A string value is a finite sequence of 16-bit code units. *)
Definition char16 := N.
Definition jsstring := list char16.

(** Source literals are ASCII; [lit] gives their code units. *)
Definition lit (s : string) : jsstring :=
  List.map N_of_ascii (list_ascii_of_string s).

Definition DQUOTE : jsstring := [34].
Definition LF : jsstring := [10].

Fixpoint jsstring_eqb (a b : jsstring) : bool :=
  match a, b with
  | [], [] => true
  | x :: a', y :: b' => (x =? y) && jsstring_eqb a' b'
  | _, _ => false
  end.

(** ** Character classes *)

(** The regular-expression class [\s] (WhiteSpace and LineTerminator of
    ECMAScript); [String.prototype.trim] strips the same set. *)
Definition is_space (c : char16) : bool :=
  ((9 <=? c) && (c <=? 13))
  || (c =? 32) || (c =? 160) || (c =? 5760)
  || ((8192 <=? c) && (c <=? 8202))
  || (c =? 8232) || (c =? 8233) || (c =? 8239) || (c =? 8287)
  || (c =? 12288) || (c =? 65279).

Definition is_digit (c : char16) : bool := (48 <=? c) && (c <=? 57).
Definition is_lower_az (c : char16) : bool := (97 <=? c) && (c <=? 122).
Definition is_upper_AZ (c : char16) : bool := (65 <=? c) && (c <=? 90).

(** Canonicalisation of the [i] flag (without [u]): a code unit is
    compared by its upper case, and a non-ASCII code unit is never
    identified with an ASCII one.  On the ASCII patterns of this program
    this is ASCII case folding. *)
Definition canonicalize (c : char16) : char16 :=
  if is_lower_az c then c - 32 else c.

Definition eq_ci (a b : char16) : bool := canonicalize a =? canonicalize b.

Definition is_nil {A} (l : list A) : bool :=
  match l with [] => true | _ => false end.

(** ** Prefixes, searches, runs *)

(** [match_prefix eqc pat s]: [s] starts with [pat] (characters compared
    by [eqc]); the rest of [s] is returned. *)
Fixpoint match_prefix (eqc : char16 -> char16 -> bool) (pat s : jsstring)
  : option jsstring :=
  match pat with
  | [] => Some s
  | p :: pat' =>
      match s with
      | [] => None
      | c :: s' => if eqc p c then match_prefix eqc pat' s' else None
      end
  end.

(** Index of the first occurrence of [pat] in [s]. *)
Fixpoint find_first (eqc : char16 -> char16 -> bool) (pat s : jsstring)
  : option nat :=
  match match_prefix eqc pat s with
  | Some _ => Some O
  | None =>
      match s with
      | [] => None
      | _ :: s' => option_map S (find_first eqc pat s')
      end
  end.

(** Longest prefix whose characters satisfy [p], and what follows. *)
Fixpoint span (p : char16 -> bool) (s : jsstring) : jsstring * jsstring :=
  match s with
  | [] => ([], [])
  | c :: s' =>
      if p c then let '(a, b) := span p s' in (c :: a, b) else ([], s)
  end.

Definition drop_while (p : char16 -> bool) (s : jsstring) : jsstring :=
  snd (span p s).

(** ** [String.prototype.replace] with a global regular expression

    [m s] is the length of the match of the expression at the start of
    [s], if there is one; none of the expressions used here matches the
    empty string or looks behind.  The scan emits the replacement for a
    match and resumes after it, and copies one code unit otherwise.
    [skip] counts the code units of the current match still to drop. *)
Fixpoint replace_scan (m : jsstring -> option nat) (repl : jsstring)
  (skip : nat) (s : jsstring) : jsstring :=
  match s with
  | [] => []
  | c :: s' =>
      match skip with
      | S k => replace_scan m repl k s'
      | O =>
          match m s with
          | Some (S len') => repl ++ replace_scan m repl len' s'
          | _ => c :: replace_scan m repl O s'
          end
      end
  end.

Definition replace_all (m : jsstring -> option nat) (repl s : jsstring)
  : jsstring := replace_scan m repl O s.

(** [/<open[\s\S]*?<\/close>/gi]: the opening text, then lazily anything
    up to the first closing text. *)
Definition re_block (opening closing : jsstring) (s : jsstring) : option nat :=
  match match_prefix eq_ci opening s with
  | None => None
  | Some rest =>
      match find_first eq_ci closing rest with
      | None => None
      | Some i => Some (length opening + i + length closing)%nat
      end
  end.

Definition re_script : jsstring -> option nat :=
  re_block (lit "<script") (lit "</script>").
Definition re_style : jsstring -> option nat :=
  re_block (lit "<style") (lit "</style>").

Definition not_gt (c : char16) : bool := negb (c =? 62).
Definition not_lt (c : char16) : bool := negb (c =? 60).

(** [/<[^>]+>/g] *)
Definition re_tag (s : jsstring) : option nat :=
  match s with
  | 60 :: rest =>
      match span not_gt rest with
      | ((_ :: _) as inner, 62 :: _) => Some (length inner + 2)%nat
      | _ => None
      end
  | _ => None
  end.

(** [/\s{2,}/g] *)
Definition re_spaces2 (s : jsstring) : option nat :=
  match span is_space s with
  | ((_ :: _ :: _) as run, _) => Some (length run)
  | _ => None
  end.

(** [String.prototype.trim] *)
Definition trim (s : jsstring) : jsstring :=
  reverse (drop_while is_space (reverse (drop_while is_space s))).

(** [/<title[^>]*>([^<]+)<\/title>/i] tried at the start of [s]; the
    result is capture group 1. *)
Definition re_title_at (s : jsstring) : option jsstring :=
  match match_prefix eq_ci (lit "<title") s with
  | None => None
  | Some r1 =>
      match drop_while not_gt r1 with
      | 62 :: r2 =>
          match span not_lt r2 with
          | ((_ :: _) as g, r3) =>
              match match_prefix eq_ci (lit "</title>") r3 with
              | Some _ => Some g
              | None => None
              end
          | _ => None
          end
      | _ => None
      end
  end.

(** [html.match(/<title[^>]*>([^<]+)<\/title>/i)]: the leftmost position
    where the expression matches; [None] is JavaScript's [null]. *)
Fixpoint match_title (s : jsstring) : option jsstring :=
  match s with
  | [] => None
  | _ :: s' =>
      match re_title_at s with
      | Some g => Some g
      | None => match_title s'
      end
  end.

(** [text.split(/\s+/)]: the pieces between the maximal runs of white
    space; a run at either end leaves an empty piece there, and the empty
    string splits into one empty piece.  [cur] is the current piece,
    reversed; [in_sep] tells that the scan is inside a run. *)
Fixpoint split_scan (cur : jsstring) (in_sep : bool) (s : jsstring)
  : list jsstring :=
  match s with
  | [] => [rev cur]
  | c :: s' =>
      if is_space c then
        if in_sep then split_scan [] true s'
        else rev cur :: split_scan [] true s'
      else split_scan (c :: cur) false s'
  end.

Definition split_ws (s : jsstring) : list jsstring := split_scan [] false s.

(** [Array.prototype.join] on strings. *)
Fixpoint join (sep : jsstring) (parts : list jsstring) : jsstring :=
  match parts with
  | [] => []
  | [p] => p
  | p :: rest => p ++ sep ++ join sep rest
  end.

(** The decimal digits of a natural number; it has no more of them than
    binary digits. *)
Fixpoint digits_fuel (fuel : nat) (n : N) (acc : jsstring) : jsstring :=
  match fuel with
  | O => acc
  | S f =>
      let acc' := (48 + n mod 10) :: acc in
      if n / 10 =? 0 then acc' else digits_fuel f (n / 10) acc'
  end.

Definition decimal (n : N) : jsstring := digits_fuel (S (N.to_nat (N.log2 n))) n [].

(* ================================================================== *)
(** * JavaScript numbers *)
(* ================================================================== *)

(** A number is an IEEE 754 binary64 value: [spec_float] at precision 53
    and maximal exponent 1024. *)
Definition number := spec_float.

#[global] Instance spec_float_eq_dec : EqDecision spec_float.
Proof. solve_decision. Defined.
#[global] Instance number_eq_dec : EqDecision number := spec_float_eq_dec.

Definition number_of_Z (z : Z) : number := binary_normalize 53 1024 z 0 false.
Definition number_of_nat (n : nat) : number := number_of_Z (Z.of_nat n).

(** The relational operators on two numbers. *)
Definition num_lt (a b : number) : bool := SFltb a b.
Definition num_le (a b : number) : bool := SFleb a b.

Definition is_nan (x : number) : bool :=
  match x with S754_nan => true | _ => false end.

(** The number nearest to [(-1)^neg * m * 10^e] (ties to even): what a
    decimal literal denotes.  The two shortcuts avoid huge powers and are
    exact: beyond [10^400] everything rounds to an infinity, below
    [10^-400] to a zero. *)
Definition number_of_decimal (neg : bool) (m : N) (e : Z) : number :=
  match m with
  | N0 => S754_zero neg
  | Npos p =>
      if (0 <=? e)%Z then
        if (400 <? e)%Z then S754_infinity neg
        else binary_normalize 53 1024
               ((if neg then Zneg p else Zpos p) * 10 ^ e)%Z 0 false
      else if (Z.of_N (N.log2 m) + 1 + e <? -400)%Z then S754_zero neg
      else SFdiv 53 1024 (S754_finite neg p 0)
                         (S754_finite false (Z.to_pos (10 ^ (- e))) 0)
  end.

(** ** [Number::toString] (radix 10)

    The shortest string of decimal digits that reads back as the same
    number, laid out in positional or exponential form. *)

(** A positive finite number as a fraction [(p, q)]. *)
Definition fraction_of (m : positive) (e : Z) : Z * Z :=
  if (0 <=? e)%Z then (Zpos m * 2 ^ e, 1)%Z else (Zpos m, 2 ^ (- e))%Z.

(** [(p, q)] scaled by [10^k]. *)
Definition scale10 (f : Z * Z) (k : Z) : Z * Z :=
  let '(p, q) := f in
  if (0 <=? k)%Z then (p * 10 ^ k, q)%Z else (p, q * 10 ^ (- k))%Z.

(** [10^(n-1) <= v < 10^n], searched from [n]. *)
Fixpoint decimal_exponent (fuel : nat) (f : Z * Z) (n : Z) : Z :=
  match fuel with
  | O => n
  | S fuel' =>
      let '(p, q) := scale10 f (- n) in          (* v / 10^n *)
      if (q <=? p)%Z then decimal_exponent fuel' f (n + 1)
      else
        let '(p', q') := scale10 f (1 - n) in     (* v / 10^(n-1) *)
        if (p' <? q')%Z then decimal_exponent fuel' f (n - 1) else n
  end.

(** The digits [s] (as a number) with [k] digits and exponent [n] such
    that [s * 10^(n-k)] reads back as [x], for the least [k]. *)
Fixpoint shortest_digits (fuel : nat) (x : number) (f : Z * Z) (n : Z) (k : Z)
  : Z * Z :=
  match fuel with
  | O => (0, k)%Z
  | S fuel' =>
      let '(p, q) := scale10 f (k - n) in
      let lo := (p / q)%Z in
      let hi := (lo + 1)%Z in
      let fits s := ((10 ^ (k - 1) <=? s) && (s <? 10 ^ k))%Z in
      let back s := bool_decide (number_of_decimal false (Z.to_N s) (n - k) = x) in
      let ok_lo := fits lo && back lo in
      let ok_hi := fits hi && back hi in
      let twice := (2 * (p - lo * q))%Z in
      if ok_lo && ok_hi then
        if (twice <? q)%Z then (lo, k)
        else if (q <? twice)%Z then (hi, k)
        else if Z.even lo then (lo, k) else (hi, k)
      else if ok_lo then (lo, k)
      else if ok_hi then (hi, k)
      else shortest_digits fuel' x f n (k + 1)
  end.

Definition zeros (n : Z) : jsstring := repeat 48 (Z.to_nat n).

Definition layout_decimal (s k n : Z) : jsstring :=
  let ds := decimal (Z.to_N s) in
  if ((k <=? n) && (n <=? 21))%Z then ds ++ zeros (n - k)
  else if ((0 <? n) && (n <=? 21))%Z then
    take (Z.to_nat n) ds ++ lit "." ++ drop (Z.to_nat n) ds
  else if ((-6 <? n) && (n <=? 0))%Z then
    lit "0." ++ zeros (- n) ++ ds
  else
    let e := (n - 1)%Z in
    let sign := if (0 <=? e)%Z then lit "+" else lit "-" in
    let expo := lit "e" ++ sign ++ decimal (Z.abs_N e) in
    if (k =? 1)%Z then ds ++ expo
    else take 1 ds ++ lit "." ++ drop 1 ds ++ expo.

Definition positive_to_string (m : positive) (e : Z) : jsstring :=
  let x := S754_finite false m e in
  let f := fraction_of m e in
  let bits := (Zpos (digits2_pos m) + e)%Z in
  let n := decimal_exponent 8 f ((bits - 1) * 30103 / 100000 + 1)%Z in
  if bool_decide (number_of_decimal false 1 n = x) then layout_decimal 1 1 (n + 1)
  else let '(s, k) := shortest_digits 17 x f n 1 in layout_decimal s k n.

Definition number_to_string (x : number) : jsstring :=
  match x with
  | S754_nan => lit "NaN"
  | S754_zero _ => lit "0"
  | S754_infinity false => lit "Infinity"
  | S754_infinity true => lit "-Infinity"
  | S754_finite false m e => positive_to_string m e
  | S754_finite true m e => lit "-" ++ positive_to_string m e
  end.

(* ================================================================== *)
(** * JavaScript values *)
(* ================================================================== *)

(** The values the workflow handles: primitives, arrays, and plain
    objects as property lists in creation order, with distinct keys. *)
Inductive value :=
| VUndefined
| VNull
| VBool (b : bool)
| VNum (n : number)
| VStr (s : jsstring)
| VArr (items : list value)
| VObj (props : list (jsstring * value)).

(** What a failed computation throws: the constructor of the error
    object and its message. *)
Inductive exn := Exn (kind : string) (message : jsstring).

Inductive Result (A : Type) :=
| Ok (a : A)
| Err (e : exn).
Arguments Ok {A} a.
Arguments Err {A} e.

(** ** Property lists *)

Fixpoint assoc {A} (k : jsstring) (l : list (jsstring * A)) : option A :=
  match l with
  | [] => None
  | (k', v) :: l' => if jsstring_eqb k k' then Some v else assoc k l'
  end.

(** Defining a property: an existing key keeps its place and takes the
    new value, a new key goes last. *)
Fixpoint define_prop {A} (k : jsstring) (v : A) (l : list (jsstring * A))
  : list (jsstring * A) :=
  match l with
  | [] => [(k, v)]
  | (k', v') :: l' =>
      if jsstring_eqb k k' then (k', v) :: l' else (k', v') :: define_prop k v l'
  end.

(** [v.k] for a property name [k] that no built-in prototype defines
    (the workflow reads [title], [content], [text], [url] and [score]):
    the own property of an object, [undefined] on any other value, and a
    [TypeError] on [undefined] and [null]. *)
Definition get_prop (v : value) (k : string) : Result value :=
  match v with
  | VUndefined =>
      Err (Exn "TypeError"
             (lit "Cannot read properties of undefined (reading '" ++ lit k ++ lit "')"))
  | VNull =>
      Err (Exn "TypeError"
             (lit "Cannot read properties of null (reading '" ++ lit k ++ lit "')"))
  | VObj props =>
      Ok (match assoc (lit k) props with Some x => x | None => VUndefined end)
  | _ => Ok VUndefined
  end.

(** [typeof v === 'string'] *)
Definition is_string (v : value) : bool :=
  match v with VStr _ => true | _ => false end.

(** [a ?? b] *)
Definition nullish_coalesce (a b : value) : value :=
  match a with
  | VUndefined | VNull => b
  | _ => a
  end.

(** ** [ToString], as a template literal applies it

    A plain object prints as [[object Object]], unless it has an own
    [toString] property: a parsed one is never callable, and the
    conversion then throws.  An array joins its elements with commas,
    [null] and [undefined] elements printing as nothing. *)
Definition cannot_convert : exn :=
  Exn "TypeError" (lit "Cannot convert object to primitive value").

Fixpoint to_string (v : value) : Result jsstring :=
  match v with
  | VUndefined => Ok (lit "undefined")
  | VNull => Ok (lit "null")
  | VBool true => Ok (lit "true")
  | VBool false => Ok (lit "false")
  | VNum n => Ok (number_to_string n)
  | VStr s => Ok s
  | VArr items =>
      (fix go (l : list value) (first : bool) : Result jsstring :=
         match l with
         | [] => Ok []
         | x :: l' =>
             let sep := if first then [] else lit "," in
             match (match x with
                    | VUndefined | VNull => Ok []
                    | _ => to_string x
                    end) with
             | Err e => Err e
             | Ok sx =>
                 match go l' false with
                 | Err e => Err e
                 | Ok rest => Ok (sep ++ sx ++ rest)
                 end
             end
         end) items true
  | VObj props =>
      match assoc (lit "toString") props with
      | Some _ => Err cannot_convert
      | None => Ok (lit "[object Object]")
      end
  end.

(* ================================================================== *)
(** * JSON *)
(* ================================================================== *)

(** ** [JSON.parse]

    A recursive-descent reader of the JSON grammar. *)

Definition is_json_ws (c : char16) : bool :=
  (c =? 32) || (c =? 9) || (c =? 10) || (c =? 13).

Fixpoint skip_ws (s : jsstring) : jsstring :=
  match s with
  | c :: s' => if is_json_ws c then skip_ws s' else s
  | [] => []
  end.

Definition hex_digit (c : char16) : option N :=
  if is_digit c then Some (c - 48)
  else if (97 <=? c) && (c <=? 102) then Some (c - 87)
  else if (65 <=? c) && (c <=? 70) then Some (c - 55)
  else None.

(** The character that a one-letter escape stands for. *)
Definition simple_escape (e : char16) : option char16 :=
  if e =? 34 then Some 34
  else if e =? 92 then Some 92
  else if e =? 47 then Some 47
  else if e =? 98 then Some 8
  else if e =? 102 then Some 12
  else if e =? 110 then Some 10
  else if e =? 114 then Some 13
  else if e =? 116 then Some 9
  else None.

(** The characters of a string literal after its opening quote. *)
Fixpoint parse_string_chars (acc : jsstring) (s : jsstring)
  : option (jsstring * jsstring) :=
  match s with
  | [] => None
  | c :: rest =>
      if c =? 34 then Some (rev acc, rest)
      else if c =? 92 then
        match rest with
        | [] => None
        | e :: rest1 =>
            if e =? 117 then
              match rest1 with
              | a :: b :: c' :: d :: rest2 =>
                  match hex_digit a, hex_digit b, hex_digit c', hex_digit d with
                  | Some a, Some b, Some c', Some d =>
                      parse_string_chars
                        ((((a * 16 + b) * 16 + c') * 16 + d) :: acc) rest2
                  | _, _, _, _ => None
                  end
              | _ => None
              end
            else
              match simple_escape e with
              | Some x => parse_string_chars (x :: acc) rest1
              | None => None
              end
        end
      else if c <? 32 then None
      else parse_string_chars (c :: acc) rest
  end.

Definition digits_value (ds : jsstring) : N :=
  fold_left (fun acc c => acc * 10 + (c - 48)) ds 0.

(** An optional leading character. *)
Definition opt_char (c : char16) (s : jsstring) : bool * jsstring :=
  match s with
  | x :: r => if x =? c then (true, r) else (false, s)
  | [] => (false, s)
  end.

(** The fraction of a number literal: nothing, or a point and digits. *)
Definition parse_fraction (s : jsstring) : option (jsstring * jsstring) :=
  match opt_char 46 s with
  | (true, r) =>
      match span is_digit r with
      | ([], _) => None
      | (fs, r') => Some (fs, r')
      end
  | (false, _) => Some ([], s)
  end.

(** The exponent of a number literal: nothing, or [e] or [E], a sign
    and digits. *)
Definition parse_exponent (s : jsstring) : option (Z * jsstring) :=
  match s with
  | c :: r =>
      if (c =? 101) || (c =? 69) then
        let '(eneg, r0) := opt_char 45 r in
        let r1 := if eneg then r0 else snd (opt_char 43 r) in
        match span is_digit r1 with
        | ([], _) => None
        | (es, r2) =>
            let e := Z.of_N (digits_value es) in
            Some (if eneg then (- e)%Z else e, r2)
        end
      else Some (0%Z, s)
  | [] => Some (0%Z, s)
  end.

(** A number literal: [-? int frac? exp?], the integer part without a
    leading zero. *)
Definition parse_number (s : jsstring) : option (number * jsstring) :=
  let '(neg, s1) := opt_char 45 s in
  let '(int_ds, s2) := span is_digit s1 in
  match int_ds with
  | [] => None
  | d :: more =>
      if (d =? 48) && negb (is_nil more) then None
      else
        match parse_fraction s2 with
        | None => None
        | Some (frac_ds, s3) =>
            match parse_exponent s3 with
            | None => None
            | Some (e, s4) =>
                Some (number_of_decimal neg (digits_value (int_ds ++ frac_ds))
                        (e - Z.of_nat (length frac_ds)), s4)
            end
        end
  end.

(** The outcome of reading a value: the value and the text after it, a
    syntax error, or the fuel of the reader used up. *)
Inductive parsed :=
| Parsed (v : value) (rest : jsstring)
| Invalid
| OutOfFuel.

(** The elements of an array after the first one has been announced. *)
Fixpoint parse_elements (pv : jsstring -> parsed)
  (fuel : nat) (acc : list value) (s : jsstring) : parsed :=
  match fuel with
  | O => OutOfFuel
  | S fuel' =>
      match pv s with
      | Parsed v r =>
          match skip_ws r with
          | c :: r' =>
              if c =? 44 then parse_elements pv fuel' (v :: acc) r'
              else if c =? 93 then Parsed (VArr (rev (v :: acc))) r'
              else Invalid
          | [] => Invalid
          end
      | failure => failure
      end
  end.

(** The members of an object after the first one has been announced. *)
Fixpoint parse_members (pv : jsstring -> parsed)
  (fuel : nat) (acc : list (jsstring * value)) (s : jsstring) : parsed :=
  match fuel with
  | O => OutOfFuel
  | S fuel' =>
      match opt_char 34 (skip_ws s) with
      | (true, r) =>
          match parse_string_chars [] r with
          | None => Invalid
          | Some (k, r1) =>
              match opt_char 58 (skip_ws r1) with
              | (true, r2) =>
                  match pv r2 with
                  | Parsed v r3 =>
                      let acc' := define_prop k v acc in
                      match skip_ws r3 with
                      | c :: r4 =>
                          if c =? 44 then parse_members pv fuel' acc' r4
                          else if c =? 125 then Parsed (VObj acc') r4
                          else Invalid
                      | [] => Invalid
                      end
                  | failure => failure
                  end
              | (false, _) => Invalid
              end
          end
      | (false, _) => Invalid
      end
  end.

Definition parse_literal (word : string) (v : value) (s : jsstring) : parsed :=
  match match_prefix N.eqb (lit word) s with
  | Some r => Parsed v r
  | None => Invalid
  end.

Fixpoint parse_value (fuel : nat) (s : jsstring) : parsed :=
  match fuel with
  | O => OutOfFuel
  | S fuel' =>
      match skip_ws s with
      | [] => Invalid
      | c :: r =>
          if c =? 123 then
            match opt_char 125 (skip_ws r) with
            | (true, r') => Parsed (VObj []) r'
            | (false, _) => parse_members (parse_value fuel') (S (length r)) [] r
            end
          else if c =? 91 then
            match opt_char 93 (skip_ws r) with
            | (true, r') => Parsed (VArr []) r'
            | (false, _) => parse_elements (parse_value fuel') (S (length r)) [] r
            end
          else if c =? 34 then
            match parse_string_chars [] r with
            | Some (str, r') => Parsed (VStr str) r'
            | None => Invalid
            end
          else if c =? 116 then parse_literal "true" (VBool true) (c :: r)
          else if c =? 102 then parse_literal "false" (VBool false) (c :: r)
          else if c =? 110 then parse_literal "null" VNull (c :: r)
          else
            match parse_number (c :: r) with
            | Some (n, r') => Parsed (VNum n) r'
            | None => Invalid
            end
      end
  end.

(** [JSON.parse(text)]; [None] stands for the [SyntaxError] it throws.
    The fuel given is never used up ([parse_value_fuel] below). *)
Definition JSON_parse (text : jsstring) : option value :=
  match parse_value (S (length text)) text with
  | Parsed v rest =>
      match skip_ws rest with
      | [] => Some v
      | _ => None
      end
  | _ => None
  end.

(** ** [JSON.stringify] (one argument) *)

Definition hex_char (d : N) : char16 := if d <? 10 then 48 + d else 87 + d.

Definition hex4 (c : char16) : jsstring :=
  [hex_char (c / 4096 mod 16); hex_char (c / 256 mod 16);
   hex_char (c / 16 mod 16); hex_char (c mod 16)].

Definition is_high_surrogate (c : char16) : bool := (55296 <=? c) && (c <=? 56319).
Definition is_low_surrogate (c : char16) : bool := (56320 <=? c) && (c <=? 57343).

Definition escape_unit (c : char16) : jsstring :=
  if c =? 8 then lit "\b"
  else if c =? 9 then lit "\t"
  else if c =? 10 then lit "\n"
  else if c =? 12 then lit "\f"
  else if c =? 13 then lit "\r"
  else if c =? 34 then 92 :: DQUOTE
  else if c =? 92 then lit "\\"
  else if (c <? 32) || is_high_surrogate c || is_low_surrogate c
       then lit "\u" ++ hex4 c
  else [c].

(** The body of [QuoteJSONString]: a surrogate pair is copied, a lone
    surrogate is escaped. *)
Fixpoint quote_chars (s : jsstring) : jsstring :=
  match s with
  | [] => []
  | c :: ((d :: s'') as s') =>
      if is_high_surrogate c && is_low_surrogate d
      then c :: d :: quote_chars s''
      else escape_unit c ++ quote_chars s'
  | [c] => escape_unit c
  end.

Definition quote_json (s : jsstring) : jsstring :=
  DQUOTE ++ quote_chars s ++ DQUOTE.

(** Property keys that are array indices come first, in numeric order;
    the other keys follow in creation order. *)
Definition array_index (k : jsstring) : option N :=
  match k with
  | [] => None
  | _ =>
      if forallb is_digit k then
        let n := digits_value k in
        if jsstring_eqb (decimal n) k && (n <? 4294967295) then Some n else None
      else None
  end.

Definition is_some {A} (o : option A) : bool :=
  match o with Some _ => true | None => false end.

Fixpoint insert_by_index {A} (n : N) (x : A) (l : list (N * A)) : list (N * A) :=
  match l with
  | [] => [(n, x)]
  | (m, y) :: l' =>
      if n <? m then (n, x) :: l else (m, y) :: insert_by_index n x l'
  end.

Definition own_property_order {A} (props : list (jsstring * A))
  : list (jsstring * A) :=
  let indexed :=
    fold_left (fun acc kv =>
                 match array_index (fst kv) with
                 | Some n => insert_by_index n kv acc
                 | None => acc
                 end) props [] in
  List.map snd indexed
    ++ List.filter (fun kv => negb (is_some (array_index (fst kv)))) props.

Definition is_finite (x : number) : bool :=
  match x with
  | S754_zero _ | S754_finite _ _ _ => true
  | _ => false
  end.

(** [None] is the [undefined] that [JSON.stringify] returns for
    [undefined]; inside an array it prints as [null], inside an object
    the property is left out. *)
Fixpoint stringify (v : value) : option jsstring :=
  match v with
  | VUndefined => None
  | VNull => Some (lit "null")
  | VBool true => Some (lit "true")
  | VBool false => Some (lit "false")
  | VNum n => Some (if is_finite n then number_to_string n else lit "null")
  | VStr s => Some (quote_json s)
  | VArr items =>
      Some (lit "[" ++
            join (lit ",")
              (List.map (fun x => match stringify x with
                                  | Some t => t
                                  | None => lit "null"
                                  end) items)
            ++ lit "]")
  | VObj props =>
      let printed :=
        List.map (fun kv => (fst kv, stringify (snd kv))) props in
      Some (lit "{" ++
            join (lit ",")
              (omap (fun kt => match snd kt with
                               | Some t => Some (quote_json (fst kt) ++ lit ":" ++ t)
                               | None => None
                               end) (own_property_order printed))
            ++ lit "}")
  end.

Definition JSON_stringify (v : value) : value :=
  match stringify v with
  | Some s => VStr s
  | None => VUndefined
  end.

(* ================================================================== *)
(** * Declared shapes (zod schemas) *)
(* ================================================================== *)

Inductive schema :=
| ZString
| ZUrl                                     (* z.string().url() *)
| ZNumber
| ZBoolean
| ZOptional (s : schema)
| ZArray (s : schema)
| ZObject (shape : list (string * schema)).

(** Parsing a value against a schema, given the test that [.url()]
    applies.  An object keeps its declared properties only; [z.number()]
    refuses [NaN]; an absent property is read as [undefined]. *)
Section ZodParse.
Variable is_url : jsstring -> bool.

Fixpoint zod_parse (s : schema) (v : value) : option value :=
  match s with
  | ZString => match v with VStr _ => Some v | _ => None end
  | ZUrl => match v with VStr u => if is_url u then Some v else None | _ => None end
  | ZNumber => match v with VNum n => if is_nan n then None else Some v | _ => None end
  | ZBoolean => match v with VBool _ => Some v | _ => None end
  | ZOptional s' =>
      match v with
      | VUndefined => Some VUndefined
      | _ => zod_parse s' v
      end
  | ZArray s' =>
      match v with
      | VArr items =>
          match mapM (zod_parse s') items with
          | Some items' => Some (VArr items')
          | None => None
          end
      | _ => None
      end
  | ZObject shape =>
      match v with
      | VObj props =>
          (fix go (sh : list (string * schema)) : option (list (jsstring * value)) :=
             match sh with
             | [] => Some []
             | (k, s') :: sh' =>
                 let x := match assoc (lit k) props with
                          | Some x => x
                          | None => VUndefined
                          end in
                 match zod_parse s' x, go sh' with
                 | Some x', Some rest =>
                     Some (match assoc (lit k) props, x' with
                           | None, VUndefined => rest
                           | _, _ => (lit k, x') :: rest
                           end)
                 | _, _ => None
                 end
             end) shape
            ≫= (fun props' => Some (VObj props'))
      | _ => None
      end
  end.
End ZodParse.

(* ================================================================== *)
(** * Collaborators and effects *)
(* ================================================================== *)

(** What [fetch] resolves to: [res.ok], [res.status], and what
    [await res.text()] gives, the body or an error while reading it. *)
Record Response := { res_ok : bool; res_status : N; res_text : Result jsstring }.

(** The calls a run makes to its collaborators, for call-count checks. *)
Inductive event :=
| EvFetch (url : jsstring)
| EvGenerate (agent : string) (prompt : jsstring)
| EvMkdir (dir : jsstring)
| EvWriteFile (path content : jsstring).

(** The mutable world: the clock read by [Date.now()], the files under
    the working directory, and the calls made so far (oldest first). *)
Record World := {
  now : N;
  files : gmap (list N) (list N);
  trace : list event;
}.

(** The collaborators' answers.  Each may depend on the world at the
    time of the call, so that a language model or a disk need not answer
    the same way twice.  The answer of a language model is its text; the
    tools that an agent may call while it generates are not part of the
    workflow and are not modelled. *)
Record Env := {
  url_ok : jsstring -> bool;                              (* zod's .url() test *)
  net_fetch : World -> jsstring -> Result Response;        (* global fetch *)
  llm_generate : World -> string -> jsstring -> Result jsstring;  (* agent.generate(...).text *)
  disk_mkdir : World -> jsstring -> Result unit;           (* fs.mkdir, recursive *)
  disk_writeFile : World -> jsstring -> jsstring -> Result unit; (* fs.writeFile *)
}.

(** An asynchronous computation, awaited: it reads the environment,
    changes the world, and either returns or throws. *)
Definition M (A : Type) : Type := Env -> World -> Result A * World.

Definition ret {A} (a : A) : M A := fun _ w => (Ok a, w).
Definition throw {A} (e : exn) : M A := fun _ w => (Err e, w).
Definition bind {A B} (m : M A) (k : A -> M B) : M B :=
  fun env w =>
    match m env w with
    | (Ok a, w') => k a env w'
    | (Err e, w') => (Err e, w')
    end.
Definition lift {A} (r : Result A) : M A := fun _ w => (r, w).

Declare Scope js_scope.
Delimit Scope js_scope with js.
Notation "'let*' x ':=' m 'in' k" := (bind m (fun x => k))
  (at level 10, x name, m at level 100, k at level 200) : js_scope.
Notation "m ';;;' k" := (bind m (fun _ => k))
  (at level 100, k at level 200, right associativity) : js_scope.

Definition record_event (ev : event) (w : World) : World :=
  {| now := now w; files := files w; trace := trace w ++ [ev] |}.

Definition log_event (ev : event) : M unit :=
  fun _ w => (Ok tt, record_event ev w).

(** [await fetch(url, ...)] *)
Definition js_fetch (url : jsstring) : M Response :=
  (log_event (EvFetch url) ;;;
   fun env w => (net_fetch env w url, w))%js.

(** [Date.now()] *)
Definition Date_now : M N := fun _ w => (Ok (now w), w).

(** [await fs.mkdir(dir, { recursive: true })] *)
Definition fs_mkdir (dir : jsstring) : M unit :=
  (log_event (EvMkdir dir) ;;;
   fun env w => (disk_mkdir env w dir, w))%js.

Definition store_file (path content : jsstring) (w : World) : World :=
  {| now := now w; files := <[path := content]> (files w); trace := trace w |}.

(** [await fs.writeFile(path, content, 'utf-8')] *)
Definition fs_writeFile (path content : jsstring) : M unit :=
  (log_event (EvWriteFile path content) ;;;
   fun env w =>
     match disk_writeFile env w path content with
     | Ok tt => (Ok tt, store_file path content w)
     | Err e => (Err e, w)
     end)%js.

(** ** Agents and their registry *)

Record Agent := { agent_id : string; agent_name : string; agent_model : string }.

(** [src/src/mastra/agents/critic.ts] *)
Definition criticAgent : Agent :=
  {| agent_id := "critic"; agent_name := "Summary Critic";
     agent_model := "openrouter/nvidia/nemotron-3-nano-30b-a3b:free" |}.

(** [src/src/mastra/agents/summarizer.ts] *)
Definition summarizerAgent : Agent :=
  {| agent_id := "summarizer"; agent_name := "Page Summarizer";
     agent_model := "openrouter/nvidia/nemotron-3-nano-30b-a3b:free" |}.

(** The [agents] of [new Mastra({...})] in [src/src/mastra/index.ts]. *)
Definition Mastra := list (string * Agent).

Definition mastra : Mastra :=
  [("summarizer"%string, summarizerAgent); ("critic"%string, criticAgent)].

Fixpoint lookup_name {A} (k : string) (l : list (string * A)) : option A :=
  match l with
  | [] => None
  | (k', v) :: l' => if String.eqb k k' then Some v else lookup_name k l'
  end.

(** [mastra.getAgent(name)] throws when no agent has that name. *)
Definition getAgent (m : Mastra) (name : string) : M Agent :=
  match lookup_name name m with
  | Some a => ret a
  | None => throw (Exn "Error" (lit "Agent with name " ++ lit name ++ lit " not found"))
  end.

(** [(await agent.generate(prompt)).text] *)
Definition agent_generate (a : Agent) (prompt : jsstring) : M jsstring :=
  (log_event (EvGenerate (agent_id a) prompt) ;;;
   fun env w => (llm_generate env w (agent_id a) prompt, w))%js.

(* ================================================================== *)
(** * Library functions used by the save step *)
(* ================================================================== *)

(** [String.prototype.toLowerCase].  The ASCII and Latin-1 capitals are
    lowered; of all other characters only U+0130 and U+212A lower to
    something containing a character of [a-z0-9], and these two are
    lowered as Unicode says.  The remaining characters are left as they
    are: their lower case is outside [a-z0-9] too, which is all that the
    slug computed from the result depends on. *)
Definition lower_unit (c : char16) : jsstring :=
  if is_upper_AZ c then [c + 32]
  else if (192 <=? c) && (c <=? 222) && negb (c =? 215) then [c + 32]
  else if c =? 304 then [105; 775]
  else if c =? 8490 then [107]
  else [c].

Definition toLowerCase (s : jsstring) : jsstring := flat_map lower_unit s.

(** [/[^a-z0-9]+/g] *)
Definition not_alnum (c : char16) : bool := negb (is_lower_az c || is_digit c).

Definition re_non_alnum (s : jsstring) : option nat :=
  match span not_alnum s with
  | ((_ :: _) as run, _) => Some (length run)
  | _ => None
  end.

(** ** POSIX [path] *)

Definition is_slash (c : char16) : bool := c =? 47.
Definition not_slash (c : char16) : bool := negb (c =? 47).

(** The segments of a path between its slashes. *)
Fixpoint segments (cur : jsstring) (s : jsstring) : list jsstring :=
  match s with
  | [] => [rev cur]
  | c :: s' => if is_slash c then rev cur :: segments [] s' else segments (c :: cur) s'
  end.

(** [normalizeString]: [out] is the stack of kept segments, last first. *)
Fixpoint normalize_segments (allow_above_root : bool) (out : list jsstring)
  (segs : list jsstring) : list jsstring :=
  match segs with
  | [] => rev out
  | seg :: segs' =>
      if jsstring_eqb seg [] || jsstring_eqb seg (lit ".") then
        normalize_segments allow_above_root out segs'
      else if jsstring_eqb seg (lit "..") then
        match out with
        | top :: out' =>
            if jsstring_eqb top (lit "..")
            then normalize_segments allow_above_root (seg :: out) segs'
            else normalize_segments allow_above_root out' segs'
        | [] =>
            if allow_above_root
            then normalize_segments allow_above_root [seg] segs'
            else normalize_segments allow_above_root [] segs'
        end
      else normalize_segments allow_above_root (seg :: out) segs'
  end.

Definition path_normalize (p : jsstring) : jsstring :=
  match p with
  | [] => lit "."
  | c :: _ =>
      let absolute := is_slash c in
      let trailing := match rev p with d :: _ => is_slash d | [] => false end in
      let body := join (lit "/") (normalize_segments (negb absolute) [] (segments [] p)) in
      let body :=
        match body with
        | [] => if absolute then [] else if trailing then lit "./" else lit "."
        | _ => if trailing then body ++ lit "/" else body
        end in
      if absolute then lit "/" ++ body else body
  end.

(** [path.join(a, b)] *)
Definition path_join (a b : jsstring) : jsstring :=
  match a, b with
  | [], [] => lit "."
  | [], _ => path_normalize b
  | _, [] => path_normalize a
  | _, _ => path_normalize (a ++ lit "/" ++ b)
  end.

(** [path.dirname(p)] *)
Definition path_dirname (p : jsstring) : jsstring :=
  match p with
  | [] => lit "."
  | c :: _ =>
      let has_root := is_slash c in
      (* drop the trailing slashes, then the last segment *)
      let r := drop_while not_slash (drop_while is_slash (rev p)) in
      match r with
      | [] | [_] => if has_root then lit "/" else lit "."
      | [_; _] => if has_root then lit "//" else rev (tl r)
      | _ => rev (tl r)
      end
  end.

(* ================================================================== *)
(** * Steps *)
(* ================================================================== *)

(** The outputs recorded so far in a run, oldest first, by step id. *)
Definition RunContext := list (string * value).

(** [getStepResult(id)]: the recorded output, or [null]. *)
Definition getStepResult (ctx : RunContext) (id : string) : value :=
  match lookup_name id ctx with
  | Some v => v
  | None => VNull
  end.

Record Step := {
  step_id : string;
  inputSchema : schema;
  outputSchema : schema;
  execute : value -> RunContext -> Mastra -> M value;
}.

Definition validation_failed (id : string) : exn :=
  Exn "Error" (lit "Step input validation failed for " ++ lit id).

(** Modelled from the spec: [createStep] of the workflow library, which
    is not part of the sources.  A stage has a name, a declared input
    shape and output shape and an execution function of the input and
    the run context (sections 3 and 4.1); the input is checked against
    the declared shape before the body runs (section 9, runtime schema
    validation), and a violation fails the stage.  The bodies of this
    workflow take the input data and the [mastra] instance only.
    [decode] reads the checked input into the body's parameter type,
    [encode] turns the body's result into a value. *)
Definition createStep {I O : Type} (id : string) (input output : schema)
  (decode : value -> option I) (encode : O -> value)
  (body : I -> Mastra -> M O) : Step :=
  {| step_id := id;
     inputSchema := input;
     outputSchema := output;
     execute := fun inputData _ m env w =>
       match zod_parse (url_ok env) input inputData ≫= decode with
       | None => (Err (validation_failed id), w)
       | Some i =>
           match body i m env w with
           | (Ok o, w') => (Ok (encode o), w')
           | (Err e, w') => (Err e, w')
           end
       end |}.

(** Reading a checked object. *)
Definition field (v : value) (k : string) : value :=
  match v with
  | VObj props => match assoc (lit k) props with Some x => x | None => VUndefined end
  | _ => VUndefined
  end.

Definition as_string (v : value) : option jsstring :=
  match v with VStr s => Some s | _ => None end.
Definition as_number (v : value) : option number :=
  match v with VNum n => Some n | _ => None end.

(** ** fetch-page *)

(** The text of a page, as both the tool and the step compute it:
    scripts and styles removed, tags replaced by a space, runs of white
    space collapsed, trimmed. *)
Definition page_text (html : jsstring) : jsstring :=
  trim
    (replace_all re_spaces2 (lit " ")
       (replace_all re_tag (lit " ")
          (replace_all re_style []
             (replace_all re_script [] html)))).

(** [titleMatch ? titleMatch[1].trim() : url] *)
Definition page_title (html url : jsstring) : jsstring :=
  match match_title html with
  | Some g => trim g
  | None => url
  end.

(** [text.split(/\s+/).length] *)
Definition word_count (text : jsstring) : nat := length (split_ws text).

(** [text.split(/\s+/).slice(0, 8000).join(' ')] *)
Definition truncate_words (text : jsstring) : jsstring :=
  join (lit " ") (take 8000 (split_ws text)).

Definition fetch_failed (url : jsstring) (status : N) : exn :=
  Exn "Error"
    (lit "Failed to fetch " ++ url ++ lit ": "
       ++ number_to_string (number_of_Z (Z.of_N status))).

Record FetchInput := { in_url : jsstring }.

Record FetchStepOutput := {
  content : jsstring;
  title : jsstring;
  wordCount : nat;
  url : jsstring;
}.

Definition url_schema : schema := ZObject [("url"%string, ZUrl)].

Definition fetch_output_schema : schema :=
  ZObject [("content"%string, ZString); ("title"%string, ZString);
           ("wordCount"%string, ZNumber); ("url"%string, ZString)].

Definition decode_FetchInput (v : value) : option FetchInput :=
  u ← as_string (field v "url"); Some {| in_url := u |}.

Definition encode_FetchStepOutput (o : FetchStepOutput) : value :=
  VObj [(lit "content", VStr (content o)); (lit "title", VStr (title o));
        (lit "wordCount", VNum (number_of_nat (wordCount o)));
        (lit "url", VStr (url o))].

(** The [execute] of [fetchStep] in
    [src/mastra/workflows/summarizeWorkflow.ts]. *)
Definition fetchStep_execute (inputData : FetchInput) (_ : Mastra)
  : M FetchStepOutput :=
  (let* res := js_fetch (in_url inputData) in
   if negb (res_ok res) then
     throw (fetch_failed (in_url inputData) (res_status res))
   else
     let* html := lift (res_text res) in
     let text := page_text html in
     let title := page_title html (in_url inputData) in
     let wordCount := word_count text in
     let content := truncate_words text in
     ret {| content := content; title := title; wordCount := wordCount;
            url := in_url inputData |})%js.

Definition fetchStep : Step :=
  createStep "fetch-page" url_schema fetch_output_schema
    decode_FetchInput encode_FetchStepOutput fetchStep_execute.

(** The [execute] of [fetchPageTool] in
    [src/src/mastra/tools/fetchPage.ts]: the same computation, without
    the url in the result. *)
Record FetchPageResult := {
  tool_content : jsstring;
  tool_title : jsstring;
  tool_wordCount : nat;
}.

Definition fetchPageTool_execute (url : jsstring) : M FetchPageResult :=
  (let* res := js_fetch url in
   if negb (res_ok res) then throw (fetch_failed url (res_status res))
   else
     let* html := lift (res_text res) in
     let text := page_text html in
     let title := page_title html url in
     let wordCount := word_count text in
     let truncated := truncate_words text in
     ret {| tool_content := truncated; tool_title := title;
            tool_wordCount := wordCount |})%js.

(** ** summarizer *)

Definition prompt_schema : schema := ZObject [("prompt"%string, ZString)].
Definition text_schema : schema := ZObject [("text"%string, ZString)].

(** Modelled from the spec: [createStep(agent)] of the workflow library,
    which is not part of the sources.  The stage takes a prompt, asks
    the agent and returns its text (section 6: Summarizer, [{prompt
    text}] to [{summary text}], generation error).  Its name is the
    agent's id: the mappings of the workflow look the summarizer's
    output up as [getStepResult('summarizer')]. *)
Definition createAgentStep (a : Agent) : Step :=
  createStep (agent_id a) prompt_schema text_schema
    (fun v => as_string (field v "prompt"))
    (fun t => VObj [(lit "text", VStr t)])
    (fun prompt _ => agent_generate a prompt).

Definition summarizeStep : Step := createAgentStep summarizerAgent.

(** ** critique *)

Record CritiqueInput := {
  cr_text : jsstring;
  cr_title : jsstring;
  cr_url : jsstring;
}.

Definition critique_input_schema : schema :=
  ZObject [("text"%string, ZString); ("title"%string, ZString);
           ("url"%string, ZString)].

Definition critique_output_schema : schema :=
  ZObject [("score"%string, ZNumber); ("issues"%string, ZArray ZString);
           ("suggestion"%string, ZString)].

Definition decode_CritiqueInput (v : value) : option CritiqueInput :=
  t ← as_string (field v "text");
  ti ← as_string (field v "title");
  u ← as_string (field v "url");
  Some {| cr_text := t; cr_title := ti; cr_url := u |}.

(** [{ score: 5, issues: ['Could not parse critique'], suggestion: '' }] *)
Definition critique_fallback : value :=
  VObj [(lit "score", VNum (number_of_Z 5));
        (lit "issues", VArr [VStr (lit "Could not parse critique")]);
        (lit "suggestion", VStr [])].

Definition critique_prompt (inputData : CritiqueInput) : jsstring :=
  lit "Please critique this summary of " ++ DQUOTE ++ cr_title inputData
    ++ DQUOTE ++ lit ":" ++ LF ++ LF ++ cr_text inputData.

(** The [execute] of [critiqueStep]: [try { return JSON.parse(...) }
    catch { return fallback }]. *)
Definition critiqueStep_execute (inputData : CritiqueInput) (m : Mastra)
  : M value :=
  (let* critic := getAgent m "critic" in
   let* response_text := agent_generate critic (critique_prompt inputData) in
   match JSON_parse response_text with
   | Some v => ret v
   | None => ret critique_fallback
   end)%js.

Definition critiqueStep : Step :=
  createStep "critique" critique_input_schema critique_output_schema
    decode_CritiqueInput (fun v => v) critiqueStep_execute.

(** ** conditional-save *)

Record SaveInput := {
  score : number;
  summary : jsstring;
  sv_title : jsstring;
  sv_url : jsstring;
}.

Record SaveOutput := { saved : bool; filePath : option jsstring }.

Definition save_input_schema : schema :=
  ZObject [("score"%string, ZNumber); ("summary"%string, ZString);
           ("title"%string, ZString); ("url"%string, ZString)].

Definition save_output_schema : schema :=
  ZObject [("saved"%string, ZBoolean); ("filePath"%string, ZOptional ZString)].

Definition decode_SaveInput (v : value) : option SaveInput :=
  s ← as_number (field v "score");
  su ← as_string (field v "summary");
  ti ← as_string (field v "title");
  u ← as_string (field v "url");
  Some {| score := s; summary := su; sv_title := ti; sv_url := u |}.

Definition encode_SaveOutput (o : SaveOutput) : value :=
  match filePath o with
  | None => VObj [(lit "saved", VBool (saved o))]
  | Some p => VObj [(lit "saved", VBool (saved o)); (lit "filePath", VStr p)]
  end.

(** The threshold of the comparison [inputData.score < 7]. *)
Definition threshold : number := number_of_Z 7.

Definition slug_of (title : jsstring) : jsstring :=
  take 50 (replace_all re_non_alnum (lit "-") (toLowerCase title)).

Definition summary_file (inputData : SaveInput) : jsstring :=
  lit "# " ++ sv_title inputData ++ LF ++ LF ++ lit "> Source: "
    ++ sv_url inputData ++ LF ++ LF ++ summary inputData ++ LF.

(** The [execute] of [conditionalSaveStep]. *)
Definition conditionalSaveStep_execute (inputData : SaveInput) (_ : Mastra)
  : M SaveOutput :=
  (if num_lt (score inputData) threshold then
     ret {| saved := false; filePath := None |}
   else
     let slug := slug_of (sv_title inputData) in
     let* t := Date_now in
     let fileName :=
       slug ++ lit "-" ++ number_to_string (number_of_Z (Z.of_N t)) ++ lit ".md" in
     let filePath := path_join (lit "./workspace/summaries") fileName in
     fs_mkdir (path_dirname filePath) ;;;
     fs_writeFile filePath (summary_file inputData) ;;;
     ret {| saved := true; filePath := Some filePath |})%js.

Definition conditionalSaveStep : Step :=
  createStep "conditional-save" save_input_schema save_output_schema
    decode_SaveInput encode_SaveOutput conditionalSaveStep_execute.

(* ================================================================== *)
(** * The mappings between the steps *)
(* ================================================================== *)

(** A [.map] closure is asynchronous code like a step: it receives the
    previous output and the run context. *)
Definition Mapping := value -> RunContext -> M value.

(** fetch-page to summarizer:
    [({ inputData }) => ({ prompt: `Summarize ... "${inputData.title}":\n\n${inputData.content}` })] *)
Definition map_fetch_to_summarize : Mapping :=
  fun inputData _ =>
    (let* t := lift (get_prop inputData "title") in
     let* ts := lift (to_string t) in
     let* c := lift (get_prop inputData "content") in
     let* cs := lift (to_string c) in
     ret (VObj [(lit "prompt",
                 VStr (lit "Summarize the following article titled " ++ DQUOTE
                         ++ ts ++ DQUOTE ++ lit ":" ++ LF ++ LF ++ cs))]))%js.

(** summarizer to critique: the text of the summary, or the serialised
    output when it has no string [text]; title and url of the fetch. *)
Definition map_summarize_to_critique : Mapping :=
  fun inputData ctx =>
    (let fetch := getStepResult ctx "fetch-page" in
     let* t := lift (get_prop inputData "text") in
     let text := if is_string t then t else JSON_stringify inputData in
     let* title := lift (get_prop fetch "title") in
     let* url := lift (get_prop fetch "url") in
     ret (VObj [(lit "text", text); (lit "title", title); (lit "url", url)]))%js.

(** critique to conditional-save: the score, the summary text
    ([summarize.text ?? '']), title and url of the fetch. *)
Definition map_critique_to_save : Mapping :=
  fun inputData ctx =>
    (let summarize := getStepResult ctx "summarizer" in
     let fetch := getStepResult ctx "fetch-page" in
     let* score := lift (get_prop inputData "score") in
     let* t := lift (get_prop summarize "text") in
     let* title := lift (get_prop fetch "title") in
     let* url := lift (get_prop fetch "url") in
     ret (VObj [(lit "score", score);
                (lit "summary", nullish_coalesce t (VStr []));
                (lit "title", title); (lit "url", url)]))%js.

(* ================================================================== *)
(** * The orchestrator *)
(* ================================================================== *)

(** Modelled from the spec: the workflow engine ([createWorkflow],
    [.then], [.map], [.commit] and the execution of a run), which is not
    part of the sources.  Section 3: a pipeline is an ordered list of
    stages with mappings interleaved; a run holds the log of recorded
    outputs and its status.  Section 4.3: for each stage with its
    optional preceding mapping, in declared order, the mapping reshapes
    the previous output, with the run context, into the stage's input; a
    failing mapping or stage ends the run as failed and nothing after it
    executes; a completed stage is appended to the log; after the last
    stage the last recorded output is the terminal output and the run
    has succeeded.  Section 7: a stage failure carries the stage's name,
    a mapping failure the names of the two adjacent stages. *)
Definition Stage : Type := option Mapping * Step.

Record Workflow := {
  workflow_id : string;
  workflow_input : schema;
  workflow_output : schema;
  stages : list Stage;
  pending : option Mapping;      (* a [.map] waiting for its [.then] *)
}.

Definition createWorkflow (id : string) (input output : schema) : Workflow :=
  {| workflow_id := id; workflow_input := input; workflow_output := output;
     stages := []; pending := None |}.

Definition then_ (s : Step) (wf : Workflow) : Workflow :=
  {| workflow_id := workflow_id wf; workflow_input := workflow_input wf;
     workflow_output := workflow_output wf;
     stages := stages wf ++ [(pending wf, s)]; pending := None |}.

(** Two mappings in a row apply one after the other. *)
Definition map_ (f : Mapping) (wf : Workflow) : Workflow :=
  {| workflow_id := workflow_id wf; workflow_input := workflow_input wf;
     workflow_output := workflow_output wf;
     stages := stages wf;
     pending := Some (match pending wf with
                      | None => f
                      | Some g => fun x ctx => bind (g x ctx) (fun y => f y ctx)
                      end) |}.

Definition commit (wf : Workflow) : Workflow := wf.

Notation "wf '.>' f" := (f wf) (at level 45, left associativity, only parsing).

Inductive failure :=
| StageError (stage : string) (cause : exn)
| MappingError (source target : string) (cause : exn).

(** A run in progress: the name of the last completed stage, the value
    to hand on, the log of recorded outputs (oldest first) and, as
    instrumentation, the names of the stages invoked so far. *)
Record Progress := {
  prev : string;
  cur : value;
  log : RunContext;
  inv : list string;
}.

Inductive outcome :=
| Running (p : Progress)
| Stopped (f : failure) (log : RunContext) (inv : list string).

(** The input of a stage: the previous output, reshaped by the mapping
    when there is one. *)
Definition mapped_input (st : Stage) (p : Progress) : M value :=
  match fst st with
  | Some f => f (cur p) (log p)
  | None => ret (cur p)
  end.

(** One stage with its preceding mapping (steps 2a to 2d). *)
Definition run_stage (m : Mastra) (st : Stage) (p : Progress)
  (env : Env) (w : World) : outcome * World :=
  let s := snd st in
  match mapped_input st p env w with
  | (Err e, w1) => (Stopped (MappingError (prev p) (step_id s) e) (log p) (inv p), w1)
  | (Ok x, w1) =>
      match execute s x (log p) m env w1 with
      | (Err e, w2) =>
          (Stopped (StageError (step_id s) e) (log p) (inv p ++ [step_id s]), w2)
      | (Ok out, w2) =>
          (Running {| prev := step_id s; cur := out;
                      log := log p ++ [(step_id s, out)];
                      inv := inv p ++ [step_id s] |}, w2)
      end
  end.

(** The stages in declared order, stopping at the first failure. *)
Fixpoint advance (m : Mastra) (sts : list Stage) (p : Progress)
  (env : Env) (w : World) : outcome * World :=
  match sts with
  | [] => (Running p, w)
  | st :: sts' =>
      match run_stage m st p env w with
      | (Running p', w') => advance m sts' p' env w'
      | (Stopped f l i, w') => (Stopped f l i, w')
      end
  end.

Inductive run_status := succeeded | failed | cancelled.

(** A finished run, as given to the caller. *)
Record Run := {
  status : run_status;
  terminalOutput : option value;
  run_failure : option failure;
  run_log : RunContext;
  invoked : list string;
}.

Definition last_output (l : RunContext) : option value := option_map snd (last l).

Definition finish (o : outcome) : Run :=
  match o with
  | Running p =>
      {| status := succeeded; terminalOutput := last_output (log p);
         run_failure := None; run_log := log p; invoked := inv p |}
  | Stopped f l i =>
      {| status := failed; terminalOutput := None; run_failure := Some f;
         run_log := l; invoked := i |}
  end.

Definition start (input : value) : Progress :=
  {| prev := EmptyString; cur := input; log := []; inv := [] |}.

Definition run (m : Mastra) (wf : Workflow) (input : value)
  (env : Env) (w : World) : Run * World :=
  let '(o, w') := advance m (stages wf) (start input) env w in (finish o, w').

(** [summarizeWorkflow] of [src/mastra/workflows/summarizeWorkflow.ts]. *)
Definition summarizeWorkflow : Workflow :=
  createWorkflow "summarize-workflow" url_schema save_output_schema
    .> then_ fetchStep
    .> map_ map_fetch_to_summarize
    .> then_ summarizeStep
    .> map_ map_summarize_to_critique
    .> then_ critiqueStep
    .> map_ map_critique_to_save
    .> then_ conditionalSaveStep
    .> commit.

(** The input of a run for a url. *)
Definition url_input (u : jsstring) : value := VObj [(lit "url", VStr u)].

(* ================================================================== *)
(** * Vocabulary of the statements *)
(* ================================================================== *)

(** A piece without white space. *)
Definition ws_free (p : jsstring) : Prop :=
  Forall (fun c => is_space c = false) p.

(** In a list of pieces, every piece but the last is non-empty. *)
Fixpoint inner_nonempty (ps : list jsstring) : Prop :=
  match ps with
  | [] => True
  | q :: rest => (rest = [] \/ q <> []) /\ inner_nonempty rest
  end.

(** Two texts equal up to the case of ASCII letters. *)
Definition ci_equal (pat s : jsstring) : Prop :=
  Forall2 (fun p c => eq_ci p c = true) pat s.

(** What the expression [/<title[^>]*>([^<]+)<\/title>/i] describes:
    after [before], the text [<title], anything without [>], a [>], a
    non-empty text [g] without [<], and the text [</title>]. *)
Definition title_element (html before g : jsstring) : Prop :=
  exists opening attrs closing after,
    html = before ++ opening ++ attrs ++ 62 :: g ++ closing ++ after
    /\ ci_equal (lit "<title") opening
    /\ Forall (fun c => not_gt c = true) attrs
    /\ g <> [] /\ Forall (fun c => not_lt c = true) g
    /\ ci_equal (lit "</title>") closing.

(** The declared name of a stage. *)
Definition stage_name (st : Stage) : string := step_id (snd st).

(** The mappings of a workflow. *)
Definition mappings_of (wf : Workflow) : list Mapping := omap fst (stages wf).


(** The prompt that the first mapping builds from a fetch result. *)
Definition summarize_prompt (f : FetchStepOutput) : jsstring :=
  lit "Summarize the following article titled " ++ DQUOTE ++ title f
    ++ DQUOTE ++ lit ":" ++ LF ++ LF ++ content f.

(** The outputs of the summarizer stage and of the mappings, for a
    fetch result [f], a summary [s] and a score value [sc]. *)
Definition summarizer_output (s : jsstring) : value :=
  VObj [(lit "text", VStr s)].

Definition critique_input (s : jsstring) (f : FetchStepOutput) : value :=
  VObj [(lit "text", VStr s); (lit "title", VStr (title f));
        (lit "url", VStr (url f))].

Definition save_input (sc : value) (s : jsstring) (f : FetchStepOutput) : value :=
  VObj [(lit "score", sc); (lit "summary", VStr s);
        (lit "title", VStr (title f)); (lit "url", VStr (url f))].

(** Where the save step writes: the path for a title at a time, and
    its directory. *)
Definition summary_path (title : jsstring) (t : N) : jsstring :=
  path_join (lit "./workspace/summaries")
    (slug_of title ++ lit "-" ++ number_to_string (number_of_Z (Z.of_N t))
       ++ lit ".md").

Definition summary_dir (title : jsstring) (t : N) : jsstring :=
  path_dirname (summary_path title t).

(** The run after each of its stages: [f] is the fetch result, [s] the
    summary, [c] the critique, [o] the save result. *)
Definition after_fetch (f : FetchStepOutput) : Progress :=
  {| prev := "fetch-page"; cur := encode_FetchStepOutput f;
     log := [("fetch-page"%string, encode_FetchStepOutput f)];
     inv := ["fetch-page"%string] |}.

Definition after_summarize (f : FetchStepOutput) (s : jsstring) : Progress :=
  {| prev := "summarizer"; cur := summarizer_output s;
     log := log (after_fetch f) ++ [("summarizer"%string, summarizer_output s)];
     inv := inv (after_fetch f) ++ ["summarizer"%string] |}.

Definition after_critique (f : FetchStepOutput) (s : jsstring) (c : value)
  : Progress :=
  {| prev := "critique"; cur := c;
     log := log (after_summarize f s) ++ [("critique"%string, c)];
     inv := inv (after_summarize f s) ++ ["critique"%string] |}.

Definition after_save (f : FetchStepOutput) (s : jsstring) (c : value)
  (o : SaveOutput) : Progress :=
  {| prev := "conditional-save"; cur := encode_SaveOutput o;
     log := log (after_critique f s c)
              ++ [("conditional-save"%string, encode_SaveOutput o)];
     inv := inv (after_critique f s c) ++ ["conditional-save"%string] |}.

(** The input records that the stages receive in such a run. *)
Definition critique_record (f : FetchStepOutput) (s : jsstring) : CritiqueInput :=
  {| cr_text := s; cr_title := title f; cr_url := url f |}.

Definition save_record (f : FetchStepOutput) (s : jsstring) (n : number)
  : SaveInput :=
  {| score := n; summary := s; sv_title := title f; sv_url := url f |}.

(** The validated input of the first stage. *)
Definition fetch_input (env : Env) (input : value) : option FetchInput :=
  zod_parse (url_ok env) url_schema input ≫= decode_FetchInput.

(** A test double of the collaborators: the network serves one page
    (or refuses with status 404), the summarizer writes one summary, the
    critic replies with a given text, the disk accepts every write. *)
Definition example_url : jsstring := lit "https://example.com".

Definition example_html : jsstring :=
  lit "<html><head><title> Example </title><style>p{}</style></head><body><p>Hello   world</p><script>var a;</script></body></html>".

Definition example_env (page_ok : bool) (critic_reply : jsstring) : Env :=
  {| url_ok := fun _ => true;
     net_fetch := fun _ _ =>
       Ok {| res_ok := page_ok; res_status := if page_ok then 200 else 404;
             res_text := Ok example_html |};
     llm_generate := fun _ agent _ =>
       if String.eqb agent "critic" then Ok critic_reply else Ok (lit "A summary.");
     disk_mkdir := fun _ _ => Ok tt;
     disk_writeFile := fun _ _ _ => Ok tt |}.

Definition example_world : World :=
  {| now := 1772032983320; files := ∅; trace := [] |}.

(** The reply of a critic that follows its instructions, for a score
    written as [score_text]. *)
Definition judgment (score_text : string) : jsstring :=
  lit "{" ++ DQUOTE ++ lit "score" ++ DQUOTE ++ lit ": " ++ lit score_text
    ++ lit ", " ++ DQUOTE ++ lit "issues" ++ DQUOTE ++ lit ": [], "
    ++ DQUOTE ++ lit "suggestion" ++ DQUOTE ++ lit ": " ++ DQUOTE ++ DQUOTE
    ++ lit "}".

(** A judgment whose score is a number between 0 and 10. *)
Definition score_in_range (v : value) : Prop :=
  exists n, get_prop v "score" = Ok (VNum n)
            /\ num_le (number_of_Z 0) n = true
            /\ num_le n (number_of_Z 10) = true.

(** A mapping whose result depends on its input data and on the run
    context only, and that leaves the world as it found it. *)
Definition deterministic (f : Mapping) : Prop :=
  forall inputData ctx env1 w1 env2 w2,
    fst (f inputData ctx env1 w1) = fst (f inputData ctx env2 w2)
    /\ snd (f inputData ctx env1 w1) = w1.

(** A page of 8001 words, and a network that serves it. *)
Definition long_page : jsstring :=
  lit "<p>" ++ join [32] (repeat (lit "word") 8001) ++ lit "</p>".

Definition long_page_env : Env :=
  {| url_ok := fun _ => true;
     net_fetch := fun _ _ =>
       Ok {| res_ok := true; res_status := 200; res_text := Ok long_page |};
     llm_generate := fun _ _ _ => Ok [];
     disk_mkdir := fun _ _ => Ok tt;
     disk_writeFile := fun _ _ _ => Ok tt |}.

(** A reader that does not run out of fuel on texts of length at most
    [n], and leaves no more than it was given. *)
Definition reads_within (n : nat) (pv : jsstring -> parsed) : Prop :=
  forall t, (length t <= n)%nat ->
    pv t <> OutOfFuel
    /\ forall v rest, pv t = Parsed v rest -> (length rest <= length t)%nat.

(** What [fetchStep] returns for a page, given its url. *)
Definition fetched (html u : jsstring) : FetchStepOutput :=
  {| content := truncate_words (page_text html);
     title := page_title html u;
     wordCount := word_count (page_text html);
     url := u |}.

(* ================================================================== *)
(** * The save-summary tool *)
(* ================================================================== *)

(** The [execute] of [saveSummaryTool] ([src/unnamed/part_001], the
    tool that the summarizer agent is given): the file of a summary,
    named after its title and the time, under [workspace/summaries].
    The result is the [filePath] of [{ filePath }]. *)
Definition saveSummaryTool_execute (title url summary : jsstring) : M jsstring :=
  (let slug := slug_of title in
   let* t := Date_now in
   let fileName :=
     slug ++ lit "-" ++ number_to_string (number_of_Z (Z.of_N t)) ++ lit ".md" in
   let filePath := path_join (lit "./workspace/summaries") fileName in
   fs_mkdir (path_dirname filePath) ;;;
   let content :=
     lit "# " ++ title ++ LF ++ LF ++ lit "> Source: " ++ url ++ LF ++ LF
       ++ summary ++ LF in
   fs_writeFile filePath content ;;;
   ret filePath)%js.

(* ================================================================== *)
(** * Numbers of the evaluators *)
(* ================================================================== *)

Definition num_sub (a b : number) : number := SFsub 53 1024 a b.
Definition num_div (a b : number) : number := SFdiv 53 1024 a b.

(** [a === b] on two numbers. *)
Definition num_eq (a b : number) : bool := SFeqb a b.

(** [Math.max(a, b)]: [NaN] if either is; [+0] is above [-0]. *)
Definition Math_max (a b : number) : number :=
  if is_nan a || is_nan b then S754_nan
  else
    match a, b with
    | S754_zero true, S754_zero false => b
    | _, _ => if num_lt a b then b else a
    end.

(** ** [Number.prototype.toFixed]

    The integer [n] for which [n / 10^f] is nearest to [m * 2^e], the
    larger one of two. *)
Definition nearest_scaled (m : positive) (e : Z) (f : nat) : Z :=
  let scaled := (Zpos m * 10 ^ Z.of_nat f)%Z in
  if (0 <=? e)%Z then (scaled * 2 ^ e)%Z
  else (2 * scaled + 2 ^ (- e)) / (2 * 2 ^ (- e)).

(** The digits of [n] with a point before the last [f] of them, zeros
    added in front where there are too few. *)
Definition fixed_layout (n : Z) (f : nat) : jsstring :=
  let m := decimal (Z.to_N n) in
  match f with
  | O => m
  | _ =>
      let m := if (length m <=? f)%nat
               then repeat 48 (f + 1 - length m)%nat ++ m else m in
      let k := length m in
      take (k - f)%nat m ++ lit "." ++ drop (k - f)%nat m
  end.

(** Whether [m * 2^e] is at least [10^21]. *)
Definition at_least_1e21 (m : positive) (e : Z) : bool :=
  if (0 <=? e)%Z then (10 ^ 21 <=? Zpos m * 2 ^ e)%Z
  else (10 ^ 21 * 2 ^ (- e) <=? Zpos m)%Z.

(** [x.toFixed(f)], for [f] from 0 to 100. *)
Definition toFixed (x : number) (f : nat) : jsstring :=
  match x with
  | S754_nan | S754_infinity _ => number_to_string x
  | S754_zero _ => fixed_layout 0 f
  | S754_finite neg m e =>
      if at_least_1e21 m e then number_to_string x
      else (if neg then lit "-" else []) ++ fixed_layout (nearest_scaled m e f) f
  end.

(** ** [Number(string)]

    The text is read without the white space around it: nothing is 0;
    [0x], [0o] and [0b] introduce a hexadecimal, octal or binary integer;
    otherwise the text is an optionally signed [Infinity] or decimal
    literal, the latter with digits before or after its point and an
    optional exponent.  Everything else is [NaN]. *)
Definition radix_digit (radix : N) (c : char16) : option N :=
  match hex_digit c with
  | Some d => if d <? radix then Some d else None
  | None => None
  end.

Fixpoint radix_value (radix : N) (acc : N) (ds : jsstring) : option N :=
  match ds with
  | [] => Some acc
  | c :: ds' =>
      match radix_digit radix c with
      | Some d => radix_value radix (acc * radix + d) ds'
      | None => None
      end
  end.

Definition non_decimal_literal (t : jsstring) : option N :=
  match t with
  | 48 :: p :: ((_ :: _) as ds) =>
      if (p =? 120) || (p =? 88) then radix_value 16 0 ds
      else if (p =? 111) || (p =? 79) then radix_value 8 0 ds
      else if (p =? 98) || (p =? 66) then radix_value 2 0 ds
      else None
  | _ => None
  end.

(** [DecimalDigits . DecimalDigits? Exp?], [. DecimalDigits Exp?] or
    [DecimalDigits Exp?], up to the end of the text: the digits as an
    integer and the power of ten that scales them. *)
Definition unsigned_decimal (t : jsstring) : option (N * Z) :=
  let '(int_ds, r1) := span is_digit t in
  let '(point, r2) := opt_char 46 r1 in
  let '(frac_ds, r3) := if point then span is_digit r2 else ([], r2) in
  if is_nil int_ds && is_nil frac_ds then None
  else
    match parse_exponent r3 with
    | Some (e, []) =>
        Some (digits_value (int_ds ++ frac_ds), (e - Z.of_nat (length frac_ds))%Z)
    | _ => None
    end.

Definition StringToNumber (s : jsstring) : number :=
  match trim s with
  | [] => S754_zero false
  | t =>
      match non_decimal_literal t with
      | Some n => number_of_Z (Z.of_N n)
      | None =>
          let '(neg, r) :=
            match opt_char 45 t with
            | (true, r) => (true, r)
            | (false, _) => (false, snd (opt_char 43 t))
            end in
          if jsstring_eqb r (lit "Infinity") then S754_infinity neg
          else
            match unsigned_decimal r with
            | Some (m, e) => number_of_decimal neg m e
            | None => S754_nan
            end
      end
  end.

(** [Number(v)] for an argument that is a string or [undefined]. *)
Definition Number_of (v : option jsstring) : number :=
  match v with
  | Some s => StringToNumber s
  | None => S754_nan
  end.

(* ================================================================== *)
(** * The summary evaluators *)
(* ================================================================== *)

(** [src/src/mastra/evals/summaryEval.ts] *)

(** [/[^a-z0-9\s]/g] *)
Definition re_not_token (s : jsstring) : option nat :=
  match s with
  | c :: _ => if not_alnum c && negb (is_space c) then Some 1%nat else None
  | [] => None
  end.

(** [Boolean(s)] for a string: only the empty string is falsy. *)
Definition truthy (s : jsstring) : bool := negb (is_nil s).

(** [tokenize]: lower case, everything but letters, digits and white
    space blanked, split at white space, empty pieces dropped. *)
Definition tokenize (text : jsstring) : list jsstring :=
  List.filter truthy
    (split_ws (replace_all re_not_token (lit " ") (toLowerCase text))).

(** [tokens.has(token)], [banned.includes(token)] *)
Definition includes (l : list jsstring) (token : jsstring) : bool :=
  existsb (jsstring_eqb token) l.

Definition banned : list jsstring :=
  [lit "hate"; lit "kill"; lit "idiot"; lit "stupid"].

Record SummaryEvalResult := {
  metric : string;
  eval_score : number;
  reason : jsstring;
}.

(** [wordCount <= 150 ? 1 : Math.max(0, 1 - (wordCount - 150) / 300)] *)
Definition concisenessScore (wordCount : number) : number :=
  if num_le wordCount (number_of_Z 150) then number_of_Z 1
  else Math_max (number_of_Z 0)
         (num_sub (number_of_Z 1)
            (num_div (num_sub wordCount (number_of_Z 150)) (number_of_Z 300))).

(** [summaryTokens.length === 0 ? 0 : overlapCount / summaryTokens.length] *)
Definition coverageScore (overlapCount tokenCount : number) : number :=
  if num_eq tokenCount (number_of_Z 0) then number_of_Z 0
  else num_div overlapCount tokenCount.

(** [toxicHits === 0 ? 1 : Math.max(0, 1 - toxicHits / 5)] *)
Definition toxicityScore (toxicHits : number) : number :=
  if num_eq toxicHits (number_of_Z 0) then number_of_Z 1
  else Math_max (number_of_Z 0)
         (num_sub (number_of_Z 1) (num_div toxicHits (number_of_Z 5))).

(** [Number(x.toFixed(2))] *)
Definition rounded2 (x : number) : number := StringToNumber (toFixed x 2).

(** The three results of [runEvals], in the order of the source. *)
Definition eval_results (sourceText summary : jsstring) : list SummaryEvalResult :=
  let sourceTokens := tokenize sourceText in
  let summaryTokens := tokenize summary in
  let wordCount := number_of_nat (length summaryTokens) in
  let overlapCount :=
    number_of_nat (length (List.filter (includes sourceTokens) summaryTokens)) in
  let toxicHits :=
    number_of_nat (length (List.filter (includes banned) summaryTokens)) in
  [ {| metric := "conciseness";
       eval_score := rounded2 (concisenessScore wordCount);
       reason := lit "Summary length is " ++ number_to_string wordCount
                   ++ lit " words (target: <= 150)." |};
    {| metric := "coverage";
       eval_score := rounded2 (coverageScore overlapCount wordCount);
       reason := lit "Approximate lexical overlap between source and summary." |};
    {| metric := "toxicity";
       eval_score := rounded2 (toxicityScore toxicHits);
       reason := if num_eq toxicHits (number_of_Z 0)
                 then lit "No blocked terms detected."
                 else lit "Detected " ++ number_to_string toxicHits
                        ++ lit " blocked term(s)." |} ].

(* ================================================================== *)
(** * The process of the evaluation command *)
(* ================================================================== *)

(** What the command-line tool has besides the collaborators of the
    workflow: its arguments, its working directory and the files it may
    read. *)
Record Host := {
  host_env : Env;
  process_argv : list jsstring;                            (* process.argv *)
  process_cwd : jsstring;                                  (* process.cwd() *)
  disk_readFile : World -> jsstring -> Result jsstring;    (* fs.readFile, utf-8 *)
}.

(** The state of the process: the world of the workflow and the lines
    written so far to the two consoles (oldest first). *)
Record Process := {
  world : World;
  stdout : list jsstring;
  stderr : list jsstring;
}.

(** How a computation of the command ends: it returns, it throws, or
    the process exits with a code. *)
Inductive Completion (A : Type) :=
| Returned (a : A)
| Thrown (e : exn)
| Exited (code : N).
Arguments Returned {A} a.
Arguments Thrown {A} e.
Arguments Exited {A} code.

Definition IO (A : Type) : Type := Host -> Process -> Completion A * Process.

Definition io_ret {A} (a : A) : IO A := fun _ p => (Returned a, p).
Definition io_throw {A} (e : exn) : IO A := fun _ p => (Thrown e, p).
Definition io_bind {A B} (m : IO A) (k : A -> IO B) : IO B :=
  fun h p =>
    match m h p with
    | (Returned a, p') => k a h p'
    | (Thrown e, p') => (Thrown e, p')
    | (Exited c, p') => (Exited c, p')
    end.

Declare Scope io_scope.
Delimit Scope io_scope with io.
Notation "'let*' x ':=' m 'in' k" := (io_bind m (fun x => k))
  (at level 10, x name, m at level 100, k at level 200) : io_scope.
Notation "m ';;;' k" := (io_bind m (fun _ => k))
  (at level 100, k at level 200, right associativity) : io_scope.

(** An awaited computation of the workflow's kind, run by the process. *)
Definition await {A} (m : M A) : IO A :=
  fun h p =>
    let '(r, w) := m (host_env h) (world p) in
    let p' := {| world := w; stdout := stdout p; stderr := stderr p |} in
    match r with
    | Ok a => (Returned a, p')
    | Err e => (Thrown e, p')
    end.

(** [console.log(line)], [console.error(line)] *)
Definition console_log (line : jsstring) : IO unit :=
  fun _ p =>
    (Returned tt,
     {| world := world p; stdout := stdout p ++ [line]; stderr := stderr p |}).

Definition console_error (line : jsstring) : IO unit :=
  fun _ p =>
    (Returned tt,
     {| world := world p; stdout := stdout p; stderr := stderr p ++ [line] |}).

(** [process.exit(code)] *)
Definition process_exit {A} (code : N) : IO A := fun _ p => (Exited code, p).

(** [await fs.readFile(path, 'utf-8')] *)
Definition fs_readFile (path : jsstring) : IO jsstring :=
  fun h p =>
    match disk_readFile h (world p) path with
    | Ok text => (Returned text, p)
    | Err e => (Thrown e, p)
    end.

(** One after the other, for the loops over results. *)
Fixpoint io_for_each {A} (f : A -> IO unit) (l : list A) : IO unit :=
  match l with
  | [] => io_ret tt
  | x :: l' => (f x ;;; io_for_each f l')%io
  end.

(** The separator that the source file holds in the logged line. *)
Definition log_dash : jsstring := [226; 8364; 8221].

(** [runEvals(sourceText, summary, { silent })]: the three results,
    each logged unless [silent]. *)
Definition runEvals (sourceText summary : jsstring) (silent : bool)
  : IO (list SummaryEvalResult) :=
  (let results := eval_results sourceText summary in
   (if negb silent then
      io_for_each
        (fun r =>
           console_log (lit "[" ++ lit (metric r) ++ lit "] Score: "
                          ++ number_to_string (eval_score r) ++ lit " "
                          ++ log_dash ++ lit " " ++ reason r))
        results
    else io_ret tt) ;;;
   io_ret results)%io.

(* ================================================================== *)
(** * The evaluation command *)
(* ================================================================== *)

(** [runSummaryEval.ts], which follows [summaryEval.ts] in
    [src/src/mastra/evals/summaryEval.ts]. *)

Record CliOptions := {
  opt_url : option jsstring;
  opt_source : option jsstring;
  opt_sourceFile : option jsstring;
  opt_summary : option jsstring;
  opt_summaryFile : option jsstring;
  opt_maxWords : number;
  opt_skipAgent : bool;
  opt_json : bool;
  opt_compact : bool;
}.

(** [{ maxWords: 150, skipAgent: false, json: false, compact: false }] *)
Definition initial_options : CliOptions :=
  {| opt_url := None; opt_source := None; opt_sourceFile := None;
     opt_summary := None; opt_summaryFile := None;
     opt_maxWords := number_of_Z 150;
     opt_skipAgent := false; opt_json := false; opt_compact := false |}.

Definition set_url (v : option jsstring) (o : CliOptions) : CliOptions :=
  {| opt_url := v; opt_source := opt_source o; opt_sourceFile := opt_sourceFile o;
     opt_summary := opt_summary o; opt_summaryFile := opt_summaryFile o;
     opt_maxWords := opt_maxWords o; opt_skipAgent := opt_skipAgent o;
     opt_json := opt_json o; opt_compact := opt_compact o |}.

Definition set_source (v : option jsstring) (o : CliOptions) : CliOptions :=
  {| opt_url := opt_url o; opt_source := v; opt_sourceFile := opt_sourceFile o;
     opt_summary := opt_summary o; opt_summaryFile := opt_summaryFile o;
     opt_maxWords := opt_maxWords o; opt_skipAgent := opt_skipAgent o;
     opt_json := opt_json o; opt_compact := opt_compact o |}.

Definition set_sourceFile (v : option jsstring) (o : CliOptions) : CliOptions :=
  {| opt_url := opt_url o; opt_source := opt_source o; opt_sourceFile := v;
     opt_summary := opt_summary o; opt_summaryFile := opt_summaryFile o;
     opt_maxWords := opt_maxWords o; opt_skipAgent := opt_skipAgent o;
     opt_json := opt_json o; opt_compact := opt_compact o |}.

Definition set_summary (v : option jsstring) (o : CliOptions) : CliOptions :=
  {| opt_url := opt_url o; opt_source := opt_source o;
     opt_sourceFile := opt_sourceFile o;
     opt_summary := v; opt_summaryFile := opt_summaryFile o;
     opt_maxWords := opt_maxWords o; opt_skipAgent := opt_skipAgent o;
     opt_json := opt_json o; opt_compact := opt_compact o |}.

Definition set_summaryFile (v : option jsstring) (o : CliOptions) : CliOptions :=
  {| opt_url := opt_url o; opt_source := opt_source o;
     opt_sourceFile := opt_sourceFile o;
     opt_summary := opt_summary o; opt_summaryFile := v;
     opt_maxWords := opt_maxWords o; opt_skipAgent := opt_skipAgent o;
     opt_json := opt_json o; opt_compact := opt_compact o |}.

Definition set_maxWords (v : number) (o : CliOptions) : CliOptions :=
  {| opt_url := opt_url o; opt_source := opt_source o;
     opt_sourceFile := opt_sourceFile o;
     opt_summary := opt_summary o; opt_summaryFile := opt_summaryFile o;
     opt_maxWords := v; opt_skipAgent := opt_skipAgent o;
     opt_json := opt_json o; opt_compact := opt_compact o |}.

Definition set_skipAgent (o : CliOptions) : CliOptions :=
  {| opt_url := opt_url o; opt_source := opt_source o;
     opt_sourceFile := opt_sourceFile o;
     opt_summary := opt_summary o; opt_summaryFile := opt_summaryFile o;
     opt_maxWords := opt_maxWords o; opt_skipAgent := true;
     opt_json := opt_json o; opt_compact := opt_compact o |}.

Definition set_json (o : CliOptions) : CliOptions :=
  {| opt_url := opt_url o; opt_source := opt_source o;
     opt_sourceFile := opt_sourceFile o;
     opt_summary := opt_summary o; opt_summaryFile := opt_summaryFile o;
     opt_maxWords := opt_maxWords o; opt_skipAgent := opt_skipAgent o;
     opt_json := true; opt_compact := opt_compact o |}.

Definition set_compact (o : CliOptions) : CliOptions :=
  {| opt_url := opt_url o; opt_source := opt_source o;
     opt_sourceFile := opt_sourceFile o;
     opt_summary := opt_summary o; opt_summaryFile := opt_summaryFile o;
     opt_maxWords := opt_maxWords o; opt_skipAgent := opt_skipAgent o;
     opt_json := opt_json o; opt_compact := true |}.

(** The text that [printHelp] logs. *)
Definition help_text : jsstring :=
  LF ++ lit "Summary Eval CLI" ++ LF
  ++ LF
  ++ lit "Usage:" ++ LF
  ++ lit "  npx -y node@23 --env-file=../.env mastra/evals/runSummaryEval.ts [options]" ++ LF
  ++ LF
  ++ lit "Options:" ++ LF
  ++ lit "  --url <https-url>         Fetch source content from a URL" ++ LF
  ++ lit "  --source <text>           Source text to evaluate against" ++ LF
  ++ lit "  --source-file <path>      Load source text from a file" ++ LF
  ++ lit "  --summary <text>          Summary text to evaluate" ++ LF
  ++ lit "  --summary-file <path>     Load summary text from a file" ++ LF
  ++ lit "  --max-words <number>      Word limit for agent-generated summary (default: 150)" ++ LF
  ++ lit "  --skip-agent              Do not generate summary with the agent" ++ LF
  ++ lit "  --json                    Print JSON result" ++ LF
  ++ lit "  --compact                 Emit compact one-line JSON (use with --json)" ++ LF
  ++ lit "  --help                    Show this help" ++ LF
  ++ LF
  ++ lit "Examples:" ++ LF
  ++ lit "  npx -y node@23 --env-file=../.env mastra/evals/runSummaryEval.ts --url https://mastra.ai/" ++ LF
  ++ lit "  npx -y node@23 --env-file=../.env mastra/evals/runSummaryEval.ts --source-file ./article.txt --summary-file ./summary.txt" ++ LF
  ++ lit "  npx -y node@23 --env-file=../.env mastra/evals/runSummaryEval.ts --url https://mastra.ai/ --json --compact" ++ LF.

Definition printHelp : IO unit := console_log help_text.

Definition max_words_error : exn :=
  Exn "Error" (lit "--max-words must be a positive number").

Definition unknown_argument (arg : jsstring) : exn :=
  Exn "Error" (lit "Unknown argument: " ++ arg).

(** One turn of the loop of [parseArgs], for the argument [arg] at
    index [i] and the argument [next] after it ([undefined] past the
    end): the [switch].  [continue] is the rest of the loop from a given
    index; an argument with a value moves the index by two. *)
Definition parseArgs_turn (continue : nat -> CliOptions -> IO CliOptions)
  (arg : jsstring) (next : option jsstring) (i : nat) (options : CliOptions)
  : IO CliOptions :=
  if jsstring_eqb arg (lit "--") then continue (i + 1)%nat options
  else if jsstring_eqb arg (lit "--url") then
    continue (i + 2)%nat (set_url next options)
  else if jsstring_eqb arg (lit "--source") then
    continue (i + 2)%nat (set_source next options)
  else if jsstring_eqb arg (lit "--source-file") then
    continue (i + 2)%nat (set_sourceFile next options)
  else if jsstring_eqb arg (lit "--summary") then
    continue (i + 2)%nat (set_summary next options)
  else if jsstring_eqb arg (lit "--summary-file") then
    continue (i + 2)%nat (set_summaryFile next options)
  else if jsstring_eqb arg (lit "--max-words") then
    let parsed := Number_of next in
    if negb (is_finite parsed) || num_le parsed (number_of_Z 0)
    then io_throw max_words_error
    else continue (i + 2)%nat (set_maxWords parsed options)
  else if jsstring_eqb arg (lit "--skip-agent") then
    continue (i + 1)%nat (set_skipAgent options)
  else if jsstring_eqb arg (lit "--json") then
    continue (i + 1)%nat (set_json options)
  else if jsstring_eqb arg (lit "--compact") then
    continue (i + 1)%nat (set_compact options)
  else if jsstring_eqb arg (lit "--help") || jsstring_eqb arg (lit "-h") then
    (printHelp ;;; process_exit 0)%io
  else io_throw (unknown_argument arg).

(** The loop of [parseArgs], [for (let i = 0; i < argv.length; i += 1)].
    Every turn moves [i] forward, so [fuel] turns suffice when [fuel] is
    the number of arguments. *)
Fixpoint parseArgs_loop (fuel : nat) (argv : list jsstring) (i : nat)
  (options : CliOptions) : IO CliOptions :=
  match fuel with
  | O => io_ret options
  | S fuel' =>
      match argv !! i with
      | None => io_ret options
      | Some arg =>
          parseArgs_turn (parseArgs_loop fuel' argv) arg (argv !! (i + 1)%nat)
            i options
      end
  end.

Definition parseArgs (argv : list jsstring) : IO CliOptions :=
  parseArgs_loop (length argv) argv 0 initial_options.

(** [path.resolve(a, b)], the working directory being [cwd]: the
    paths are taken from the right until one is absolute, the working
    directory last; the result is normalised. *)
Definition path_resolve (cwd a b : jsstring) : jsstring :=
  let step (acc : jsstring * bool) (p : jsstring) : jsstring * bool :=
    if snd acc then acc
    else match p with
         | [] => acc
         | c :: _ => (p ++ lit "/" ++ fst acc, is_slash c)
         end in
  let '(resolvedPath, resolvedAbsolute) := step (step (step ([], false) b) a) cwd in
  let normalized :=
    join (lit "/")
      (normalize_segments (negb resolvedAbsolute) [] (segments [] resolvedPath)) in
  if resolvedAbsolute then lit "/" ++ normalized
  else match normalized with [] => lit "." | _ => normalized end.

(** [!s] for a string or [undefined]. *)
Definition falsy (s : option jsstring) : bool :=
  match s with
  | None | Some [] => true
  | Some _ => false
  end.

(** [a ?? b] on strings that may be [undefined]. *)
Definition or_else (a b : option jsstring) : option jsstring :=
  match a with
  | Some _ => a
  | None => b
  end.

Definition readOptionalFile (filePath : option jsstring) : IO (option jsstring) :=
  match filePath with
  | None | Some [] => io_ret None
  | Some p =>
      fun h =>
        (let resolvedPath := path_resolve (process_cwd h) (process_cwd h) p in
         let* text := fs_readFile resolvedPath in
         io_ret (Some text))%io h
  end.

(** ** [JSON.stringify(value, null, gap)]

    [indent] is the indentation of the line that the value starts on. *)
Fixpoint stringify_gap (gap indent : jsstring) (v : value) : option jsstring :=
  let inner := indent ++ gap in
  let layout (opening closing : jsstring) (parts : list jsstring) : jsstring :=
    match parts with
    | [] => opening ++ closing
    | _ =>
        if is_nil gap then opening ++ join (lit ",") parts ++ closing
        else opening ++ LF ++ inner ++ join (lit "," ++ LF ++ inner) parts
               ++ LF ++ indent ++ closing
    end in
  match v with
  | VUndefined => None
  | VNull => Some (lit "null")
  | VBool true => Some (lit "true")
  | VBool false => Some (lit "false")
  | VNum n => Some (if is_finite n then number_to_string n else lit "null")
  | VStr s => Some (quote_json s)
  | VArr items =>
      Some (layout (lit "[") (lit "]")
              (List.map (fun x => match stringify_gap gap inner x with
                                  | Some t => t
                                  | None => lit "null"
                                  end) items))
  | VObj props =>
      let printed :=
        List.map (fun kv => (fst kv, stringify_gap gap inner (snd kv))) props in
      Some (layout (lit "{") (lit "}")
              (omap (fun kt =>
                       match snd kt with
                       | Some t =>
                           Some (quote_json (fst kt) ++ lit ":"
                                   ++ (if is_nil gap then [] else lit " ") ++ t)
                       | None => None
                       end) (own_property_order printed)))
  end.

(** ** [main] *)

Definition no_source_error : exn :=
  Exn "Error" (lit "Provide source text using --url, --source, or --source-file").

Definition no_summary_error : exn :=
  Exn "Error"
    (lit "No summary available. Provide --summary/--summary-file or omit --skip-agent.").

Definition optional_string (s : option jsstring) : value :=
  match s with
  | Some x => VStr x
  | None => VUndefined
  end.

Definition encode_SummaryEvalResult (r : SummaryEvalResult) : value :=
  VObj [(lit "metric", VStr (lit (metric r)));
        (lit "score", VNum (eval_score r));
        (lit "reason", VStr (reason r))].

(** [{ title, url: options.url, summary: summaryText, evals: evalResults }]
    for a title that may be [undefined], and for one that is a string. *)
Definition payload (title url : option jsstring)
  (summaryText : jsstring) (evalResults : list SummaryEvalResult) : value :=
  VObj [(lit "title", optional_string title);
        (lit "url", optional_string url);
        (lit "summary", VStr summaryText);
        (lit "evals", VArr (List.map encode_SummaryEvalResult evalResults))].

Definition payload_of (title : jsstring) (url : option jsstring)
  (summaryText : jsstring) (evalResults : list SummaryEvalResult) : value :=
  VObj [(lit "title", VStr title);
        (lit "url", optional_string url);
        (lit "summary", VStr summaryText);
        (lit "evals", VArr (List.map encode_SummaryEvalResult evalResults))].

(** The prompt for the agent when no summary is given. *)
Definition agent_prompt (options : CliOptions) (sourceText : jsstring) : jsstring :=
  if falsy (opt_url options) then
    lit "Summarize the following content in bullet points under "
      ++ number_to_string (opt_maxWords options) ++ lit " words:" ++ LF ++ LF
      ++ sourceText
  else
    lit "Summarize " ++ default [] (opt_url options)
      ++ lit " in bullet points under "
      ++ number_to_string (opt_maxWords options) ++ lit " words.".

(** What [console.log] prints for the result of [JSON.stringify]. *)
Definition json_line (t : option jsstring) : jsstring :=
  match t with
  | Some s => s
  | None => lit "undefined"
  end.

Definition exn_message (e : exn) : jsstring :=
  match e with Exn _ message => message end.

(** ** The fetch-page tool as the command calls it

    [createTool] of the tool library ([@mastra/core/tools]) is not part
    of the sources.  The [execute] of the tool that it returns is not
    the function it was given: it checks its argument against the
    [inputSchema] first.  An argument that the schema accepts goes to
    the function, whose result or exception is that of the call.  An
    argument that the schema refuses is answered without a call of the
    function and without an exception, by an error object
    ([{ error: true, message, validationErrors }]); of this object the
    command reads [content] and [title], which it does not have. *)
Inductive ToolOutput (A : Type) :=
| ToolData (data : A)
| ToolValidationError.
Arguments ToolData {A} data.
Arguments ToolValidationError {A}.

Definition createTool {I A : Type} (accepts : Env -> I -> bool)
  (execute : I -> M A) : I -> M (ToolOutput A) :=
  fun input env w =>
    if accepts env input then
      match execute input env w with
      | (Ok data, w') => (Ok (ToolData data), w')
      | (Err e, w') => (Err e, w')
      end
    else (Ok ToolValidationError, w).

(** [fetchPageTool.execute], with [inputSchema]
    [z.object({ url: z.string().url() })]. *)
Definition fetchPageTool : jsstring -> M (ToolOutput FetchPageResult) :=
  createTool url_ok fetchPageTool_execute.

(** [fetched.content], [fetched.title] *)
Definition fetched_content (fetched : ToolOutput FetchPageResult)
  : option jsstring :=
  match fetched with
  | ToolData data => Some (tool_content data)
  | ToolValidationError => None
  end.

Definition fetched_title (fetched : ToolOutput FetchPageResult)
  : option jsstring :=
  match fetched with
  | ToolData data => Some (tool_title data)
  | ToolValidationError => None
  end.

(** A string or [undefined] in a template literal. *)
Definition template (v : option jsstring) : jsstring :=
  match v with
  | Some s => s
  | None => lit "undefined"
  end.

(** [main] of the command.  ([config()] of dotenv, called when the
    module is loaded, sets environment variables that none of this code
    reads.) *)
Definition main : IO unit :=
  fun h =>
    (let* options := parseArgs (drop 2 (process_argv h)) in
     let* sourceFromFile := readOptionalFile (opt_sourceFile options) in
     let* summaryFromFile := readOptionalFile (opt_summaryFile options) in
     let title := Some (lit "Custom Source") in
     let sourceText := or_else (opt_source options) sourceFromFile in
     let* fetched_state :=
       (if falsy (opt_url options) then io_ret (title, sourceText)
        else
          let* fetched :=
            await (fetchPageTool (default [] (opt_url options))) in
          io_ret (fetched_title fetched,
                  or_else sourceText (fetched_content fetched))) in
     let title := fst fetched_state in
     let sourceText := snd fetched_state in
     if falsy sourceText then io_throw no_source_error
     else
       let sourceText := default [] sourceText in
       let summaryText := or_else (opt_summary options) summaryFromFile in
       let* summaryText :=
         (if falsy summaryText && negb (opt_skipAgent options) then
            let prompt := agent_prompt options sourceText in
            let* text := await (agent_generate summarizerAgent prompt) in
            io_ret (Some text)
          else io_ret summaryText) in
       if falsy summaryText then io_throw no_summary_error
       else
         let summaryText := default [] summaryText in
         let* evalResults := runEvals sourceText summaryText (opt_json options) in
         let payload :=
           payload title (opt_url options) summaryText evalResults in
         if opt_json options then
           console_log
             (json_line (if opt_compact options then stringify payload
                         else stringify_gap (lit "  ") [] payload))
         else
           console_log (LF ++ lit "=== Summary Eval Report ===") ;;;
           console_log (lit "Title: " ++ template title) ;;;
           (if falsy (opt_url options) then io_ret tt
            else console_log (lit "URL: " ++ default [] (opt_url options))) ;;;
           console_log (LF ++ lit "Summary:" ++ LF) ;;;
           console_log summaryText ;;;
           console_log (LF ++ lit "Scores:" ++ LF) ;;;
           io_for_each
             (fun result =>
                console_log (lit "- " ++ lit (metric result) ++ lit ": "
                               ++ number_to_string (eval_score result)
                               ++ lit " (" ++ reason result ++ lit ")"))
             evalResults)%io h.

(** [main().catch(...)]: a failure is reported on the error console
    and the process exits with code 1. *)
Definition main_catch : IO unit :=
  fun h p =>
    match main h p with
    | (Thrown error, p') =>
        (console_error (LF ++ lit "Summary eval failed:") ;;;
         console_error (exn_message error) ;;;
         process_exit 1)%io h p'
    | done => done
    end.

(* ================================================================== *)
(** * Vocabulary of the further properties *)
(* ================================================================== *)

(** The characters of a slug: [a-z], [0-9] and the hyphen. *)
Definition slug_char (c : char16) : bool :=
  is_lower_az c || is_digit c || (c =? 45).

(** No two hyphens in a row. *)
Fixpoint hyphens_apart (s : jsstring) : Prop :=
  match s with
  | a :: ((b :: _) as s') => ~ (a = 45 /\ b = 45) /\ hyphens_apart s'
  | _ => True
  end.

(** A letter of [a-z] or a digit. *)
Definition is_alnum (c : char16) : bool := is_lower_az c || is_digit c.

(** What [replace(/[^a-z0-9\s]/g, ' ')] does to one character. *)
Definition blank (c : char16) : char16 :=
  if not_alnum c && negb (is_space c) then 32 else c.

(** The non-empty pieces of a split. *)
Definition words_from (acc : jsstring) (in_sep : bool) (s : jsstring)
  : list jsstring :=
  List.filter truthy (split_scan acc in_sep s).

(** The characters that [Number::toString] writes. *)
Definition number_char (c : char16) : bool :=
  is_digit c || existsb (N.eqb c) (lit "+-.eInfinityNaN").

(** The stem of the file of a summary: its name without [.md]. *)
Definition summary_stem (title : jsstring) (t : N) : jsstring :=
  slug_of title ++ lit "-" ++ number_to_string (number_of_Z (Z.of_N t)).

(** The file that [saveSummaryTool] writes. *)
Definition summary_text (title url summary : jsstring) : jsstring :=
  lit "# " ++ title ++ LF ++ LF ++ lit "> Source: " ++ url ++ LF ++ LF
    ++ summary ++ LF.

(** A text that is empty or starts with a character that is not white
    space. *)
Definition clean_start (t : jsstring) : Prop :=
  match t with
  | [] => True
  | c :: _ => is_space c = false
  end.

(** [t] is [s] with some white space characters left out and others
    replaced by white space characters. *)
Inductive thinned : jsstring -> jsstring -> Prop :=
| thinned_nil : thinned [] []
| thinned_keep c s t : thinned s t -> thinned (c :: s) (c :: t)
| thinned_drop c s t : is_space c = true -> thinned s t -> thinned (c :: s) t
| thinned_swap c d s t :
    is_space c = true -> is_space d = true -> thinned s t ->
    thinned (c :: s) (d :: t).

(** After every [<] of the text comes a [>] at once, or none at all:
    there is nothing between a [<] and a later [>]. *)
Fixpoint tags_closed (s : jsstring) : Prop :=
  match s with
  | [] => True
  | c :: s' =>
      (c = 60 -> (exists s'', s' = 62 :: s'') \/ ~ In 62 s') /\ tags_closed s'
  end.

(** The expression [/<[^>]+>/] matches nowhere in the text. *)
Definition tag_free (s : jsstring) : Prop :=
  forall before rest, s = before ++ rest -> re_tag rest = None.

(** [parseArgs] started from given options. *)
Definition parseArgs_with (options : CliOptions) (argv : list jsstring)
  : IO CliOptions :=
  parseArgs_loop (length argv) argv 0 options.

(** The arguments that [parseArgs] knows. *)
Definition known_arguments : list jsstring :=
  [lit "--"; lit "--url"; lit "--source"; lit "--source-file"; lit "--summary";
   lit "--summary-file"; lit "--max-words"; lit "--skip-agent"; lit "--json";
   lit "--compact"; lit "--help"; lit "-h"].

(** A finite number above zero. *)
Definition positive_finite (x : number) : Prop :=
  is_finite x = true /\ num_lt (number_of_Z 0) x = true.

(** The process after [lines] were logged. *)
Definition logged (lines : list jsstring) (p : Process) : Process :=
  {| world := world p; stdout := stdout p ++ lines; stderr := stderr p |}.

(** The process after [lines] were written to the error console. *)
Definition complained (lines : list jsstring) (p : Process) : Process :=
  {| world := world p; stdout := stdout p; stderr := stderr p ++ lines |}.

(** The process after the world took [events] more. *)
Definition called (events : list event) (p : Process) : Process :=
  {| world := {| now := now (world p); files := files (world p);
                 trace := trace (world p) ++ events |};
     stdout := stdout p; stderr := stderr p |}.

(** The lines that [runEvals] logs for its results. *)
Definition result_lines (results : list SummaryEvalResult) : list jsstring :=
  List.map
    (fun r =>
       lit "[" ++ lit (metric r) ++ lit "] Score: "
         ++ number_to_string (eval_score r) ++ lit " " ++ log_dash ++ lit " "
         ++ reason r)
    results.

(** The lines of the report that [main] prints without [--json]. *)
Definition report_lines (title : jsstring) (url : option jsstring)
  (summaryText : jsstring) (results : list SummaryEvalResult) : list jsstring :=
  [LF ++ lit "=== Summary Eval Report ==="; lit "Title: " ++ title]
  ++ (if falsy url then [] else [lit "URL: " ++ default [] url])
  ++ [LF ++ lit "Summary:" ++ LF; summaryText; LF ++ lit "Scores:" ++ LF]
  ++ List.map
       (fun r =>
          lit "- " ++ lit (metric r) ++ lit ": "
            ++ number_to_string (eval_score r) ++ lit " (" ++ reason r ++ lit ")")
       results.

(** The one line that [main] prints with [--json]. *)
Definition json_report (compact : bool) (title : jsstring) (url : option jsstring)
  (summaryText : jsstring) (results : list SummaryEvalResult) : jsstring :=
  json_line (if compact then stringify (payload_of title url summaryText results)
             else stringify_gap (lit "  ") []
                    (payload_of title url summaryText results)).

(** The lines that report a failure. *)
Definition failure_lines (e : exn) : list jsstring :=
  [LF ++ lit "Summary eval failed:"; exn_message e].

(** The number of a positive integer below [2^53]: its digits moved up
    to 53 digits. *)
Definition int_mantissa (a : positive) : positive :=
  fst (shl_align a 0 (Zpos (digits2_pos a) - 53)%Z).
Definition int_exponent (a : positive) : Z := (Zpos (digits2_pos a) - 53)%Z.

(** [N / 100] as a number. *)
Definition hundredth (N : Z) : number :=
  num_div (number_of_Z N) (number_of_Z 100).

(** The score that the results give for a metric. *)
Definition score_of (name : string) (results : list SummaryEvalResult)
  : option number :=
  eval_score <$> List.find (fun r => String.eqb (metric r) name) results.

(** The tokens of the summary, those of them that the source has, and
    those that are blocked. *)
Definition token_count (summary : jsstring) : nat := length (tokenize summary).
Definition overlap_count (sourceText summary : jsstring) : nat :=
  length (List.filter (includes (tokenize sourceText)) (tokenize summary)).
Definition toxic_hits (summary : jsstring) : nat :=
  length (List.filter (includes banned) (tokenize summary)).

(** A test double of the host of the command: the collaborators of
    [example_env] with a page that is served, the given arguments after
    the two that [node] puts first, and a disk without readable files. *)
Definition example_host (args : list string) : Host :=
  {| host_env := example_env true [];
     process_argv := lit "node" :: lit "runSummaryEval.ts" :: List.map lit args;
     process_cwd := lit "/work";
     disk_readFile := fun _ _ => Err (Exn "Error" (lit "ENOENT")) |}.

Definition example_process : Process :=
  {| world := example_world; stdout := []; stderr := [] |}.

(** What a run of the command that succeeds has printed: the line of
    each result and the report, or with [--json] one line of JSON. *)
Definition printed (o : CliOptions) (title sourceText summaryText : jsstring)
  : list jsstring :=
  let results := eval_results sourceText summaryText in
  if opt_json o
  then [json_report (opt_compact o) title (opt_url o) summaryText results]
  else result_lines results
         ++ report_lines title (opt_url o) summaryText results.

(** The same when the tool has refused the url and the title is
    [undefined]: the report names the title [undefined], the JSON has
    no title. *)
Definition printed_untitled (o : CliOptions) (sourceText summaryText : jsstring)
  : list jsstring :=
  let results := eval_results sourceText summaryText in
  if opt_json o
  then [json_line
          (if opt_compact o
           then stringify (payload None (opt_url o) summaryText results)
           else stringify_gap (lit "  ") []
                  (payload None (opt_url o) summaryText results))]
  else result_lines results
         ++ report_lines (lit "undefined") (opt_url o) summaryText results.

(* ================================================================== *)
(** * The fuel of the JSON reader *)
(* ================================================================== *)

Section JsonReader.

Lemma skip_ws_length (s : jsstring) : (length (skip_ws s) <= length s)%nat.
Proof.
  induction s as [|c s IH]; cbn; [lia|].
  destruct (is_json_ws c); cbn; lia.
Qed.

Lemma span_snd_length p (s a b : jsstring) :
  span p s = (a, b) -> (length b <= length s)%nat.
Proof.
  revert a b. induction s as [|c s IH]; intros a b; cbn.
  - intros [= <- <-]. cbn. lia.
  - destruct (p c).
    + destruct (span p s) as [a' b'] eqn:E. intros [= <- <-].
      specialize (IH _ _ eq_refl). lia.
    + intros [= <- <-]. cbn. lia.
Qed.

Lemma match_prefix_length eqc (pat s r : jsstring) :
  match_prefix eqc pat s = Some r -> (length r <= length s)%nat.
Proof.
  revert s. induction pat as [|p pat IH]; intros s; cbn.
  - intros [= ->]. lia.
  - destruct s as [|c s]; [discriminate|].
    destruct (eqc p c); [|discriminate].
    intros H%IH. cbn. lia.
Qed.

Lemma opt_char_length c (s r : jsstring) (b : bool) :
  opt_char c s = (b, r) ->
  (length r <= length s)%nat /\ (b = true -> (length r < length s)%nat).
Proof.
  unfold opt_char. destruct s as [|x s].
  - intros [= <- <-]. split; [lia | discriminate].
  - destruct (x =? c); intros [= <- <-]; cbn; split; (lia || discriminate).
Qed.

Lemma parse_string_chars_length (s acc k rest : jsstring) :
  parse_string_chars acc s = Some (k, rest) -> (length rest < length s)%nat.
Proof.
  remember (length s) as n eqn:Hn.
  assert (Hle : (length s <= n)%nat) by lia. rewrite Hn. clear Hn.
  revert s acc Hle. induction n as [|n IH]; intros s acc Hle.
  - destruct s; [discriminate | cbn in Hle; lia].
  - destruct s as [|c s]; [discriminate|].
    cbn [parse_string_chars length] in *.
    destruct (c =? 34); [intros [= <- <-]; lia|].
    destruct (c =? 92).
    + destruct s as [|e s1]; [discriminate|].
      destruct (e =? 117).
      * destruct s1 as [|a [|b [|c' [|d s2]]]]; try discriminate.
        destruct (hex_digit a), (hex_digit b), (hex_digit c'), (hex_digit d);
          try discriminate.
        intros H. apply IH in H; cbn [length] in *; lia.
      * destruct (simple_escape e); [|discriminate].
        intros H. apply IH in H; cbn [length] in *; lia.
    + destruct (c <? 32); [discriminate|].
      intros H. apply IH in H; lia.
Qed.

Lemma parse_number_length (s rest : jsstring) (n : number) :
  parse_number s = Some (n, rest) -> (length rest <= length s)%nat.
Proof.
  unfold parse_number, parse_fraction, parse_exponent.
  destruct (opt_char 45 s) as [neg s1] eqn:E1.
  apply opt_char_length in E1 as [L1 _].
  destruct (span is_digit s1) as [int_ds s2] eqn:E2.
  apply span_snd_length in E2.
  destruct int_ds as [|d more]; [discriminate|].
  destruct ((d =? 48) && negb (is_nil more)); [discriminate|].
  destruct (opt_char 46 s2) as [[] r] eqn:E3;
    apply opt_char_length in E3 as [L3 _].
  - destruct (span is_digit r) as [fs r'] eqn:E4.
    apply span_snd_length in E4.
    destruct fs as [|f fs]; [discriminate|].
    destruct r' as [|c r0].
    + intros [= _ <-]. cbn. lia.
    + destruct ((c =? 101) || (c =? 69)).
      * destruct (opt_char 45 r0) as [eneg r1] eqn:E5.
        apply opt_char_length in E5 as [L5 _].
        destruct (opt_char 43 r0) as [b6 r6] eqn:E6.
        apply opt_char_length in E6 as [L6 _]. cbn [snd].
        destruct (span is_digit (if eneg then r1 else r6)) as [es r2] eqn:E7.
        apply span_snd_length in E7.
        destruct es; [discriminate|]. intros [= _ <-].
        cbn [length] in *. destruct eneg; lia.
      * intros [= _ <-]. lia.
  - destruct s2 as [|c r0].
    + intros [= _ <-]. cbn. lia.
    + destruct ((c =? 101) || (c =? 69)).
      * destruct (opt_char 45 r0) as [eneg r1] eqn:E5.
        apply opt_char_length in E5 as [L5 _].
        destruct (opt_char 43 r0) as [b6 r6] eqn:E6.
        apply opt_char_length in E6 as [L6 _]. cbn [snd].
        destruct (span is_digit (if eneg then r1 else r6)) as [es r2] eqn:E7.
        apply span_snd_length in E7.
        destruct es; [discriminate|]. intros [= _ <-].
        cbn [length] in *. destruct eneg; lia.
      * intros [= _ <-]. lia.
Qed.

Lemma parse_elements_fuel pv n :
  reads_within n pv ->
  forall k acc s, (length s <= n)%nat -> (length s < k)%nat ->
    parse_elements pv k acc s <> OutOfFuel
    /\ forall v rest, parse_elements pv k acc s = Parsed v rest ->
                      (length rest <= length s)%nat.
Proof.
  intros Hpv. induction k as [|k IH]; intros acc s Hn Hk; [lia|].
  cbn [parse_elements].
  destruct (Hpv s Hn) as [Hfuel Hrest].
  destruct (pv s) as [v r| |]; [|split; discriminate | congruence].
  specialize (Hrest _ _ eq_refl).
  pose proof (skip_ws_length r) as Hws.
  destruct (skip_ws r) as [|c r']; [split; discriminate|].
  cbn [length] in Hws.
  destruct (c =? 44).
  - destruct (IH (v :: acc) r') as [H1 H2]; [lia | lia |].
    split; [exact H1|]. intros v' rest H. apply H2 in H. lia.
  - destruct (c =? 93); [|split; discriminate].
    split; [discriminate|]. intros v' rest [= _ <-]. lia.
Qed.

Lemma parse_members_fuel pv n :
  reads_within n pv ->
  forall k acc s, (length s <= n)%nat -> (length s < k)%nat ->
    parse_members pv k acc s <> OutOfFuel
    /\ forall v rest, parse_members pv k acc s = Parsed v rest ->
                      (length rest <= length s)%nat.
Proof.
  intros Hpv. induction k as [|k IH]; intros acc s Hn Hk; [lia|].
  cbn [parse_members].
  pose proof (skip_ws_length s) as Hws.
  destruct (opt_char 34 (skip_ws s)) as [[] r] eqn:E1; [|split; discriminate].
  apply opt_char_length in E1 as [L1 _].
  destruct (parse_string_chars [] r) as [[key r1]|] eqn:E2; [|split; discriminate].
  apply parse_string_chars_length in E2.
  pose proof (skip_ws_length r1) as Hws1.
  destruct (opt_char 58 (skip_ws r1)) as [[] r2] eqn:E3; [|split; discriminate].
  apply opt_char_length in E3 as [L3 _].
  destruct (Hpv r2) as [Hfuel Hrest]; [lia|].
  destruct (pv r2) as [v r3| |]; [|split; discriminate | congruence].
  specialize (Hrest _ _ eq_refl). cbv zeta.
  pose proof (skip_ws_length r3) as Hws3.
  destruct (skip_ws r3) as [|c r4]; [split; discriminate|].
  cbn [length] in Hws3.
  destruct (c =? 44).
  - destruct (IH (define_prop key v acc) r4) as [H1 H2]; [lia | lia |].
    split; [exact H1|]. intros v' rest H. apply H2 in H. lia.
  - destruct (c =? 125); [|split; discriminate].
    split; [discriminate|]. intros v' rest [= _ <-]. lia.
Qed.

Lemma parse_value_reads (fuel : nat) :
  forall s, (length s < fuel)%nat ->
    parse_value fuel s <> OutOfFuel
    /\ forall v rest, parse_value fuel s = Parsed v rest ->
                      (length rest <= length s)%nat.
Proof.
  induction fuel as [|fuel IH]; intros s Hs; [lia|].
  cbn [parse_value].
  pose proof (skip_ws_length s) as Hws.
  destruct (skip_ws s) as [|c r]; [split; discriminate|].
  cbn [length] in Hws.
  assert (Hpv : reads_within (length r) (parse_value fuel)).
  { intros t Ht. apply IH. lia. }
  destruct (c =? 123).
  { pose proof (skip_ws_length r) as Hwr.
    destruct (opt_char 125 (skip_ws r)) as [[] r'] eqn:E.
    - apply opt_char_length in E as [L _].
      split; [discriminate|]. intros v rest [= _ <-]. lia.
    - destruct (parse_members_fuel _ _ Hpv (S (length r)) [] r) as [H1 H2];
        [lia | lia |].
      split; [exact H1|]. intros v rest H. apply H2 in H. lia. }
  destruct (c =? 91).
  { pose proof (skip_ws_length r) as Hwr.
    destruct (opt_char 93 (skip_ws r)) as [[] r'] eqn:E.
    - apply opt_char_length in E as [L _].
      split; [discriminate|]. intros v rest [= _ <-]. lia.
    - destruct (parse_elements_fuel _ _ Hpv (S (length r)) [] r) as [H1 H2];
        [lia | lia |].
      split; [exact H1|]. intros v rest H. apply H2 in H. lia. }
  destruct (c =? 34).
  { destruct (parse_string_chars [] r) as [[str r']|] eqn:E; [|split; discriminate].
    apply parse_string_chars_length in E.
    split; [discriminate|]. intros v rest [= _ <-]. lia. }
  assert (Hlit : forall word v0,
             parse_literal word v0 (c :: r) <> OutOfFuel
             /\ forall v rest, parse_literal word v0 (c :: r) = Parsed v rest ->
                               (length rest <= length s)%nat).
  { intros word v0. unfold parse_literal.
    destruct (match_prefix N.eqb (lit word) (c :: r)) as [r'|] eqn:E;
      [|split; discriminate].
    apply match_prefix_length in E. cbn [length] in E.
    split; [discriminate|]. intros v rest [= _ <-]. lia. }
  destruct (c =? 116); [apply Hlit|].
  destruct (c =? 102); [apply Hlit|].
  destruct (c =? 110); [apply Hlit|].
  destruct (parse_number (c :: r)) as [[n r']|] eqn:E; [|split; discriminate].
  apply parse_number_length in E. cbn [length] in E.
  split; [discriminate|]. intros v rest [= _ <-]. lia.
Qed.

(** The fuel that [JSON_parse] gives is never used up: a [None] of
    [JSON_parse] is a syntax error. *)
Lemma parse_value_fuel (text : jsstring) :
  parse_value (S (length text)) text <> OutOfFuel.
Proof. apply parse_value_reads. lia. Qed.

End JsonReader.

(* ================================================================== *)
(** * Properties of the string functions *)
(* ================================================================== *)

Section Words.

Lemma split_scan_app (p s acc : jsstring) (b : bool) :
  ws_free p ->
  split_scan acc b (p ++ s)
  = split_scan (rev p ++ acc) (match p with [] => b | _ => false end) s.
Proof.
  intros Hp. revert acc b.
  induction Hp as [|c p Hc Hp IH]; intros acc b; [reflexivity|].
  cbn [app split_scan]. rewrite Hc, IH.
  cbn [rev]. rewrite <- app_assoc. cbn [app].
  destruct p; reflexivity.
Qed.

Lemma split_scan_piece (p acc : jsstring) (b : bool) :
  ws_free p -> split_scan acc b p = [rev acc ++ p].
Proof.
  intros Hp.
  rewrite <- (app_nil_r p) at 1.
  rewrite split_scan_app by assumption.
  cbn [split_scan]. rewrite rev_app_distr, rev_involutive. reflexivity.
Qed.

Lemma split_scan_sep (p s acc : jsstring) (b : bool) :
  ws_free p ->
  split_scan acc b (p ++ 32 :: s)
  = match p, b with
    | [], true => split_scan [] true s
    | _, _ => (rev acc ++ p) :: split_scan [] true s
    end.
Proof.
  intros Hp. rewrite split_scan_app by assumption.
  cbn [split_scan]. change (is_space 32) with true. cbn match.
  rewrite rev_app_distr, rev_involutive.
  destruct p, b; reflexivity.
Qed.

(** Joining pieces with single spaces and splitting again gives the
    pieces back, inside a run of white space ... *)
Lemma split_join_inside (qs : list jsstring) :
  qs <> [] -> Forall ws_free qs -> inner_nonempty qs ->
  split_scan [] true (join [32] qs) = qs.
Proof.
  induction qs as [|q rest IH]; [congruence|].
  intros _ Hall Hin.
  apply Forall_cons_1 in Hall as [Hq Hrest].
  destruct Hin as [Hq_ne Hin].
  destruct rest as [|r rest'].
  - cbn [join]. rewrite split_scan_piece by assumption. reflexivity.
  - change (join [32] (q :: r :: rest')) with (q ++ 32 :: join [32] (r :: rest')).
    rewrite split_scan_sep by assumption.
    rewrite IH by (congruence || assumption).
    destruct q; [destruct Hq_ne; congruence | reflexivity].
Qed.

(** ... and at the start of the string, where the first piece may be
    empty. *)
Lemma split_join (p : jsstring) (rest : list jsstring) :
  Forall ws_free (p :: rest) -> inner_nonempty rest ->
  split_ws (join [32] (p :: rest)) = p :: rest.
Proof.
  intros Hall Hin.
  apply Forall_cons_1 in Hall as [Hp Hrest].
  unfold split_ws. destruct rest as [|r rest'].
  - cbn [join]. rewrite split_scan_piece by assumption. reflexivity.
  - change (join [32] (p :: r :: rest')) with (p ++ 32 :: join [32] (r :: rest')).
    rewrite split_scan_sep by assumption.
    rewrite split_join_inside by (congruence || assumption).
    destruct p; reflexivity.
Qed.

(** The pieces that [split] produces. *)
Lemma split_scan_shape (s : jsstring) :
  (forall acc, ws_free acc ->
     exists h t, split_scan acc false s = h :: t
                 /\ ws_free h /\ (acc <> [] -> h <> [])
                 /\ Forall ws_free t /\ inner_nonempty t)
  /\ (Forall ws_free (split_scan [] true s)
      /\ inner_nonempty (split_scan [] true s)
      /\ split_scan [] true s <> []).
Proof.
  induction s as [|c s [IHf [IHt1 [IHt2 IHt3]]]].
  - split.
    + intros acc Hcur. exists (rev acc), []. cbn. repeat split; auto.
      * apply Forall_rev. assumption.
      * intros Hne Hr. apply Hne. destruct acc; [reflexivity|].
        cbn in Hr. apply app_eq_nil in Hr as [_ Hr]. discriminate.
    + cbn. split; [repeat constructor|]. split; [split; [left; reflexivity | exact I] | discriminate].
  - assert (Hnon : forall acc, ws_free acc -> is_space c = false ->
              exists h t, split_scan (c :: acc) false s = h :: t
                 /\ ws_free h /\ h <> []
                 /\ Forall ws_free t /\ inner_nonempty t).
    { intros acc Hcur Hc.
      destruct (IHf (c :: acc)) as (h & t & E & Hh & Hne & Ht & Hi).
      { constructor; assumption. }
      exists h, t. split; [assumption|]. split; [assumption|].
      split; [apply Hne; discriminate|]. split; assumption. }
    split.
    + intros acc Hcur. cbn [split_scan].
      destruct (is_space c) eqn:Hc.
      * exists (rev acc), (split_scan [] true s). repeat split; auto.
        -- apply Forall_rev. assumption.
        -- intros Hne Hr. apply Hne. destruct acc; [reflexivity|].
           cbn in Hr. apply app_eq_nil in Hr as [_ Hr]. discriminate.
      * destruct (Hnon acc Hcur eq_refl) as (h & t & E & Hh & Hne & Ht & Hi).
        exists h, t. repeat split; auto.
    + cbn [split_scan]. destruct (is_space c) eqn:Hc.
      * repeat split; assumption.
      * destruct (Hnon [] (List.Forall_nil _) eq_refl) as (h & t & E & Hh & Hne & Ht & Hi).
        rewrite E. repeat split.
        -- constructor; assumption.
        -- right. assumption.
        -- assumption.
        -- congruence.
Qed.

Lemma split_ws_shape (s : jsstring) :
  exists p rest, split_ws s = p :: rest
                 /\ Forall ws_free (p :: rest) /\ inner_nonempty rest.
Proof.
  destruct (split_scan_shape s) as [Hf _].
  destruct (Hf [] (List.Forall_nil _)) as (h & t & E & Hh & _ & Ht & Hi).
  exists h, t. repeat split; auto.
Qed.

Lemma inner_nonempty_take (n : nat) (ps : list jsstring) :
  inner_nonempty ps -> inner_nonempty (take n ps).
Proof.
  revert n. induction ps as [|q rest IH]; intros [|n] H; cbn; auto.
  destruct H as [[-> | Hq] Hrest].
  - split; [left; destruct n; reflexivity | destruct n; exact I].
  - split; [right; assumption | apply IH; assumption].
Qed.

(** Splitting the joined first [n] words of a text gives those words. *)
Lemma split_join_take (n : nat) (s : jsstring) :
  split_ws (join [32] (take (S n) (split_ws s))) = take (S n) (split_ws s).
Proof.
  destruct (split_ws_shape s) as (p & rest & E & Hall & Hin).
  rewrite E. cbn [take firstn].
  apply split_join.
  - apply Forall_cons_1 in Hall as [Hp Hrest].
    constructor; [assumption | apply Forall_take; assumption].
  - apply inner_nonempty_take. assumption.
Qed.

End Words.

Section TitleElement.


Lemma match_prefix_Some eqc (pat s r : jsstring) :
  match_prefix eqc pat s = Some r <->
  exists o, s = o ++ r /\ Forall2 (fun p c => eqc p c = true) pat o.
Proof.
  revert s. induction pat as [|p pat IH]; intros s; cbn.
  - split.
    + intros [= ->]. exists []. split; [reflexivity | constructor].
    + intros (o & -> & Ho). inversion Ho. reflexivity.
  - destruct s as [|c s].
    + split; [discriminate|]. intros (o & E & Ho).
      inversion Ho; subst. discriminate.
    + destruct (eqc p c) eqn:Hpc.
      * rewrite IH. split.
        -- intros (o & -> & Ho). exists (c :: o). split; [reflexivity|].
           constructor; assumption.
        -- intros (o & E & Ho). inversion Ho; subst.
           injection E as -> ->. eexists; split; [reflexivity | assumption].
      * split; [discriminate|]. intros (o & E & Ho).
        inversion Ho; subst. injection E as -> ->. congruence.
Qed.

Lemma span_spec p (s a b : jsstring) :
  span p s = (a, b) ->
  s = a ++ b /\ Forall (fun c => p c = true) a
  /\ match b with [] => True | c :: _ => p c = false end.
Proof.
  revert a b. induction s as [|c s IH]; intros a b; cbn.
  - intros [= <- <-]. repeat split. constructor.
  - destruct (p c) eqn:Hc.
    + destruct (span p s) as [a' b'] eqn:E. intros [= <- <-].
      destruct (IH _ _ eq_refl) as (-> & Ha & Hb).
      repeat split; [constructor; assumption | assumption].
    + intros [= <- <-]. repeat split; [constructor | assumption].
Qed.

Lemma span_app p (a b : jsstring) :
  Forall (fun c => p c = true) a ->
  match b with [] => True | c :: _ => p c = false end ->
  span p (a ++ b) = (a, b).
Proof.
  intros Ha Hb. induction Ha as [|c a Hc Ha IH]; cbn.
  - destruct b as [|c b]; [reflexivity|]. cbn. rewrite Hb. reflexivity.
  - rewrite Hc, IH. reflexivity.
Qed.

Lemma eq_ci_lt (c : char16) : eq_ci 60 c = true -> c = 60%N.
Proof.
  unfold eq_ci. change (canonicalize 60) with 60.
  unfold canonicalize, is_lower_az.
  destruct ((97 <=? c) && (c <=? 122)) eqn:E; intros H%N.eqb_eq.
  - apply andb_true_iff in E as [E1%N.leb_le E2%N.leb_le]. lia.
  - congruence.
Qed.

(** The expression tried at the start of a text finds exactly the
    title elements that start there. *)
Lemma re_title_at_spec (s g : jsstring) :
  re_title_at s = Some g <-> title_element s [] g.
Proof.
  unfold re_title_at, title_element, drop_while. split.
  - destruct (match_prefix eq_ci (lit "<title") s) as [r1|] eqn:E1; [|discriminate].
    apply match_prefix_Some in E1 as (opening & -> & Hopen).
    destruct (span not_gt r1) as [attrs r1'] eqn:E2.
    apply span_spec in E2 as (-> & Hattrs & _). cbn [snd].
    destruct r1' as [|c r2]; [discriminate|].
    destruct (N.eqb_spec c 62) as [->|Hne].
    2:{ destruct c as [|c]; [discriminate|].
        do 6 (destruct c as [c|c|]; try discriminate). congruence. }
    destruct (span not_lt r2) as [g' r3] eqn:E3.
    apply span_spec in E3 as (-> & Hg & _).
    destruct g' as [|g0 g']; [discriminate|].
    destruct (match_prefix eq_ci (lit "</title>") r3) as [after|] eqn:E4; [|discriminate].
    apply match_prefix_Some in E4 as (closing & -> & Hclose).
    intros [= <-].
    exists opening, attrs, closing, after.
    repeat split; try assumption; discriminate.
  - intros (opening & attrs & closing & after & -> & Hopen & Hattrs & Hne & Hg & Hclose).
    cbn [app].
    assert (E1 : match_prefix eq_ci (lit "<title")
                   (opening ++ attrs ++ 62 :: g ++ closing ++ after)
                 = Some (attrs ++ 62 :: g ++ closing ++ after)).
    { apply match_prefix_Some. eexists; split; [reflexivity | assumption]. }
    rewrite E1.
    rewrite span_app by (assumption || reflexivity).
    cbn [snd].
    assert (Hhead : match closing ++ after with
                    | [] => True
                    | c :: _ => not_lt c = false
                    end).
    { inversion Hclose as [|p c ps cs Hc Hrest]; subst.
      apply eq_ci_lt in Hc. subst. reflexivity. }
    rewrite span_app by assumption.
    destruct g as [|g0 g']; [congruence|].
    assert (E4 : match_prefix eq_ci (lit "</title>") (closing ++ after) = Some after).
    { apply match_prefix_Some. eexists; split; [reflexivity | assumption]. }
    rewrite E4. reflexivity.
Qed.

Lemma title_element_cons (c : char16) (s before g : jsstring) :
  title_element (c :: s) (c :: before) g <-> title_element s before g.
Proof.
  unfold title_element. split;
    intros (o & a & cl & af & E & H); exists o, a, cl, af; split; try assumption.
  - cbn in E. congruence.
  - cbn. congruence.
Qed.

Lemma title_element_head (c : char16) (s before g : jsstring) :
  title_element (c :: s) before g ->
  before = [] \/ exists before', before = c :: before' /\ title_element s before' g.
Proof.
  destruct before as [|b before]; [left; reflexivity|].
  intros H. right. exists before.
  assert (b = c) as ->.
  { destruct H as (o & a & cl & af & E & _). cbn in E. congruence. }
  split; [reflexivity|]. apply title_element_cons in H. assumption.
Qed.

Lemma title_element_nil (before g : jsstring) : ~ title_element [] before g.
Proof.
  intros (o & a & cl & af & E & Ho & _).
  inversion Ho; subst. destruct before; discriminate.
Qed.

(** [match] finds no title exactly when the page has no title
    element, and otherwise the text of the leftmost one. *)
Lemma match_title_None (s : jsstring) :
  match_title s = None <-> (forall before g, ~ title_element s before g).
Proof.
  induction s as [|c s IH]; cbn [match_title].
  - split; [intros _ b g; apply title_element_nil | reflexivity].
  - destruct (re_title_at (c :: s)) as [g0|] eqn:E.
    + split; [discriminate|]. intros H. exfalso.
      apply (H [] g0), re_title_at_spec, E.
    + rewrite IH. split.
      * intros H before g Hel.
        destruct (title_element_head _ _ _ _ Hel) as [-> | (b' & -> & Hel')].
        -- apply re_title_at_spec in Hel. congruence.
        -- exact (H _ _ Hel').
      * intros H before g Hel. apply (H (c :: before) g).
        apply title_element_cons. assumption.
Qed.

Lemma match_title_Some (s g : jsstring) :
  match_title s = Some g ->
  exists before,
    title_element s before g
    /\ forall before' g', title_element s before' g' ->
                          (length before <= length before')%nat.
Proof.
  induction s as [|c s IH]; cbn [match_title]; [discriminate|].
  destruct (re_title_at (c :: s)) as [g0|] eqn:E.
  - intros [= <-]. exists []. split; [apply re_title_at_spec, E|].
    intros; cbn; lia.
  - intros H. destruct (IH H) as (before & Hel & Hmin).
    exists (c :: before). split; [apply title_element_cons; assumption|].
    intros before' g' Hel'.
    destruct (title_element_head _ _ _ _ Hel') as [-> | (b' & -> & Hel'')].
    + apply re_title_at_spec in Hel'. congruence.
    + cbn. apply Hmin in Hel''. lia.
Qed.

End TitleElement.

(* ================================================================== *)
(** * The fetch *)
(* ================================================================== *)

Section Fetch.


Lemma fetchStep_execute_Ok i m env w out w' :
  fetchStep_execute i m env w = (Ok out, w') ->
  exists res html,
    net_fetch env (record_event (EvFetch (in_url i)) w) (in_url i) = Ok res
    /\ res_ok res = true
    /\ res_text res = Ok html
    /\ w' = record_event (EvFetch (in_url i)) w
    /\ out = fetched html (in_url i).
Proof.
  unfold fetchStep_execute, js_fetch, bind, log_event, throw, ret, lift.
  destruct (net_fetch env _ (in_url i)) as [res|e] eqn:E; [|discriminate].
  destruct (res_ok res) eqn:Hok; cbn [negb]; [|discriminate].
  destruct (res_text res) as [html|e] eqn:Ht; [|discriminate].
  intros [= <- <-]. exists res, html. auto.
Qed.

Lemma fetchStep_execute_not_ok i m env w res :
  net_fetch env (record_event (EvFetch (in_url i)) w) (in_url i) = Ok res ->
  res_ok res = false ->
  fetchStep_execute i m env w
  = (Err (fetch_failed (in_url i) (res_status res)),
     record_event (EvFetch (in_url i)) w).
Proof.
  intros E Hok.
  unfold fetchStep_execute, js_fetch, bind, log_event, throw, ret.
  rewrite E, Hok. reflexivity.
Qed.

Lemma fetchPageTool_execute_Ok u env w out w' :
  fetchPageTool_execute u env w = (Ok out, w') ->
  exists res html,
    net_fetch env (record_event (EvFetch u) w) u = Ok res
    /\ res_ok res = true
    /\ res_text res = Ok html
    /\ w' = record_event (EvFetch u) w
    /\ tool_content out = content (fetched html u)
    /\ tool_title out = title (fetched html u)
    /\ tool_wordCount out = wordCount (fetched html u).
Proof.
  unfold fetchPageTool_execute, js_fetch, bind, log_event, throw, ret, lift.
  destruct (net_fetch env _ u) as [res|e] eqn:E; [|discriminate].
  destruct (res_ok res) eqn:Hok; cbn [negb]; [|discriminate].
  destruct (res_text res) as [html|e] eqn:Ht; [|discriminate].
  intros [= <- <-]. exists res, html. cbn. auto 8.
Qed.

(** The words of the returned content are the first 8000 words of the
    text. *)
Lemma truncate_words_split (text : jsstring) :
  split_ws (truncate_words text) = take 8000 (split_ws text).
Proof.
  unfold truncate_words. change (lit " ") with [32].
  change 8000%nat with (S 7999). apply split_join_take.
Qed.

Lemma word_count_truncate (text : jsstring) :
  word_count (truncate_words text) = Nat.min 8000 (word_count text).
Proof.
  unfold word_count. rewrite truncate_words_split. apply length_take.
Qed.

(** A title element at a given offset has one text. *)
Lemma title_element_unique (s b b' g g' : jsstring) :
  title_element s b g -> title_element s b' g' ->
  length b = length b' -> g = g'.
Proof.
  revert s b'. induction b as [|c b IH]; intros s b' H H' Hlen.
  - destruct b'; [|discriminate].
    apply re_title_at_spec in H, H'. congruence.
  - destruct b' as [|c' b']; [discriminate|].
    destruct s as [|c0 s]; [exfalso; eapply title_element_nil; eassumption|].
    assert (c = c0) as ->.
    { destruct H as (? & ? & ? & ? & E & _). cbn in E. congruence. }
    assert (c' = c0) as ->.
    { destruct H' as (? & ? & ? & ? & E & _). cbn in E. congruence. }
    apply title_element_cons in H, H'.
    apply (IH s b'); auto.
Qed.

(** A title element is found by the expression tried at its offset. *)
Lemma title_element_offset (html before g : jsstring) :
  title_element html before g ->
  re_title_at (drop (length before) html) = Some g.
Proof.
  intros (o & a & cl & af & -> & Ho & Ha & Hne & Hg & Hcl).
  rewrite drop_app_length. apply re_title_at_spec.
  exists o, a, cl, af. repeat split; assumption.
Qed.

Lemma page_title_no_element (html u : jsstring) :
  (forall before g, ~ title_element html before g) -> page_title html u = u.
Proof.
  intros H. apply (proj2 (match_title_None html)) in H.
  unfold page_title. rewrite H. reflexivity.
Qed.

Lemma page_title_first_element (html u before g : jsstring) :
  title_element html before g ->
  (forall before' g', title_element html before' g' ->
                      (length before <= length before')%nat) ->
  page_title html u = trim g.
Proof.
  intros Hel Hmin. unfold page_title.
  destruct (match_title html) as [g0|] eqn:E.
  - apply match_title_Some in E as (b0 & Hel0 & Hmin0).
    f_equal. apply (title_element_unique html b0 before); auto.
    apply Nat.le_antisymm; [eapply Hmin0 | eapply Hmin]; eassumption.
  - exfalso. exact (proj1 (match_title_None html) E _ _ Hel).
Qed.

End Fetch.

(* ================================================================== *)
(** * Properties of the orchestrator *)
(* ================================================================== *)

Section Orchestrator.

Variable m : Mastra.

Lemma advance_app (a b : list Stage) p env w :
  advance m (a ++ b) p env w
  = match advance m a p env w with
    | (Running p', w') => advance m b p' env w'
    | (Stopped f l i, w') => (Stopped f l i, w')
    end.
Proof.
  revert p w. induction a as [|st a IH]; intros p w; cbn [app advance].
  - reflexivity.
  - destruct (run_stage m st p env w) as [[p'|f l i] w']; [apply IH | reflexivity].
Qed.

Lemma run_stage_Running st p env w p' w' :
  run_stage m st p env w = (Running p', w') ->
  exists x w1 out,
    mapped_input st p env w = (Ok x, w1)
    /\ execute (snd st) x (log p) m env w1 = (Ok out, w')
    /\ p' = {| prev := stage_name st; cur := out;
               log := log p ++ [(stage_name st, out)];
               inv := inv p ++ [stage_name st] |}.
Proof.
  unfold run_stage, stage_name.
  destruct (mapped_input st p env w) as [[x|e] w1]; [|discriminate].
  destruct (execute (snd st) x (log p) m env w1) as [[out|e] w2] eqn:E; [|discriminate].
  intros [= <- <-]. exists x, w1, out. repeat split. assumption.
Qed.

Lemma run_stage_Stopped st p env w f l i w' :
  run_stage m st p env w = (Stopped f l i, w') ->
  l = log p
  /\ ((exists e, mapped_input st p env w = (Err e, w')
                 /\ f = MappingError (prev p) (stage_name st) e /\ i = inv p)
      \/ (exists x w1 e, mapped_input st p env w = (Ok x, w1)
                         /\ execute (snd st) x (log p) m env w1 = (Err e, w')
                         /\ f = StageError (stage_name st) e
                         /\ i = inv p ++ [stage_name st])).
Proof.
  unfold run_stage, stage_name.
  destruct (mapped_input st p env w) as [[x|e] w1].
  - destruct (execute (snd st) x (log p) m env w1) as [[out|e] w2] eqn:E; [discriminate|].
    intros [= <- <- <- <-]. split; [reflexivity|]. right. exists x, w1, e.
    repeat split. assumption.
  - intros [= <- <- <- <-]. split; [reflexivity|]. left. exists e. repeat split.
Qed.

(** A completed prefix has recorded and invoked its stages, in order. *)
Lemma advance_Running sts p env w p' w' :
  advance m sts p env w = (Running p', w') ->
  inv p' = inv p ++ List.map stage_name sts
  /\ List.map fst (log p') = List.map fst (log p) ++ List.map stage_name sts.
Proof.
  revert p w. induction sts as [|st sts IH]; intros p w; cbn [advance].
  - intros [= <- <-]. cbn. rewrite !app_nil_r. auto.
  - destruct (run_stage m st p env w) as [[p1|f l i] w1] eqn:E; [|discriminate].
    intros H. apply IH in H as [Hi Hl].
    apply run_stage_Running in E as (x & w0 & out & _ & _ & ->).
    cbn [inv log] in Hi, Hl. rewrite Hi, Hl.
    rewrite map_app. cbn [List.map fst]. rewrite <- !app_assoc. auto.
Qed.

(** A stopped run stopped at one stage, after completing those before
    it; the world is as that stage left it. *)
Lemma advance_Stopped sts p env w f l i w' :
  advance m sts p env w = (Stopped f l i, w') ->
  exists before st after p1 w1,
    sts = before ++ st :: after
    /\ advance m before p env w = (Running p1, w1)
    /\ run_stage m st p1 env w1 = (Stopped f l i, w').
Proof.
  revert p w. induction sts as [|st sts IH]; intros p w; cbn [advance].
  - discriminate.
  - destruct (run_stage m st p env w) as [[p1|f1 l1 i1] w1] eqn:E.
    + intros H. apply IH in H as (before & st' & after & p2 & w2 & -> & Hb & Hs).
      exists (st :: before), st', after, p2, w2.
      split; [reflexivity|]. split; [|assumption].
      cbn [advance]. rewrite E. assumption.
    + intros [= <- <- <- <-].
      exists [], st, sts, p, w. repeat split. assumption.
Qed.

(** Fail-fast: when the stages before [st] complete and [st] fails, the
    run stops there, whatever follows. *)
Lemma advance_fail_fast before st after p env w p1 w1 f l i w' :
  advance m before p env w = (Running p1, w1) ->
  run_stage m st p1 env w1 = (Stopped f l i, w') ->
  advance m (before ++ st :: after) p env w = (Stopped f l i, w').
Proof.
  intros Hb Hs. rewrite advance_app, Hb. cbn [advance]. rewrite Hs. reflexivity.
Qed.

End Orchestrator.

(* ================================================================== *)
(** * Properties of the steps and mappings *)
(* ================================================================== *)

Section Steps.

Variable m : Mastra.

(** A stage made by [createStep]: mapping, validation, body. *)
Lemma run_stage_createStep {I O : Type} mp id i o
  (dec : value -> option I) (enc : O -> value) body p env w :
  run_stage m (mp, createStep id i o dec enc body) p env w
  = match mapped_input (mp, createStep id i o dec enc body) p env w with
    | (Err e, w1) => (Stopped (MappingError (prev p) id e) (log p) (inv p), w1)
    | (Ok x, w1) =>
        match zod_parse (url_ok env) i x ≫= dec with
        | None =>
            (Stopped (StageError id (validation_failed id)) (log p) (inv p ++ [id]), w1)
        | Some a =>
            match body a m env w1 with
            | (Ok r, w2) =>
                (Running {| prev := id; cur := enc r;
                            log := log p ++ [(id, enc r)];
                            inv := inv p ++ [id] |}, w2)
            | (Err e, w2) => (Stopped (StageError id e) (log p) (inv p ++ [id]), w2)
            end
        end
    end.
Proof.
  unfold run_stage. cbn [snd createStep step_id execute].
  destruct (mapped_input _ p env w) as [[x|e] w1]; [|reflexivity].
  destruct (zod_parse (url_ok env) i x ≫= dec) as [a|]; [|reflexivity].
  destruct (body a m env w1) as [[r|e] w2]; reflexivity.
Qed.

(** ** Validation of the inputs the workflow produces *)

Lemma validate_prompt uo (p : jsstring) :
  zod_parse uo prompt_schema (VObj [(lit "prompt", VStr p)])
    ≫= (fun v => as_string (field v "prompt"))
  = Some p.
Proof. reflexivity. Qed.

Lemma validate_critique_input uo s f :
  zod_parse uo critique_input_schema (critique_input s f) ≫= decode_CritiqueInput
  = Some {| cr_text := s; cr_title := title f; cr_url := url f |}.
Proof. reflexivity. Qed.

Lemma validate_save_input uo sc s f :
  zod_parse uo save_input_schema (save_input sc s f) ≫= decode_SaveInput
  = match sc with
    | VNum n =>
        if is_nan n then None
        else Some {| score := n; summary := s; sv_title := title f; sv_url := url f |}
    | _ => None
    end.
Proof.
  destruct sc as [| |b|n|x|l|l]; try reflexivity.
  vm_compute. destruct n; reflexivity.
Qed.

(** ** The mappings on the outputs the workflow produces *)

Lemma map_fetch_to_summarize_fetched f ctx env w :
  map_fetch_to_summarize (encode_FetchStepOutput f) ctx env w
  = (Ok (VObj [(lit "prompt", VStr (summarize_prompt f))]), w).
Proof. reflexivity. Qed.

Lemma map_summarize_to_critique_text s f ctx env w :
  getStepResult ctx "fetch-page" = encode_FetchStepOutput f ->
  map_summarize_to_critique (summarizer_output s) ctx env w
  = (Ok (critique_input s f), w).
Proof.
  intros H. unfold map_summarize_to_critique. rewrite H. reflexivity.
Qed.

Lemma map_critique_to_save_score c s f ctx env w :
  getStepResult ctx "fetch-page" = encode_FetchStepOutput f ->
  getStepResult ctx "summarizer" = summarizer_output s ->
  map_critique_to_save c ctx env w
  = match get_prop c "score" with
    | Ok sc => (Ok (save_input sc s f), w)
    | Err e => (Err e, w)
    end.
Proof.
  intros Hf Hs. unfold map_critique_to_save. rewrite Hf, Hs.
  unfold bind, lift, ret.
  destruct (get_prop c "score") as [sc|e]; reflexivity.
Qed.

End Steps.

(* ================================================================== *)
(** * The stages of the summarize workflow, one by one *)
(* ================================================================== *)

Section SummarizeRun.

Variable env : Env.

Lemma stages_summarizeWorkflow :
  stages summarizeWorkflow
  = [(None, fetchStep);
     (Some map_fetch_to_summarize, summarizeStep);
     (Some map_summarize_to_critique, critiqueStep);
     (Some map_critique_to_save, conditionalSaveStep)].
Proof. reflexivity. Qed.

Lemma stage_fetch input w :
  run_stage mastra (None, fetchStep) (start input) env w
  = match fetch_input env input with
    | None =>
        (Stopped (StageError "fetch-page" (validation_failed "fetch-page"))
           [] ["fetch-page"%string], w)
    | Some i =>
        match fetchStep_execute i mastra env w with
        | (Ok f, w1) => (Running (after_fetch f), w1)
        | (Err e, w1) =>
            (Stopped (StageError "fetch-page" e) [] ["fetch-page"%string], w1)
        end
    end.
Proof.
  unfold fetchStep. rewrite run_stage_createStep.
  unfold mapped_input, ret, fetch_input. cbn [fst start cur log inv].
  destruct (_ ≫= decode_FetchInput) as [i|]; [|reflexivity].
  destruct (fetchStep_execute i mastra env w) as [[f|e] w1]; reflexivity.
Qed.

Lemma stage_summarize f w :
  run_stage mastra (Some map_fetch_to_summarize, summarizeStep) (after_fetch f) env w
  = match agent_generate summarizerAgent (summarize_prompt f) env w with
    | (Ok s, w2) => (Running (after_summarize f s), w2)
    | (Err e, w2) =>
        (Stopped (StageError "summarizer" e) (log (after_fetch f))
           ["fetch-page"%string; "summarizer"%string], w2)
    end.
Proof.
  unfold summarizeStep, createAgentStep. rewrite run_stage_createStep.
  unfold mapped_input. cbn [fst after_fetch cur log].
  rewrite map_fetch_to_summarize_fetched, validate_prompt.
  destruct (agent_generate summarizerAgent (summarize_prompt f) env w) as [[s|e] w2];
    reflexivity.
Qed.

Lemma stage_critique f s w :
  run_stage mastra (Some map_summarize_to_critique, critiqueStep)
    (after_summarize f s) env w
  = match critiqueStep_execute (critique_record f s) mastra env w with
    | (Ok c, w3) => (Running (after_critique f s c), w3)
    | (Err e, w3) =>
        (Stopped (StageError "critique" e) (log (after_summarize f s))
           ["fetch-page"%string; "summarizer"%string; "critique"%string], w3)
    end.
Proof.
  unfold critiqueStep. rewrite run_stage_createStep.
  unfold mapped_input. cbn [fst after_summarize cur log].
  rewrite (map_summarize_to_critique_text s f) by reflexivity.
  rewrite validate_critique_input. fold (critique_record f s).
  destruct (critiqueStep_execute (critique_record f s) mastra env w) as [[c|e] w3];
    reflexivity.
Qed.

Lemma stage_save f s c w :
  run_stage mastra (Some map_critique_to_save, conditionalSaveStep)
    (after_critique f s c) env w
  = match get_prop c "score" with
    | Err e =>
        (Stopped (MappingError "critique" "conditional-save" e)
           (log (after_critique f s c)) (inv (after_critique f s c)), w)
    | Ok (VNum n) =>
        if is_nan n then
          (Stopped (StageError "conditional-save" (validation_failed "conditional-save"))
             (log (after_critique f s c))
             (inv (after_critique f s c) ++ ["conditional-save"%string]), w)
        else
          match conditionalSaveStep_execute (save_record f s n) mastra env w with
          | (Ok o, w4) => (Running (after_save f s c o), w4)
          | (Err e, w4) =>
              (Stopped (StageError "conditional-save" e)
                 (log (after_critique f s c))
                 (inv (after_critique f s c) ++ ["conditional-save"%string]), w4)
          end
    | Ok _ =>
        (Stopped (StageError "conditional-save" (validation_failed "conditional-save"))
           (log (after_critique f s c))
           (inv (after_critique f s c) ++ ["conditional-save"%string]), w)
    end.
Proof.
  unfold conditionalSaveStep. rewrite run_stage_createStep.
  unfold mapped_input. cbn [fst after_critique cur log].
  rewrite (map_critique_to_save_score c s f) by reflexivity.
  destruct (get_prop c "score") as [sc|e]; [|reflexivity].
  rewrite validate_save_input.
  destruct sc as [| |b|n|x|l|l]; try reflexivity.
  destruct (is_nan n); [reflexivity|]. fold (save_record f s n).
  destruct (conditionalSaveStep_execute (save_record f s n) mastra env w)
    as [[o|e] w4]; reflexivity.
Qed.

(** The run, stage after stage. *)
Lemma run_summarizeWorkflow input w :
  run mastra summarizeWorkflow input env w
  = let '(o, w') :=
      match run_stage mastra (None, fetchStep) (start input) env w with
      | (Running p1, w1) =>
          match run_stage mastra (Some map_fetch_to_summarize, summarizeStep) p1 env w1 with
          | (Running p2, w2) =>
              match run_stage mastra (Some map_summarize_to_critique, critiqueStep) p2 env w2 with
              | (Running p3, w3) =>
                  run_stage mastra (Some map_critique_to_save, conditionalSaveStep) p3 env w3
              | stopped => stopped
              end
          | stopped => stopped
          end
      | stopped => stopped
      end in
    (finish o, w').
Proof.
  unfold run. rewrite stages_summarizeWorkflow. cbn [advance].
  destruct (run_stage mastra (None, fetchStep) _ env w) as [[p1|? ? ?] w1]; [|reflexivity].
  destruct (run_stage mastra (_, summarizeStep) _ env w1) as [[p2|? ? ?] w2]; [|reflexivity].
  destruct (run_stage mastra (_, critiqueStep) _ env w2) as [[p3|? ? ?] w3]; [|reflexivity].
  destruct (run_stage mastra (_, conditionalSaveStep) _ env w3) as [[p4|? ? ?] w4]; reflexivity.
Qed.

(** A run that reaches the last stage. *)
Lemma run_to_save input w i f w1 s w2 c w3 :
  fetch_input env input = Some i ->
  fetchStep_execute i mastra env w = (Ok f, w1) ->
  agent_generate summarizerAgent (summarize_prompt f) env w1 = (Ok s, w2) ->
  critiqueStep_execute (critique_record f s) mastra env w2 = (Ok c, w3) ->
  run mastra summarizeWorkflow input env w
  = let '(o, w') :=
      run_stage mastra (Some map_critique_to_save, conditionalSaveStep)
        (after_critique f s c) env w3 in
    (finish o, w').
Proof.
  intros Hi Hf Hs Hc. rewrite run_summarizeWorkflow.
  rewrite stage_fetch, Hi, Hf, stage_summarize, Hs, stage_critique, Hc.
  reflexivity.
Qed.

(** Every succeeded run went this way. *)
Lemma run_succeeded_inv input w r w' :
  run mastra summarizeWorkflow input env w = (r, w') ->
  status r = succeeded ->
  exists i f w1 s w2 c w3 n o,
    fetch_input env input = Some i
    /\ fetchStep_execute i mastra env w = (Ok f, w1)
    /\ agent_generate summarizerAgent (summarize_prompt f) env w1 = (Ok s, w2)
    /\ critiqueStep_execute (critique_record f s) mastra env w2 = (Ok c, w3)
    /\ get_prop c "score" = Ok (VNum n) /\ is_nan n = false
    /\ conditionalSaveStep_execute (save_record f s n) mastra env w3 = (Ok o, w')
    /\ r = finish (Running (after_save f s c o)).
Proof.
  rewrite run_summarizeWorkflow, stage_fetch.
  destruct (fetch_input env input) as [i|]; [|intros [= <- <-]; discriminate].
  destruct (fetchStep_execute i mastra env w) as [[f|e] w1] eqn:Hf;
    [|intros [= <- <-]; discriminate].
  rewrite stage_summarize.
  destruct (agent_generate summarizerAgent (summarize_prompt f) env w1)
    as [[s|e] w2] eqn:Hs; [|intros [= <- <-]; discriminate].
  rewrite stage_critique.
  destruct (critiqueStep_execute (critique_record f s) mastra env w2)
    as [[c|e] w3] eqn:Hc; [|intros [= <- <-]; discriminate].
  rewrite stage_save.
  destruct (get_prop c "score") as [sc|e] eqn:Hsc; [|intros [= <- <-]; discriminate].
  destruct sc as [| |b|n|x|l|l]; try (intros [= <- <-]; discriminate).
  destruct (is_nan n) eqn:Hn; [intros [= <- <-]; discriminate|].
  destruct (conditionalSaveStep_execute (save_record f s n) mastra env w3)
    as [[o|e] w4] eqn:Ho; [|intros [= <- <-]; discriminate].
  intros [= <- <-] _.
  exists i, f, w1, s, w2, c, w3, n, o. repeat split; assumption.
Qed.

End SummarizeRun.

(* ================================================================== *)
(** * Properties of the comparison, the critique and the save *)
(* ================================================================== *)

Section Numbers.

Lemma SFcompare_antisym (a b : spec_float) (c : comparison) :
  SFcompare a b = Some c -> SFcompare b a = Some (CompOpp c).
Proof.
  destruct a as [sa|sa| |sa ma ea], b as [sb|sb| |sb mb eb]; cbn;
    try discriminate;
    try (intros [= <-]; repeat match goal with
                               | s : bool |- _ => destruct s
                               end; reflexivity).
  intros [= <-]. f_equal.
  destruct sa, sb; try reflexivity;
    rewrite (Z.compare_antisym ea eb);
    destruct (ea ?= eb)%Z; cbn; try reflexivity;
    rewrite (Pos.compare_cont_antisym ma mb Eq); cbn;
    destruct (Pos.compare_cont Eq ma mb); reflexivity.
Qed.

(** On numbers, [a <= b] excludes [b < a]. *)
Lemma num_le_not_lt (a b : number) : num_le a b = true -> num_lt b a = false.
Proof.
  unfold num_le, num_lt, SFleb, SFltb.
  destruct (SFcompare a b) as [c|] eqn:E; [|discriminate].
  rewrite (SFcompare_antisym _ _ _ E).
  destruct c; cbn; congruence.
Qed.

Lemma num_lt_not_nan (a b : number) : num_lt a b = true -> is_nan a = false.
Proof. destruct a; cbn; congruence. Qed.

Lemma num_le_not_nan (a b : number) : num_le a b = true -> is_nan b = false.
Proof. destruct a, b; cbn; congruence. Qed.

End Numbers.

Section SaveAndCritique.

Variable env : Env.

Lemma agent_generate_eq a prompt w :
  agent_generate a prompt env w
  = (llm_generate env (record_event (EvGenerate (agent_id a) prompt) w)
       (agent_id a) prompt,
     record_event (EvGenerate (agent_id a) prompt) w).
Proof. reflexivity. Qed.

(** The critique step asks the critic once and never fails on its
    answer: an answer that does not parse gives the fallback. *)
Lemma critiqueStep_execute_eq i w :
  critiqueStep_execute i mastra env w
  = let w1 := record_event (EvGenerate "critic" (critique_prompt i)) w in
    match llm_generate env w1 "critic" (critique_prompt i) with
    | Ok t =>
        (Ok (match JSON_parse t with Some v => v | None => critique_fallback end), w1)
    | Err e => (Err e, w1)
    end.
Proof.
  unfold critiqueStep_execute, bind. cbn [getAgent mastra lookup_name String.eqb].
  change (getAgent mastra "critic" env w) with (Ok criticAgent, w).
  cbv iota. rewrite agent_generate_eq. cbn [agent_id criticAgent].
  destruct (llm_generate env _ "critic" (critique_prompt i)) as [t|e]; [|reflexivity].
  destruct (JSON_parse t); reflexivity.
Qed.

Lemma conditionalSaveStep_execute_skip i mm w :
  num_lt (score i) threshold = true ->
  conditionalSaveStep_execute i mm env w
  = (Ok {| saved := false; filePath := None |}, w).
Proof. intros H. unfold conditionalSaveStep_execute. rewrite H. reflexivity. Qed.

Lemma conditionalSaveStep_execute_persist i mm w :
  num_lt (score i) threshold = false ->
  conditionalSaveStep_execute i mm env w
  = let path := summary_path (sv_title i) (now w) in
    let dir := summary_dir (sv_title i) (now w) in
    let w1 := record_event (EvMkdir dir) w in
    let w2 := record_event (EvWriteFile path (summary_file i)) w1 in
    match disk_mkdir env w1 dir with
    | Err e => (Err e, w1)
    | Ok _ =>
        match disk_writeFile env w2 path (summary_file i) with
        | Err e => (Err e, w2)
        | Ok _ =>
            (Ok {| saved := true; filePath := Some path |},
             store_file path (summary_file i) w2)
        end
    end.
Proof.
  intros H. unfold conditionalSaveStep_execute. rewrite H.
  unfold bind, Date_now, fs_mkdir, fs_writeFile, log_event, ret, bind.
  fold (summary_path (sv_title i) (now w)).
  fold (summary_dir (sv_title i) (now w)).
  cbv zeta.
  destruct (disk_mkdir env _ (summary_dir (sv_title i) (now w))) as [[]|e];
    [|reflexivity].
  destruct (disk_writeFile env _ (summary_path (sv_title i) (now w)) (summary_file i))
    as [[]|e]; reflexivity.
Qed.

(** The save step returns one of the two declared shapes. *)
Lemma conditionalSaveStep_execute_shape i mm w o w' :
  conditionalSaveStep_execute i mm env w = (Ok o, w') ->
  o = {| saved := false; filePath := None |}
  \/ exists path, o = {| saved := true; filePath := Some path |}.
Proof.
  destruct (num_lt (score i) threshold) eqn:H.
  - rewrite conditionalSaveStep_execute_skip by assumption.
    intros [= <- <-]. left. reflexivity.
  - rewrite conditionalSaveStep_execute_persist by assumption. cbv zeta.
    destruct (disk_mkdir env _ _) as [[]|e]; [|discriminate].
    destruct (disk_writeFile env _ _ _) as [[]|e]; [|discriminate].
    intros [= <- <-]. right. eexists. reflexivity.
Qed.

End SaveAndCritique.

Section MappingFailures.



End MappingFailures.

(* ================================================================== *)
(** * The claims *)
(* ================================================================== *)

(** C1.  In every run that reaches the conditional-save stage with a
    critique score [n]: if [n >= 7], the persistence collaborator is
    invoked (the directory is asked for first), and once the disk has
    accepted the directory and the file the run has succeeded with
    [{saved: true, filePath}], the file holding the summary; if [n < 7],
    nothing is asked of the disk, and the run has succeeded, without a
    failure, with [{saved: false}] and no [filePath]. *)
Theorem C1_save_iff_score_reaches_threshold
  (env : Env) (w0 : World) (input : value) i f w1 s w2 c w3 (n : number)
  (Hinput : fetch_input env input = Some i)
  (Hfetch : fetchStep_execute i mastra env w0 = (Ok f, w1))
  (Hsummary : agent_generate summarizerAgent (summarize_prompt f) env w1 = (Ok s, w2))
  (Hcritique : critiqueStep_execute (critique_record f s) mastra env w2 = (Ok c, w3))
  (Hscore : get_prop c "score" = Ok (VNum n)) :
  let path := summary_path (title f) (now w3) in
  let dir := summary_dir (title f) (now w3) in
  let file := summary_file (save_record f s n) in
  let asked_dir := record_event (EvMkdir dir) w3 in
  let asked_file := record_event (EvWriteFile path file) asked_dir in
  let result := run mastra summarizeWorkflow input env w0 in
  (num_le threshold n = true ->
   (exists later, trace (snd result) = trace w3 ++ EvMkdir dir :: later)
   /\ (disk_mkdir env asked_dir dir = Ok tt ->
       disk_writeFile env asked_file path file = Ok tt ->
       status (fst result) = succeeded
       /\ terminalOutput (fst result)
          = Some (VObj [(lit "saved", VBool true); (lit "filePath", VStr path)])
       /\ snd result = store_file path file asked_file
       /\ files (snd result) !! path = Some file))
  /\ (num_lt n threshold = true ->
      status (fst result) = succeeded
      /\ run_failure (fst result) = None
      /\ terminalOutput (fst result) = Some (VObj [(lit "saved", VBool false)])
      /\ snd result = w3).
Proof.
  intros path dir file asked_dir asked_file result.
  assert (Hrun : result
                 = let '(o, w') :=
                     run_stage mastra (Some map_critique_to_save, conditionalSaveStep)
                       (after_critique f s c) env w3 in
                   (finish o, w')).
  { unfold result. eapply run_to_save; eassumption. }
  rewrite stage_save, Hscore in Hrun.
  split.
  - intros Hge.
    rewrite (num_le_not_nan _ _ Hge) in Hrun.
    rewrite conditionalSaveStep_execute_persist in Hrun
      by (apply num_le_not_lt; exact Hge).
    cbv zeta in Hrun. cbn [save_record sv_title] in Hrun.
    fold path dir in Hrun. fold asked_dir in Hrun.
    fold file in Hrun. fold asked_file in Hrun.
    split.
    + destruct (disk_mkdir env asked_dir dir) as [[]|e].
      * destruct (disk_writeFile env asked_file path file) as [[]|e];
          rewrite Hrun; cbn [snd]; eexists;
          unfold store_file, asked_file, asked_dir, record_event; cbn [trace];
          rewrite <- app_assoc; reflexivity.
      * rewrite Hrun. cbn [snd]. exists [].
        unfold asked_dir, record_event. reflexivity.
    + intros Hd Hf. rewrite Hd, Hf in Hrun. rewrite Hrun. cbn [fst snd].
      repeat split. unfold store_file. cbn [files]. apply lookup_insert_eq.
  - intros Hlt.
    rewrite (num_lt_not_nan _ _ Hlt) in Hrun.
    rewrite conditionalSaveStep_execute_skip in Hrun by exact Hlt.
    rewrite Hrun. repeat split.
Qed.

(** The boundary, on the test double: a critic's score of exactly 7 is
    saved, a score of 6.99 is not, and the disk is asked accordingly. *)
Lemma C1_threshold_boundary_witness :
  let at_7 :=
    run mastra summarizeWorkflow (url_input example_url)
      (example_env true (judgment "7")) example_world in
  let below_7 :=
    run mastra summarizeWorkflow (url_input example_url)
      (example_env true (judgment "6.99")) example_world in
  (status (fst at_7) = succeeded
   /\ terminalOutput (fst at_7)
      = Some (VObj [(lit "saved", VBool true);
                    (lit "filePath",
                     VStr (lit "workspace/summaries/example-1772032983320.md"))])
   /\ files (snd at_7) !! lit "workspace/summaries/example-1772032983320.md"
      = Some (lit "# Example" ++ LF ++ LF ++ lit "> Source: https://example.com"
                ++ LF ++ LF ++ lit "A summary." ++ LF))
  /\ (status (fst below_7) = succeeded
      /\ terminalOutput (fst below_7) = Some (VObj [(lit "saved", VBool false)])
      /\ files (snd below_7) = ∅).
Proof.
  cbv zeta. split.
  - edestruct (C1_save_iff_score_reaches_threshold
                 (example_env true (judgment "7")) example_world
                 (url_input example_url)) as [Hge _];
      [vm_compute; reflexivity ..|].
    destruct Hge as [_ Hsaved]; [vm_compute; reflexivity|].
    destruct Hsaved as (Hs & Ht & _ & Hf); [reflexivity | reflexivity |].
    split; [exact Hs|]. split.
    + rewrite Ht. vm_compute. reflexivity.
    + etransitivity; [|etransitivity; [exact Hf|]]; vm_compute; reflexivity.
  - edestruct (C1_save_iff_score_reaches_threshold
                 (example_env true (judgment "6.99")) example_world
                 (url_input example_url)) as [_ Hlt];
      [vm_compute; reflexivity ..|].
    destruct Hlt as (Hs & _ & Ht & Hw); [vm_compute; reflexivity|].
    split; [exact Hs|]. split; [exact Ht|].
    rewrite Hw. reflexivity.
Defined.

(** C2.  Every failed run of a workflow stopped at one of its stages:
    the stages before it completed and are in the log, and no stage
    declared after it was invoked.  In every run in which a stage fails,
    after the stages before it completed, the run is failed with a stage
    error carrying the failing stage's declared name; the stages invoked
    are those up to the failing one, and the world is left as the
    failing stage left it: nothing declared after it ran and the stage
    was not retried.  In particular, when the response to the fetch is
    not ok, the run of the summarize workflow is failed at fetch-page
    with the error naming the url and the status, and the fetch is the
    only call made. *)
Theorem C2_fail_fast_at_failing_stage :
  (forall (wf : Workflow) (input : value) (env : Env) (w : World),
      let result := run mastra wf input env w in
      status (fst result) = failed ->
      exists before st after,
        stages wf = before ++ st :: after
        /\ List.map fst (run_log (fst result)) = List.map stage_name before
        /\ terminalOutput (fst result) = None
        /\ ((exists e,
               run_failure (fst result) = Some (StageError (stage_name st) e)
               /\ invoked (fst result) = List.map stage_name before ++ [stage_name st])
            \/ (exists source e,
                  run_failure (fst result)
                  = Some (MappingError source (stage_name st) e)
                  /\ invoked (fst result) = List.map stage_name before)))
  /\ (forall (wf : Workflow) (input : value) (env : Env) (w : World)
          before st after p1 w1 x w1' e w2,
      stages wf = before ++ st :: after ->
      advance mastra before (start input) env w = (Running p1, w1) ->
      mapped_input st p1 env w1 = (Ok x, w1') ->
      execute (snd st) x (log p1) mastra env w1' = (Err e, w2) ->
      let result := run mastra wf input env w in
      status (fst result) = failed
      /\ run_failure (fst result) = Some (StageError (stage_name st) e)
      /\ terminalOutput (fst result) = None
      /\ invoked (fst result) = List.map stage_name before ++ [stage_name st]
      /\ List.map fst (run_log (fst result)) = List.map stage_name before
      /\ snd result = w2)
  /\ (forall (env : Env) (w : World) (input : value) i res,
         fetch_input env input = Some i ->
         net_fetch env (record_event (EvFetch (in_url i)) w) (in_url i) = Ok res ->
         res_ok res = false ->
         let result := run mastra summarizeWorkflow input env w in
         status (fst result) = failed
         /\ run_failure (fst result)
            = Some (StageError "fetch-page"
                      (Exn "Error"
                         (lit "Failed to fetch " ++ in_url i ++ lit ": "
                            ++ number_to_string (number_of_Z (Z.of_N (res_status res))))))
         /\ invoked (fst result) = ["fetch-page"%string]
         /\ run_log (fst result) = []
         /\ trace (snd result) = trace w ++ [EvFetch (in_url i)]
         /\ files (snd result) = files w).
Proof.
  split; [|split].
  - intros wf input env w result Hfailed. unfold result, run in *.
    destruct (advance mastra (stages wf) (start input) env w) as [[p|f l i] w'] eqn:E;
      [discriminate|].
    apply advance_Stopped in E as (before & st & after & p1 & w1 & Hst & Hb & Hs).
    apply advance_Running in Hb as [Hinv Hlog].
    apply run_stage_Stopped in Hs as [-> Hs].
    exists before, st, after. cbn [fst finish run_log terminalOutput run_failure invoked].
    split; [exact Hst|]. split; [rewrite Hlog; reflexivity|]. split; [reflexivity|].
    destruct Hs as [(e & _ & -> & ->) | (x & w0 & e & _ & _ & -> & ->)].
    + right. exists (prev p1), e. rewrite Hinv. split; reflexivity.
    + left. exists e. rewrite Hinv. split; reflexivity.
  - intros wf input env w before st after p1 w1 x w1' e w2 Hst Hbefore Hmap Hexec result.
    assert (Hstop : run_stage mastra st p1 env w1
                    = (Stopped (StageError (stage_name st) e) (log p1)
                         (inv p1 ++ [stage_name st]), w2)).
    { unfold run_stage. rewrite Hmap, Hexec. reflexivity. }
    assert (Hrun : result
                   = (finish (Stopped (StageError (stage_name st) e) (log p1)
                                (inv p1 ++ [stage_name st])), w2)).
    { unfold result, run. rewrite Hst.
      rewrite (advance_fail_fast mastra before st after _ env w p1 w1 _ _ _ w2 Hbefore Hstop).
      reflexivity. }
    apply advance_Running in Hbefore as [Hinv Hlog].
    rewrite Hrun. cbn [fst snd finish status run_failure terminalOutput invoked run_log].
    rewrite Hinv, Hlog. repeat split.
  - intros env w input i res Hi Hres Hok result.
    assert (Hrun : result
                   = (finish (Stopped (StageError "fetch-page"
                                         (fetch_failed (in_url i) (res_status res)))
                                [] ["fetch-page"%string]),
                      record_event (EvFetch (in_url i)) w)).
    { unfold result. rewrite run_summarizeWorkflow, stage_fetch, Hi.
      rewrite (fetchStep_execute_not_ok i mastra env w res Hres Hok). reflexivity. }
    rewrite Hrun. repeat split.
Qed.

(** Fail-fast on the test double: the page is refused with status 404;
    the run is failed at fetch-page and neither the summarizer, nor the
    critic, nor the disk is called. *)
Lemma C2_refused_page_witness :
  let result :=
    run mastra summarizeWorkflow (url_input example_url)
      (example_env false (judgment "8")) example_world in
  status (fst result) = failed
  /\ run_failure (fst result)
     = Some (StageError "fetch-page"
               (Exn "Error" (lit "Failed to fetch https://example.com: 404")))
  /\ invoked (fst result) = ["fetch-page"%string]
  /\ trace (snd result) = [EvFetch example_url].
Proof.
  cbv zeta.
  destruct C2_fail_fast_at_failing_stage as (_ & Hany & Hfetch).
  pose proof (Hfetch (example_env false (judgment "8")) example_world
                (url_input example_url) {| in_url := example_url |}
                {| res_ok := false; res_status := 404; res_text := Ok example_html |}
                eq_refl eq_refl eq_refl) as (Hs & Hf & Hi & _ & Ht & _).
  pose proof (Hany summarizeWorkflow (url_input example_url)
                (example_env false (judgment "8")) example_world
                [] (None, fetchStep)
                [(Some map_fetch_to_summarize, summarizeStep);
                 (Some map_summarize_to_critique, critiqueStep);
                 (Some map_critique_to_save, conditionalSaveStep)]
                (start (url_input example_url)) example_world
                (url_input example_url) example_world
                (fetch_failed example_url 404)
                (record_event (EvFetch example_url) example_world)
                eq_refl eq_refl eq_refl eq_refl) as (_ & _ & _ & Hi' & _).
  split; [exact Hs|]. split; [rewrite Hf; vm_compute; reflexivity|].
  split; [exact Hi'|]. exact Ht.
Defined.

(** C3, as stated, fails on the text of the fallback: for a critic's
    reply that is not JSON the issues of the critique are the list
    ['Could not parse critique'], not ['could not parse']. *)
Lemma C3_fallback_issue_text_counterexample :
  JSON_parse (lit "not json") = None
  /\ exists (v : value) (w' : World),
       critiqueStep_execute
         (critique_record (fetched example_html example_url) (lit "A summary."))
         mastra (example_env true (lit "not json")) example_world
       = (Ok v, w')
       /\ get_prop v "score" = Ok (VNum (number_of_Z 5))
       /\ get_prop v "issues" = Ok (VArr [VStr (lit "Could not parse critique")])
       /\ get_prop v "issues" <> Ok (VArr [VStr (lit "could not parse")]).
Proof.
  split; [vm_compute; reflexivity|].
  eexists. eexists. split; [vm_compute; reflexivity|].
  split; [vm_compute; reflexivity|].
  split; [vm_compute; reflexivity|].
  vm_compute. discriminate.
Qed.

(** C3, amended.  When the critic's reply is not parseable as JSON, the
    critique stage does not fail: it returns the fallback judgment with
    score 5, issues ['Could not parse critique'] and an empty
    suggestion; the run continues to conditional-save, which is invoked,
    skips the save (5 is below the threshold), and the run succeeds with
    [{saved: false}]. *)
Theorem C3_unparseable_critique_falls_back
  (env : Env) (w0 : World) (input : value) i f w1 s w2 (t : jsstring)
  (Hinput : fetch_input env input = Some i)
  (Hfetch : fetchStep_execute i mastra env w0 = (Ok f, w1))
  (Hsummary : agent_generate summarizerAgent (summarize_prompt f) env w1 = (Ok s, w2))
  (Hreply : llm_generate env
              (record_event (EvGenerate "critic" (critique_prompt (critique_record f s))) w2)
              "critic" (critique_prompt (critique_record f s))
            = Ok t)
  (Hbad : JSON_parse t = None) :
  let w3 := record_event (EvGenerate "critic" (critique_prompt (critique_record f s))) w2 in
  let fallback :=
    VObj [(lit "score", VNum (number_of_Z 5));
          (lit "issues", VArr [VStr (lit "Could not parse critique")]);
          (lit "suggestion", VStr [])] in
  let result := run mastra summarizeWorkflow input env w0 in
  critiqueStep_execute (critique_record f s) mastra env w2 = (Ok fallback, w3)
  /\ status (fst result) = succeeded
  /\ invoked (fst result)
     = ["fetch-page"; "summarizer"; "critique"; "conditional-save"]%string
  /\ lookup_name "critique" (run_log (fst result)) = Some fallback
  /\ terminalOutput (fst result) = Some (VObj [(lit "saved", VBool false)])
  /\ snd result = w3.
Proof.
  intros w3 fallback result.
  assert (Hc : critiqueStep_execute (critique_record f s) mastra env w2
               = (Ok critique_fallback, w3)).
  { rewrite critiqueStep_execute_eq. cbv zeta. rewrite Hreply, Hbad. reflexivity. }
  split; [exact Hc|].
  assert (Hrun : result
                 = (finish (Running (after_save f s critique_fallback
                                       {| saved := false; filePath := None |})), w3)).
  { unfold result.
    rewrite (run_to_save env input w0 i f w1 s w2 critique_fallback w3
               Hinput Hfetch Hsummary Hc).
    rewrite stage_save.
    change (get_prop critique_fallback "score") with (Ok (VNum (number_of_Z 5))).
    change (is_nan (number_of_Z 5)) with false. cbv iota.
    rewrite conditionalSaveStep_execute_skip by reflexivity. reflexivity. }
  rewrite Hrun. repeat split.
Qed.

(** The fallback on the test double, for the reply [not json]. *)
Lemma C3_fallback_witness :
  let result :=
    run mastra summarizeWorkflow (url_input example_url)
      (example_env true (lit "not json")) example_world in
  status (fst result) = succeeded
  /\ terminalOutput (fst result) = Some (VObj [(lit "saved", VBool false)])
  /\ invoked (fst result)
     = ["fetch-page"; "summarizer"; "critique"; "conditional-save"]%string.
Proof.
  cbv zeta.
  edestruct (C3_unparseable_critique_falls_back
               (example_env true (lit "not json")) example_world
               (url_input example_url))
    as (_ & Hs & Hi & _ & Ht & _); [vm_compute; reflexivity ..|].
  split; [exact Hs|]. split; [exact Ht | exact Hi].
Defined.



(** C5, as stated, fails: the critique stage hands on the score that
    the critic wrote; for the reply [{"score": 42, ...}] the output's
    score is 42, above 10. *)
Lemma C5_score_out_of_range_counterexample :
  exists (v : value) (w' : World),
    critiqueStep_execute
      (critique_record (fetched example_html example_url) (lit "A summary."))
      mastra (example_env true (judgment "42")) example_world
    = (Ok v, w')
    /\ get_prop v "score" = Ok (VNum (number_of_Z 42))
    /\ num_lt (number_of_Z 10) (number_of_Z 42) = true
    /\ ~ score_in_range v.
Proof.
  eexists. eexists. split; [vm_compute; reflexivity|].
  split; [vm_compute; reflexivity|]. split; [vm_compute; reflexivity|].
  intros (n & Hn & _ & Hle). vm_compute in Hn. injection Hn as <-.
  vm_compute in Hle. discriminate.
Qed.

(** C5, amended.  The output of the critique stage is the value parsed
    from the critic's reply, or the fallback judgment when the reply
    does not parse; no range is enforced on the score: it is between 0
    and 10 exactly when the reply does not parse (the fallback's score
    is 5) or the parsed value already has such a score. *)
Theorem C5_critique_score_as_replied
  (env : Env) (w : World) (i : CritiqueInput) (t : jsstring)
  (Hreply : llm_generate env
              (record_event (EvGenerate "critic" (critique_prompt i)) w)
              "critic" (critique_prompt i)
            = Ok t) :
  exists out,
    critiqueStep_execute i mastra env w
    = (Ok out, record_event (EvGenerate "critic" (critique_prompt i)) w)
    /\ out = match JSON_parse t with
             | Some v => v
             | None => critique_fallback
             end
    /\ get_prop critique_fallback "score" = Ok (VNum (number_of_Z 5))
    /\ (score_in_range out <->
        match JSON_parse t with
        | Some v => score_in_range v
        | None => True
        end).
Proof.
  eexists. split.
  { rewrite critiqueStep_execute_eq. cbv zeta. rewrite Hreply. reflexivity. }
  split; [reflexivity|]. split; [reflexivity|].
  destruct (JSON_parse t) as [v|]; [reflexivity|].
  split; [trivial|]. intros _.
  exists (number_of_Z 5). repeat split.
Qed.

(** On the test double: a critic that replies with a score of 8 gets
    that score through, and it is in range. *)
Lemma C5_score_as_replied_witness :
  exists out w',
    critiqueStep_execute
      (critique_record (fetched example_html example_url) (lit "A summary."))
      mastra (example_env true (judgment "8")) example_world
    = (Ok out, w')
    /\ get_prop out "score" = Ok (VNum (number_of_Z 8))
    /\ score_in_range out.
Proof.
  destruct (C5_critique_score_as_replied
              (example_env true (judgment "8")) example_world
              (critique_record (fetched example_html example_url) (lit "A summary."))
              (judgment "8") eq_refl)
    as (out & Hexec & Hout & _ & Hrange).
  exists out. eexists. split; [exact Hexec|].
  assert (Hparse : JSON_parse (judgment "8")
                   = Some (VObj [(lit "score", VNum (number_of_Z 8));
                                 (lit "issues", VArr []);
                                 (lit "suggestion", VStr [])]))
    by (vm_compute; reflexivity).
  rewrite Hparse in Hout, Hrange. subst out.
  split; [vm_compute; reflexivity|].
  exists (number_of_Z 8). repeat split; vm_compute; reflexivity.
Defined.

(** C6.  A run of the summarize workflow in which all four stages
    completed (each has its output in the log) has succeeded; its
    terminal output is the last recorded output, that of
    conditional-save, and has the declared shape: [{saved: false}] or
    [{saved: true, filePath: <string>}]. *)
Theorem C6_completed_run_succeeds (env : Env) (w : World) (input : value)
  (Hall : List.map fst (run_log (fst (run mastra summarizeWorkflow input env w)))
          = List.map stage_name (stages summarizeWorkflow)) :
  let result := run mastra summarizeWorkflow input env w in
  status (fst result) = succeeded
  /\ run_failure (fst result) = None
  /\ terminalOutput (fst result) = last_output (run_log (fst result))
  /\ exists out,
       terminalOutput (fst result) = Some out
       /\ lookup_name "conditional-save" (run_log (fst result)) = Some out
       /\ zod_parse (url_ok env) save_output_schema out = Some out
       /\ (out = VObj [(lit "saved", VBool false)]
           \/ exists path,
                out = VObj [(lit "saved", VBool true); (lit "filePath", VStr path)]).
Proof.
  intros result. unfold result. revert Hall.
  rewrite run_summarizeWorkflow, stage_fetch.
  destruct (fetch_input env input) as [i|]; [|discriminate].
  destruct (fetchStep_execute i mastra env w) as [[f|e] w1]; [|discriminate].
  rewrite stage_summarize.
  destruct (agent_generate summarizerAgent (summarize_prompt f) env w1)
    as [[s|e] w2]; [|discriminate].
  rewrite stage_critique.
  destruct (critiqueStep_execute (critique_record f s) mastra env w2)
    as [[c|e] w3]; [|discriminate].
  rewrite stage_save.
  destruct (get_prop c "score") as [sc|e]; [|discriminate].
  destruct sc as [| |b|n|x|l|l]; try discriminate.
  destruct (is_nan n); [discriminate|].
  destruct (conditionalSaveStep_execute (save_record f s n) mastra env w3)
    as [[o|e] w4] eqn:Ho; [|discriminate].
  intros _. cbn [fst finish status run_failure terminalOutput run_log].
  repeat split.
  exists (encode_SaveOutput o). repeat split.
  - apply conditionalSaveStep_execute_shape in Ho as [-> | [path ->]]; reflexivity.
  - apply conditionalSaveStep_execute_shape in Ho as [-> | [path ->]];
      [left | right; exists path]; reflexivity.
Qed.

(** A completed run on the test double. *)
Lemma C6_completed_run_witness :
  let result :=
    run mastra summarizeWorkflow (url_input example_url)
      (example_env true (judgment "3")) example_world in
  status (fst result) = succeeded
  /\ terminalOutput (fst result) = Some (VObj [(lit "saved", VBool false)])
  /\ List.map fst (run_log (fst result))
     = ["fetch-page"; "summarizer"; "critique"; "conditional-save"]%string.
Proof.
  cbv zeta.
  assert (Hall : List.map fst (run_log (fst (run mastra summarizeWorkflow
                    (url_input example_url) (example_env true (judgment "3"))
                    example_world)))
                 = List.map stage_name (stages summarizeWorkflow))
    by (vm_compute; reflexivity).
  pose proof (C6_completed_run_succeeds _ _ _ Hall) as (Hs & _ & Ht & _).
  split; [exact Hs|]. split; [rewrite Ht; vm_compute; reflexivity|].
  rewrite Hall. reflexivity.
Defined.

(** C7.  In every succeeded run the log holds the fetch result [f], the
    summary [s] and the critique [c]; the mapping before conditional-save
    reads the fetch result and the summary from the run context by stage
    name, and the stage receives the critique's score, the summarizer's
    text as summary, and the title and url that the fetch recorded; when
    the stage saves, the stored file is made of that title, that url and
    that summary. *)
Theorem C7_save_receives_recorded_outputs
  (env : Env) (w : World) (input : value) (r : Run) (w' : World)
  (Hrun : run mastra summarizeWorkflow input env w = (r, w'))
  (Hok : status r = succeeded) :
  exists (f : FetchStepOutput) (s : jsstring) (c : value) (n : number)
         (o : SaveOutput) (w3 : World),
    let received :=
      VObj [(lit "score", VNum n); (lit "summary", VStr s);
            (lit "title", VStr (title f)); (lit "url", VStr (url f))] in
    run_log r = [("fetch-page"%string, encode_FetchStepOutput f);
                 ("summarizer"%string, VObj [(lit "text", VStr s)]);
                 ("critique"%string, c);
                 ("conditional-save"%string, encode_SaveOutput o)]
    /\ get_prop c "score" = Ok (VNum n)
    /\ getStepResult (log (after_critique f s c)) "fetch-page"
       = encode_FetchStepOutput f
    /\ getStepResult (log (after_critique f s c)) "summarizer"
       = VObj [(lit "text", VStr s)]
    /\ map_critique_to_save c (log (after_critique f s c)) env w3 = (Ok received, w3)
    /\ execute conditionalSaveStep received (log (after_critique f s c)) mastra env w3
       = (Ok (encode_SaveOutput o), w')
    /\ (saved o = true ->
        exists path,
          filePath o = Some path
          /\ files w' !! path
             = Some (lit "# " ++ title f ++ LF ++ LF ++ lit "> Source: " ++ url f
                       ++ LF ++ LF ++ s ++ LF)).
Proof.
  destruct (run_succeeded_inv env input w r w' Hrun Hok)
    as (i & f & w1 & s & w2 & c & w3 & n & o & Hi & Hf & Hs & Hc & Hsc & Hn & Ho & ->).
  exists f, s, c, n, o, w3. cbv zeta.
  split; [reflexivity|]. split; [exact Hsc|].
  split; [reflexivity|]. split; [reflexivity|].
  split.
  { rewrite (map_critique_to_save_score c s f) by reflexivity.
    rewrite Hsc. reflexivity. }
  split.
  { unfold conditionalSaveStep. cbn [createStep execute].
    change (VObj [(lit "score", VNum n); (lit "summary", VStr s);
                  (lit "title", VStr (title f)); (lit "url", VStr (url f))])
      with (save_input (VNum n) s f).
    rewrite validate_save_input, Hn. fold (save_record f s n).
    rewrite Ho. reflexivity. }
  intros Hsaved.
  destruct (num_lt (score (save_record f s n)) threshold) eqn:Hlt.
  - rewrite conditionalSaveStep_execute_skip in Ho by assumption.
    injection Ho as <- <-. discriminate.
  - rewrite conditionalSaveStep_execute_persist in Ho by assumption.
    cbv zeta in Ho.
    destruct (disk_mkdir env _ _) as [[]|e]; [|discriminate].
    destruct (disk_writeFile env _ _ _) as [[]|e]; [|discriminate].
    injection Ho as <- <-. eexists. split; [reflexivity|].
    unfold store_file. cbn [files]. apply lookup_insert_eq.
Qed.

(** On the test double: the file saved for a score of 8 carries the
    title and the url of the fetch and the summarizer's text. *)
Lemma C7_saved_file_witness :
  let result :=
    run mastra summarizeWorkflow (url_input example_url)
      (example_env true (judgment "8")) example_world in
  status (fst result) = succeeded
  /\ files (snd result) !! lit "workspace/summaries/example-1772032983320.md"
     = Some (lit "# Example" ++ LF ++ LF ++ lit "> Source: https://example.com"
               ++ LF ++ LF ++ lit "A summary." ++ LF).
Proof.
  cbv zeta.
  destruct (C7_save_receives_recorded_outputs
              (example_env true (judgment "8")) example_world
              (url_input example_url) _ _ (surjective_pairing _))
    as (f & s & c & n & o & w3 & Hlog & _).
  { vm_compute. reflexivity. }
  split; vm_compute; reflexivity.
Defined.

(** C8.  Each of the three mappings of the summarize workflow is
    deterministic: whatever the collaborators and the world, the same
    input data and the same run context give the same result, and the
    world is left unchanged. *)
Theorem C8_mappings_deterministic :
  mappings_of summarizeWorkflow
  = [map_fetch_to_summarize; map_summarize_to_critique; map_critique_to_save]
  /\ Forall deterministic (mappings_of summarizeWorkflow).
Proof.
  split; [reflexivity|].
  change (mappings_of summarizeWorkflow)
    with [map_fetch_to_summarize; map_summarize_to_critique; map_critique_to_save].
  apply List.Forall_cons; [|apply List.Forall_cons; [|apply List.Forall_cons;
    [|apply List.Forall_nil]]]; intros inputData ctx env1 w1 env2 w2.
  - unfold map_fetch_to_summarize, bind, lift, ret.
    destruct (get_prop inputData "title") as [t|e]; [|split; reflexivity].
    destruct (to_string t) as [ts|e]; [|split; reflexivity].
    destruct (get_prop inputData "content") as [c|e]; [|split; reflexivity].
    destruct (to_string c) as [cs|e]; split; reflexivity.
  - unfold map_summarize_to_critique, bind, lift, ret.
    destruct (get_prop inputData "text") as [t|e]; [|split; reflexivity].
    destruct (get_prop (getStepResult ctx "fetch-page") "title") as [ti|e];
      [|split; reflexivity].
    destruct (get_prop (getStepResult ctx "fetch-page") "url") as [u|e];
      split; reflexivity.
  - unfold map_critique_to_save, bind, lift, ret.
    destruct (get_prop inputData "score") as [sc|e]; [|split; reflexivity].
    destruct (get_prop (getStepResult ctx "summarizer") "text") as [t|e];
      [|split; reflexivity].
    destruct (get_prop (getStepResult ctx "fetch-page") "title") as [ti|e];
      [|split; reflexivity].
    destruct (get_prop (getStepResult ctx "fetch-page") "url") as [u|e];
      split; reflexivity.
Qed.

(** C9.  For every page that [fetchStep] or [fetchPageTool] fetches, the
    words of the returned content are the first 8000 words of the
    stripped text, so at most 8000, and the returned word count is the
    number of words of the whole stripped text; a page of 8001 words
    comes back with a word count of 8001 and a content of 8000 words. *)
Theorem C9_content_truncated_wordCount_full :
  (forall env w i mm out w',
      fetchStep_execute i mm env w = (Ok out, w') ->
      exists res html,
        net_fetch env (record_event (EvFetch (in_url i)) w) (in_url i) = Ok res
        /\ res_ok res = true
        /\ res_text res = Ok html
        /\ split_ws (content out) = take 8000 (split_ws (page_text html))
        /\ (word_count (content out) <= 8000)%nat
        /\ wordCount out = word_count (page_text html)
        /\ word_count (content out) = Nat.min 8000 (wordCount out))
  /\ (forall env w u out w',
         fetchPageTool_execute u env w = (Ok out, w') ->
         exists res html,
           net_fetch env (record_event (EvFetch u) w) u = Ok res
           /\ res_ok res = true
           /\ res_text res = Ok html
           /\ split_ws (tool_content out) = take 8000 (split_ws (page_text html))
           /\ (word_count (tool_content out) <= 8000)%nat
           /\ tool_wordCount out = word_count (page_text html)
           /\ word_count (tool_content out) = Nat.min 8000 (tool_wordCount out))
  /\ (exists env w i out w',
         fetchStep_execute i mastra env w = (Ok out, w')
         /\ wordCount out = 8001%nat
         /\ word_count (content out) = 8000%nat).
Proof.
  split; [|split].
  - intros env w i mm out w' H.
    apply fetchStep_execute_Ok in H as (res & html & Hres & Hok & Ht & _ & ->).
    exists res, html. cbn [fetched content wordCount].
    split; [assumption|]. split; [assumption|]. split; [assumption|].
    split; [apply truncate_words_split|].
    split; [rewrite word_count_truncate; apply Nat.le_min_l|].
    split; [reflexivity | apply word_count_truncate].
  - intros env w u out w' H.
    apply fetchPageTool_execute_Ok in H
      as (res & html & Hres & Hok & Ht & _ & -> & _ & ->).
    exists res, html. cbn [fetched content wordCount].
    split; [assumption|]. split; [assumption|]. split; [assumption|].
    split; [apply truncate_words_split|].
    split; [rewrite word_count_truncate; apply Nat.le_min_l|].
    split; [reflexivity | apply word_count_truncate].
  - exists long_page_env, example_world, {| in_url := example_url |},
      (fetched long_page example_url),
      (record_event (EvFetch example_url) example_world).
    split; [reflexivity|].
    split; vm_compute; reflexivity.
Qed.

(** C10.  The title that [fetchStep] and [fetchPageTool] return for a
    fetched page is the request url when the page has no title element
    (an opening [<title ...>], a non-empty text without [<], and
    [</title>], whatever the case of the letters), and the trimmed text
    of the leftmost title element otherwise. *)
Theorem C10_title_or_url :
  (forall html u,
      ((forall before g, ~ title_element html before g) -> page_title html u = u)
      /\ (forall before g,
             title_element html before g ->
             (forall before' g', title_element html before' g' ->
                                 (length before <= length before')%nat) ->
             page_title html u = trim g)
      /\ ((forall before g, ~ title_element html before g)
          \/ exists before g,
               title_element html before g
               /\ forall before' g', title_element html before' g' ->
                                     (length before <= length before')%nat))
  /\ (forall env w i mm out w',
         fetchStep_execute i mm env w = (Ok out, w') ->
         exists res html,
           net_fetch env (record_event (EvFetch (in_url i)) w) (in_url i) = Ok res
           /\ res_ok res = true
           /\ res_text res = Ok html
           /\ title out = page_title html (in_url i))
  /\ (forall env w u out w',
         fetchPageTool_execute u env w = (Ok out, w') ->
         exists res html,
           net_fetch env (record_event (EvFetch u) w) u = Ok res
           /\ res_ok res = true
           /\ res_text res = Ok html
           /\ tool_title out = page_title html u).
Proof.
  split; [|split].
  - intros html u.
    split; [apply page_title_no_element|].
    split; [apply page_title_first_element|].
    destruct (match_title html) as [g|] eqn:E.
    + right. apply match_title_Some in E as (before & Hel & Hmin).
      exists before, g. split; assumption.
    + left. apply match_title_None. assumption.
  - intros env w i mm out w' H.
    apply fetchStep_execute_Ok in H as (res & html & Hres & Hok & Ht & _ & ->).
    exists res, html. repeat split; assumption.
  - intros env w u out w' H.
    apply fetchPageTool_execute_Ok in H
      as (res & html & Hres & Hok & Ht & _ & _ & -> & _).
    exists res, html. repeat split; assumption.
Qed.

(** The two cases on the test double: the example page has its title
    element after [<html><head>], and its title is [Example]; a page
    without a title element gets the url. *)
Lemma C10_example_title_witness :
  page_title example_html example_url = lit "Example"
  /\ page_title (lit "<p>no title</p>") example_url = example_url.
Proof.
  destruct C10_title_or_url as [Hpage _].
  split.
  - destruct (Hpage example_html example_url) as (_ & Hfirst & _).
    change (lit "Example") with (trim (lit " Example ")).
    apply (Hfirst (lit "<html><head>") (lit " Example ")).
    + exists (lit "<title"), [], (lit "</title>"),
        (lit "<style>p{}</style></head><body><p>Hello   world</p><script>var a;</script></body></html>").
      split; [reflexivity|].
      repeat split; try discriminate; repeat constructor.
    + intros before' g' Hel. apply title_element_offset in Hel.
      destruct (le_lt_dec (length (lit "<html><head>")) (length before'))
        as [Hle | Hlt]; [exact Hle|].
      exfalso. change (length (lit "<html><head>")) with 12%nat in Hlt.
      remember (length before') as k eqn:Hk. clear Hk.
      do 12 (destruct k as [|k]; [vm_compute in Hel; discriminate|]).
      lia.
  - destruct (Hpage (lit "<p>no title</p>") example_url) as (Hnone & _).
    apply Hnone. apply match_title_None. reflexivity.
Defined.

(* ================================================================== *)
(** * Lemmas: the slug and the path of a saved summary *)
(* ================================================================== *)

Section Replace.

Variable m : jsstring -> option nat.
Variable repl : jsstring.

(** A match in progress drops the code units it still covers. *)
Lemma replace_scan_skip (k : nat) (s : jsstring) :
  replace_scan m repl k s = replace_scan m repl 0 (drop k s).
Proof.
  revert s. induction k as [|k IH]; intros s; [reflexivity|].
  destruct s as [|c s]; [reflexivity|]. cbn [replace_scan drop]. apply IH.
Qed.

Lemma replace_all_match (c : char16) (s : jsstring) (len : nat) :
  m (c :: s) = Some (S len) ->
  replace_all m repl (c :: s) = repl ++ replace_all m repl (drop len s).
Proof.
  intros H. unfold replace_all. cbn [replace_scan]. rewrite H.
  rewrite replace_scan_skip. reflexivity.
Qed.

Lemma replace_all_copy (c : char16) (s : jsstring) :
  (m (c :: s) = None \/ m (c :: s) = Some O) ->
  replace_all m repl (c :: s) = c :: replace_all m repl s.
Proof.
  intros [H|H]; unfold replace_all; cbn [replace_scan]; rewrite H; reflexivity.
Qed.

End Replace.

Section Slug.

Lemma span_length p (s a b : jsstring) :
  span p s = (a, b) -> b = drop (length a) s.
Proof.
  intros H. destruct (span_spec _ _ _ _ H) as (-> & _ & _).
  rewrite drop_app_length. reflexivity.
Qed.

(** Replacing the runs of other characters by a hyphen: what comes out
    is made of slug characters, a hyphen never follows a hyphen, and a
    text that starts with a letter or digit keeps it. *)
Lemma hyphenate_shape (n : nat) (s : jsstring) :
  (length s <= n)%nat ->
  let r := replace_all re_non_alnum (lit "-") s in
  Forall (fun c => slug_char c = true) r
  /\ hyphens_apart r
  /\ match s with
     | c :: _ => r <> [] /\ (not_alnum c = false -> exists r', r = c :: r')
     | [] => r = []
     end.
Proof.
  revert s. induction n as [|n IH]; intros s Hlen.
  { destruct s; [|cbn in Hlen; lia]. cbn. repeat split; constructor. }
  destruct s as [|c s]; [cbn; repeat split; constructor|].
  cbv zeta. cbn [length] in Hlen.
  destruct (span not_alnum (c :: s)) as [run rest] eqn:Hspan.
  pose proof (span_spec _ _ _ _ Hspan) as (Hs & Hrun & Hrest).
  destruct run as [|r0 run].
  - (* the character is kept *)
    cbn [app] in Hs. subst rest.
    assert (Hc : not_alnum c = false) by exact Hrest.
    rewrite replace_all_copy by (left; unfold re_non_alnum; rewrite Hspan; reflexivity).
    destruct (IH s ltac:(lia)) as (Hall & Hapart & Hhead).
    split; [|split].
    + constructor; [|assumption].
      unfold slug_char. unfold not_alnum in Hc.
      apply negb_false_iff in Hc. rewrite Hc. reflexivity.
    + destruct (replace_all re_non_alnum (lit "-") s) as [|d r'] eqn:Er; [exact I|].
      cbn [hyphens_apart]. split; [|assumption].
      intros [-> _]. vm_compute in Hc. discriminate.
    + split; [discriminate|]. intros _. eexists. reflexivity.
  - (* a run is replaced *)
    cbn [app] in Hs. injection Hs as <- Hs.
    rewrite (replace_all_match _ _ _ _ (length run)).
    2:{ unfold re_non_alnum. rewrite Hspan. reflexivity. }
    assert (Hdrop : drop (length run) s = rest).
    { rewrite Hs, drop_app_length. reflexivity. }
    rewrite Hdrop.
    assert (Hlen' : (length rest <= n)%nat).
    { rewrite Hs, length_app in Hlen. lia. }
    destruct (IH rest Hlen') as (Hall & Hapart & Hhead).
    set (r := replace_all re_non_alnum (lit "-") rest) in *.
    change (lit "-" ++ r) with (45 :: r).
    split; [|split].
    + constructor; [reflexivity | assumption].
    + destruct rest as [|d rest'].
      * rewrite Hhead. exact I.
      * destruct Hhead as [_ Hhead].
        destruct (Hhead Hrest) as (r' & Er). rewrite Er in *.
        cbn [hyphens_apart]. split; [|assumption].
        intros [_ ->]. vm_compute in Hrest. discriminate.
    + split; [discriminate|].
      intros Hc. apply Forall_cons_1 in Hrun as [Hr0 _]. congruence.
Qed.

Lemma hyphens_apart_take (n : nat) (s : jsstring) :
  hyphens_apart s -> hyphens_apart (take n s).
Proof.
  revert n. induction s as [|a s IH]; intros [|n] H; try exact I.
  destruct s as [|b s]; [destruct n; exact I|].
  destruct H as [Hab H]. destruct n as [|n]; [exact I|].
  change (take (S (S n)) (a :: b :: s)) with (a :: take (S n) (b :: s)).
  change (take (S n) (b :: s)) with (b :: take n s) at 1.
  cbn [hyphens_apart]. split; [assumption|].
  apply (IH (S n)). assumption.
Qed.

Lemma slug_of_shape (title : jsstring) :
  (length (slug_of title) <= 50)%nat
  /\ Forall (fun c => slug_char c = true) (slug_of title)
  /\ hyphens_apart (slug_of title).
Proof.
  unfold slug_of.
  destruct (hyphenate_shape (length (toLowerCase title)) (toLowerCase title)
              (Nat.le_refl _)) as (Hall & Hapart & _).
  split; [rewrite length_take; lia|].
  split; [apply Forall_take; assumption | apply hyphens_apart_take; assumption].
Qed.

Lemma lower_unit_nonempty (c : char16) : lower_unit c <> [].
Proof.
  unfold lower_unit.
  repeat match goal with
         | |- context [if ?b then _ else _] => destruct b
         end; discriminate.
Qed.

Lemma slug_of_nil (title : jsstring) : slug_of title = [] <-> title = [].
Proof.
  split; [|intros ->; reflexivity].
  unfold slug_of. intros H.
  destruct title as [|c title]; [reflexivity|]. exfalso.
  destruct (toLowerCase (c :: title)) as [|d low] eqn:El.
  { unfold toLowerCase in El. cbn [flat_map] in El.
    apply app_eq_nil in El as [El _]. exact (lower_unit_nonempty _ El). }
  destruct (hyphenate_shape (length (d :: low)) (d :: low) (Nat.le_refl _))
    as (_ & _ & Hne & _).
  destruct (replace_all re_non_alnum (lit "-") (d :: low)); [congruence|].
  discriminate.
Qed.

End Slug.

Section NumberText.

Lemma digits_fuel_digits (fuel : nat) (n : N) (acc : jsstring) :
  Forall (fun c => is_digit c = true) acc ->
  Forall (fun c => is_digit c = true) (digits_fuel fuel n acc).
Proof.
  revert n acc. induction fuel as [|fuel IH]; intros n acc Hacc; [assumption|].
  cbn [digits_fuel].
  assert (Hd : is_digit (48 + n mod 10) = true).
  { unfold is_digit. pose proof (N.mod_lt n 10 ltac:(discriminate)).
    apply andb_true_iff. split; apply N.leb_le; [apply N.le_add_r | lia]. }
  destruct (n / 10 =? 0).
  - constructor; assumption.
  - apply IH. constructor; assumption.
Qed.

Lemma decimal_digits (n : N) : Forall (fun c => is_digit c = true) (decimal n).
Proof. apply digits_fuel_digits. constructor. Qed.

Lemma digit_number_char (c : char16) : is_digit c = true -> number_char c = true.
Proof. intros H. unfold number_char. rewrite H. reflexivity. Qed.

Lemma decimal_number_chars (n : N) :
  Forall (fun c => number_char c = true) (decimal n).
Proof.
  eapply Forall_impl; [apply decimal_digits|]. apply digit_number_char.
Qed.

Lemma zeros_number_chars (n : Z) : Forall (fun c => number_char c = true) (zeros n).
Proof.
  unfold zeros. apply List.Forall_forall. intros c Hc.
  apply repeat_spec in Hc. subst. reflexivity.
Qed.

Ltac number_chars :=
  repeat first
    [ apply Forall_app_2
    | apply decimal_number_chars
    | apply zeros_number_chars
    | apply Forall_take
    | apply Forall_drop
    | solve [repeat constructor] ].

Lemma layout_decimal_chars (s k n : Z) :
  Forall (fun c => number_char c = true) (layout_decimal s k n).
Proof.
  unfold layout_decimal.
  repeat match goal with
         | |- context [if ?b then _ else _] => destruct b
         end; number_chars.
Qed.

Lemma positive_to_string_chars (m : positive) (e : Z) :
  Forall (fun c => number_char c = true) (positive_to_string m e).
Proof.
  unfold positive_to_string.
  destruct (bool_decide _); [apply layout_decimal_chars|].
  destruct (shortest_digits _ _ _ _ _). apply layout_decimal_chars.
Qed.

(** [Number::toString] writes digits, signs, a point, an [e], or one of
    the words [Infinity] and [NaN]. *)
Lemma number_to_string_chars (x : number) :
  Forall (fun c => number_char c = true) (number_to_string x).
Proof.
  destruct x as [s|[|]| |[|] m e]; cbn [number_to_string];
    try solve [repeat constructor].
  - apply Forall_app_2; [repeat constructor | apply positive_to_string_chars].
  - apply positive_to_string_chars.
Qed.

End NumberText.

Section SummaryPath.

Lemma not_slash_slug (c : char16) : slug_char c = true -> not_slash c = true.
Proof.
  unfold slug_char, not_slash, is_lower_az, is_digit. intros H.
  apply negb_true_iff, N.eqb_neq. intros ->. vm_compute in H. discriminate.
Qed.

Lemma not_slash_number (c : char16) : number_char c = true -> not_slash c = true.
Proof.
  intros H. apply negb_true_iff, N.eqb_neq. intros ->. vm_compute in H. discriminate.
Qed.

Lemma summary_stem_no_slash (title : jsstring) (t : N) :
  Forall (fun c => not_slash c = true) (summary_stem title t).
Proof.
  unfold summary_stem.
  destruct (slug_of_shape title) as (_ & Hslug & _).
  apply Forall_app_2.
  { eapply Forall_impl; [exact Hslug|]. apply not_slash_slug. }
  apply Forall_app_2.
  { repeat constructor. }
  eapply Forall_impl; [apply number_to_string_chars|]. apply not_slash_number.
Qed.

Lemma segments_no_slash (cur f : jsstring) :
  Forall (fun c => not_slash c = true) f -> segments cur f = [rev cur ++ f].
Proof.
  intros Hf. revert cur. induction Hf as [|c f Hc Hf IH]; intros cur.
  - cbn. rewrite app_nil_r. reflexivity.
  - cbn [segments]. unfold not_slash in Hc. unfold is_slash.
    apply negb_true_iff in Hc. rewrite Hc, IH. cbn [rev].
    rewrite <- app_assoc. reflexivity.
Qed.

Lemma segments_slash (cur a rest : jsstring) :
  Forall (fun c => not_slash c = true) a ->
  segments cur (a ++ 47 :: rest) = (rev cur ++ a) :: segments [] rest.
Proof.
  intros Ha. revert cur. induction Ha as [|c a Hc Ha IH]; intros cur.
  - cbn. rewrite app_nil_r. reflexivity.
  - cbn [app segments]. unfold not_slash in Hc. unfold is_slash.
    apply negb_true_iff in Hc. rewrite Hc, IH. cbn [rev].
    rewrite <- app_assoc. reflexivity.
Qed.

Lemma jsstring_eqb_length (a b : jsstring) :
  jsstring_eqb a b = true -> length a = length b.
Proof.
  revert b. induction a as [|x a IH]; intros [|y b]; cbn; try discriminate; auto.
  intros [_ H]%andb_true_iff. f_equal. apply IH. assumption.
Qed.

Lemma jsstring_eqb_longer (a b : jsstring) :
  (length b < length a)%nat -> jsstring_eqb a b = false.
Proof.
  intros H. destruct (jsstring_eqb a b) eqn:E; [|reflexivity].
  apply jsstring_eqb_length in E. lia.
Qed.

Lemma drop_while_app p (a b : jsstring) :
  Forall (fun c => p c = true) a ->
  match b with [] => True | c :: _ => p c = false end ->
  drop_while p (a ++ b) = b.
Proof.
  intros Ha Hb. unfold drop_while. rewrite span_app by assumption. reflexivity.
Qed.

(** The path of a summary is the directory [workspace/summaries], the
    stem and [.md], whatever the title; and its directory is that
    directory. *)
Lemma summary_path_eq (title : jsstring) (t : N) :
  summary_path title t
  = lit "workspace/summaries/" ++ summary_stem title t ++ lit ".md".
Proof.
  unfold summary_path.
  pose proof (summary_stem_no_slash title t) as Hstem.
  set (f := summary_stem title t ++ lit ".md").
  assert (Hf : Forall (fun c => not_slash c = true) f).
  { apply Forall_app_2; [assumption | repeat constructor]. }
  assert (Hlen : (3 < length f)%nat).
  { unfold f, summary_stem. rewrite !length_app. cbn. lia. }
  change (slug_of title ++ lit "-" ++ number_to_string (number_of_Z (Z.of_N t))
            ++ lit ".md")
    with (slug_of title ++ lit "-"
            ++ (number_to_string (number_of_Z (Z.of_N t)) ++ lit ".md")).
  replace (slug_of title ++ lit "-"
             ++ (number_to_string (number_of_Z (Z.of_N t)) ++ lit ".md"))
    with f by (unfold f, summary_stem; rewrite <- !app_assoc; reflexivity).
  unfold path_join.
  destruct f as [|c0 f'] eqn:Ef; [cbn in Hlen; lia|].
  rewrite <- Ef in *. clear Ef c0 f'.
  change (lit "./workspace/summaries") with
    (46 :: 47 :: lit "workspace/summaries").
  cbv iota.
  change ((46 :: 47 :: lit "workspace/summaries") ++ lit "/" ++ f)
    with (46 :: 47 :: lit "workspace/summaries/" ++ f).
  unfold path_normalize.
  change (is_slash 46) with false. cbv iota.
  assert (Hseg : segments [] (46 :: 47 :: lit "workspace/summaries/" ++ f)
                 = [lit "."; lit "workspace"; lit "summaries"; f]).
  { change (46 :: 47 :: lit "workspace/summaries/" ++ f)
      with (lit "." ++ 47 :: lit "workspace" ++ 47 :: lit "summaries" ++ 47 :: f).
    rewrite !segments_slash by (repeat constructor).
    rewrite segments_no_slash by assumption. reflexivity. }
  rewrite Hseg.
  assert (Hnorm : normalize_segments (negb false) []
                    [lit "."; lit "workspace"; lit "summaries"; f]
                  = [lit "workspace"; lit "summaries"; f]).
  { cbn - [jsstring_eqb].
    change (jsstring_eqb (lit ".") []) with false.
    change (jsstring_eqb (lit ".") (lit ".")) with true.
    change (jsstring_eqb (lit "workspace") []) with false.
    change (jsstring_eqb (lit "workspace") (lit ".")) with false.
    change (jsstring_eqb (lit "workspace") (lit "..")) with false.
    change (jsstring_eqb (lit "summaries") []) with false.
    change (jsstring_eqb (lit "summaries") (lit ".")) with false.
    change (jsstring_eqb (lit "summaries") (lit "..")) with false.
    cbn [orb].
    rewrite !(jsstring_eqb_longer f) by (cbn; lia).
    reflexivity. }
  rewrite Hnorm.
  assert (Hlast : match rev (46 :: 47 :: lit "workspace/summaries/" ++ f) with
                  | d :: _ => is_slash d
                  | [] => false
                  end = false).
  { unfold f. rewrite !app_comm_cons, !app_assoc, rev_app_distr. reflexivity. }
  match goal with
  | |- context [if ?b then lit "./" else _] =>
      replace b with false by (symmetry; exact Hlast)
  end.
  reflexivity.
Qed.

(** The directory of a file directly inside a relative directory. *)
Lemma path_dirname_file (c : char16) (dir f : jsstring) :
  is_slash c = false ->
  Forall (fun x => not_slash x = true) f -> f <> [] ->
  path_dirname ((c :: dir) ++ 47 :: f) = c :: dir.
Proof.
  intros Hc Hf Hne. unfold path_dirname. cbn [app]. rewrite Hc.
  change (c :: dir ++ 47 :: f) with ((c :: dir) ++ 47 :: f).
  rewrite rev_app_distr. cbn [rev]. rewrite <- app_assoc.
  apply Forall_rev in Hf.
  destruct (rev f) as [|x r] eqn:Er.
  { apply (f_equal (@rev _)) in Er. rewrite rev_involutive in Er. contradiction. }
  apply Forall_cons_1 in Hf as [Hx Hr].
  match goal with
  | |- context [drop_while is_slash ?s] =>
      replace (drop_while is_slash s) with s
  end.
  2:{ unfold drop_while. cbn [app span]. unfold not_slash in Hx. unfold is_slash.
      apply negb_true_iff in Hx. rewrite Hx. reflexivity. }
  match goal with
  | |- context [drop_while not_slash (?a ++ ?b)] =>
      replace (drop_while not_slash (a ++ b)) with b
        by (symmetry; apply drop_while_app;
            [constructor; assumption | reflexivity])
  end.
  cbn [app tl].
  destruct (rev dir) as [|y l] eqn:Ed.
  - apply (f_equal (@rev _)) in Ed. rewrite rev_involutive in Ed.
    subst dir. reflexivity.
  - apply (f_equal (@rev _)) in Ed. rewrite rev_involutive in Ed. subst dir.
    destruct l as [|z l]; cbn [app tail rev]; rewrite ?rev_app_distr;
      reflexivity.
Qed.

Lemma summary_dir_eq (title : jsstring) (t : N) :
  summary_dir title t = lit "workspace/summaries".
Proof.
  unfold summary_dir. rewrite summary_path_eq.
  pose proof (summary_stem_no_slash title t) as Hstem.
  change (lit "workspace/summaries/" ++ summary_stem title t ++ lit ".md")
    with ((119 :: lit "orkspace/summaries")
            ++ 47 :: (summary_stem title t ++ lit ".md")).
  apply path_dirname_file.
  - reflexivity.
  - apply Forall_app_2; [assumption | repeat constructor].
  - intros H. apply app_eq_nil in H as [_ H]. discriminate.
Qed.

End SummaryPath.
Section SaveSummary.

Variable env : Env.

(** What [saveSummaryTool] does, step by step. *)
Lemma saveSummaryTool_execute_eq title url summary w :
  saveSummaryTool_execute title url summary env w
  = let path := summary_path title (now w) in
    let dir := summary_dir title (now w) in
    let text := summary_text title url summary in
    let w1 := record_event (EvMkdir dir) w in
    let w2 := record_event (EvWriteFile path text) w1 in
    match disk_mkdir env w1 dir with
    | Err e => (Err e, w1)
    | Ok _ =>
        match disk_writeFile env w2 path text with
        | Err e => (Err e, w2)
        | Ok _ => (Ok path, store_file path text w2)
        end
    end.
Proof.
  unfold saveSummaryTool_execute.
  unfold bind, Date_now, fs_mkdir, fs_writeFile, log_event, ret, bind.
  fold (summary_path title (now w)).
  fold (summary_dir title (now w)).
  fold (summary_text title url summary).
  cbv zeta.
  destruct (disk_mkdir env _ (summary_dir title (now w))) as [[]|e];
    [|reflexivity].
  destruct (disk_writeFile env _ (summary_path title (now w))
              (summary_text title url summary)) as [[]|e]; reflexivity.
Qed.

End SaveSummary.

(* ================================================================== *)
(** * Lemmas: tokens *)
(* ================================================================== *)

(** Decides the comparisons of a goal that the context settles. *)
Ltac settle_comparisons :=
  repeat match goal with
         | |- context [N.leb ?a ?b] =>
             first [ replace (N.leb a b) with true
                       by (symmetry; apply N.leb_le; lia)
                   | replace (N.leb a b) with false
                       by (symmetry; apply N.leb_gt; lia) ]
         | |- context [N.eqb ?a ?b] =>
             first [ replace (N.eqb a b) with true
                       by (symmetry; apply N.eqb_eq; lia)
                   | replace (N.eqb a b) with false
                       by (symmetry; apply N.eqb_neq; lia) ]
         end.

Section Characters.

Lemma is_alnum_range (c : char16) :
  is_alnum c = true <-> (97 <= c <= 122) \/ (48 <= c <= 57).
Proof.
  unfold is_alnum, is_lower_az, is_digit.
  rewrite orb_true_iff, !andb_true_iff, !N.leb_le. reflexivity.
Qed.

Lemma not_alnum_is_alnum (c : char16) : not_alnum c = negb (is_alnum c).
Proof. reflexivity. Qed.

Lemma is_alnum_not_space (c : char16) : is_alnum c = true -> is_space c = false.
Proof.
  intros H%is_alnum_range. unfold is_space.
  destruct H as [H|H]; settle_comparisons; reflexivity.
Qed.

Lemma lower_unit_upper (c : char16) : 65 <= c <= 90 -> lower_unit c = [c + 32].
Proof.
  intros H. unfold lower_unit, is_upper_AZ. settle_comparisons. reflexivity.
Qed.

Lemma lower_unit_fixed (c : char16) :
  c < 65 \/ 90 < c ->
  c < 192 \/ 222 < c \/ c = 215 ->
  c <> 304 -> c <> 8490 ->
  lower_unit c = [c].
Proof.
  intros H1 H2 H3 H4. unfold lower_unit, is_upper_AZ.
  replace ((65 <=? c) && (c <=? 90)) with false
    by (destruct H1; settle_comparisons; rewrite ?andb_false_r; reflexivity).
  replace ((192 <=? c) && (c <=? 222) && negb (c =? 215)) with false.
  2:{ destruct H2 as [H2|[H2|H2]]; settle_comparisons;
        rewrite ?andb_false_r; reflexivity. }
  settle_comparisons. reflexivity.
Qed.

Lemma lower_unit_alnum (c : char16) : is_alnum c = true -> lower_unit c = [c].
Proof.
  intros H%is_alnum_range. apply lower_unit_fixed; lia.
Qed.

Lemma is_space_range (c : char16) :
  is_space c = true ->
  c <= 32 \/ c = 160 \/ (5760 <= c /\ c <> 8490).
Proof.
  intros H.
  destruct (N.le_gt_cases c 32) as [?|?]; [left; assumption|].
  destruct (N.eq_dec c 160) as [?|?]; [right; left; assumption|].
  right. right.
  destruct (N.le_gt_cases 5760 c) as [?|?].
  - split; [assumption|]. intros ->. vm_compute in H. discriminate.
  - exfalso. revert H. unfold is_space. settle_comparisons. discriminate.
Qed.

Lemma lower_unit_space (c : char16) : is_space c = true -> lower_unit c = [c].
Proof.
  intros H. pose proof (is_space_range c H) as Hr.
  apply lower_unit_fixed; lia.
Qed.

(** Two characters that [/i] identifies have the same lower case. *)
Lemma lower_unit_ci (a b : char16) : eq_ci a b = true -> lower_unit a = lower_unit b.
Proof.
  unfold eq_ci, canonicalize, is_lower_az.
  destruct ((97 <=? a) && (a <=? 122)) eqn:Ea;
    destruct ((97 <=? b) && (b <=? 122)) eqn:Eb;
    intros H%N.eqb_eq.
  - apply andb_true_iff in Ea as [Ea1%N.leb_le Ea2%N.leb_le].
    apply andb_true_iff in Eb as [Eb1%N.leb_le Eb2%N.leb_le].
    assert (a = b) by lia. subst. reflexivity.
  - apply andb_true_iff in Ea as [Ea1%N.leb_le Ea2%N.leb_le].
    rewrite (lower_unit_fixed a) by lia.
    rewrite (lower_unit_upper b) by lia. f_equal. lia.
  - apply andb_true_iff in Eb as [Eb1%N.leb_le Eb2%N.leb_le].
    rewrite (lower_unit_upper a) by lia.
    rewrite (lower_unit_fixed b) by lia. f_equal. lia.
  - subst. reflexivity.
Qed.

Lemma toLowerCase_app (a b : jsstring) :
  toLowerCase (a ++ b) = toLowerCase a ++ toLowerCase b.
Proof. apply flat_map_app. Qed.

Lemma toLowerCase_fixed (s : jsstring) :
  Forall (fun c => lower_unit c = [c]) s -> toLowerCase s = s.
Proof.
  induction 1 as [|c s Hc Hs IH]; [reflexivity|].
  unfold toLowerCase in *. cbn [flat_map]. rewrite Hc, IH. reflexivity.
Qed.

Lemma toLowerCase_ci (a b : jsstring) :
  ci_equal a b -> toLowerCase a = toLowerCase b.
Proof.
  induction 1 as [|x y a b Hxy Hab IH]; [reflexivity|].
  unfold toLowerCase in *. cbn [flat_map].
  rewrite (lower_unit_ci _ _ Hxy), IH. reflexivity.
Qed.

Lemma blank_cases (c : char16) :
  (is_space (blank c) = true) \/ (is_alnum (blank c) = true /\ blank c = c).
Proof.
  unfold blank. rewrite not_alnum_is_alnum.
  destruct (is_alnum c) eqn:Ha; cbn [negb andb].
  - right. split; [assumption | reflexivity].
  - destruct (is_space c) eqn:Hs; cbn [negb]; left; [assumption | reflexivity].
Qed.

Lemma blank_fixed (c : char16) :
  is_alnum c = true \/ is_space c = true -> blank c = c.
Proof.
  unfold blank. rewrite not_alnum_is_alnum.
  intros [H|H]; rewrite H; cbn; [reflexivity|].
  rewrite andb_false_r. reflexivity.
Qed.

(** The replacement of [tokenize] works character by character. *)
Lemma replace_blank (s : jsstring) :
  replace_all re_not_token (lit " ") s = List.map blank s.
Proof.
  induction s as [|c s IH]; [reflexivity|].
  unfold blank at 1. cbn [List.map].
  destruct (not_alnum c && negb (is_space c)) eqn:E.
  - rewrite (replace_all_match _ _ _ _ O) by (cbn; rewrite E; reflexivity).
    rewrite drop_0, IH. reflexivity.
  - rewrite replace_all_copy by (left; cbn; rewrite E; reflexivity).
    rewrite IH. reflexivity.
Qed.

End Characters.

Section Pieces.

Lemma words_from_mode (s : jsstring) : words_from [] true s = words_from [] false s.
Proof.
  unfold words_from. destruct s as [|c s]; [reflexivity|].
  cbn [split_scan]. destruct (is_space c); reflexivity.
Qed.

(** White space cuts a text: the words of the whole are the words of
    the two parts. *)
Lemma words_from_app_space (x : jsstring) (c : char16) (y acc : jsstring) (b : bool) :
  (b = true -> acc = []) -> is_space c = true ->
  words_from acc b (x ++ c :: y) = words_from acc b x ++ words_from [] false y.
Proof.
  intros Hb Hc. revert acc b Hb.
  induction x as [|d x IH]; intros acc b Hb.
  - cbn [app]. unfold words_from at 1 2. cbn [split_scan]. rewrite Hc.
    destruct b.
    + rewrite (Hb eq_refl). exact (words_from_mode y).
    + rewrite <- words_from_mode. unfold words_from. cbn [List.filter].
      destruct (truthy (rev acc)); reflexivity.
  - cbn [app]. unfold words_from at 1 2. cbn [split_scan].
    destruct (is_space d).
    + destruct b.
      * apply (IH [] true). reflexivity.
      * cbn [List.filter].
        destruct (truthy (rev acc)); cbn [app]; [f_equal|];
          apply (IH [] true); reflexivity.
    + apply (IH (d :: acc) false). discriminate.
Qed.

(** The pieces of a split are made of the characters of the text that
    are not white space. *)
Lemma split_scan_chars (P : char16 -> Prop) (s acc : jsstring) (b : bool) :
  Forall P acc ->
  Forall (fun c => is_space c = true \/ P c) s ->
  Forall (Forall P) (split_scan acc b s).
Proof.
  intros Hacc Hs. revert acc b Hacc.
  induction Hs as [|c s Hc Hs IH]; intros acc b Hacc.
  - cbn. constructor; [|constructor]. apply Forall_rev. assumption.
  - cbn [split_scan]. destruct (is_space c) eqn:E.
    + destruct b.
      * apply IH. constructor.
      * constructor; [apply Forall_rev; assumption|]. apply IH. constructor.
    + destruct Hc as [Hc|Hc]; [congruence|].
      apply IH. constructor; assumption.
Qed.

Lemma Forall_join (P : char16 -> Prop) (sep : jsstring) (parts : list jsstring) :
  Forall P sep -> Forall (Forall P) parts -> Forall P (join sep parts).
Proof.
  intros Hsep. induction 1 as [|p parts Hp Hparts IH]; [constructor|].
  destruct parts as [|q parts]; [exact Hp|].
  change (join sep (p :: q :: parts)) with (p ++ sep ++ join sep (q :: parts)).
  apply Forall_app_2; [assumption|]. apply Forall_app_2; assumption.
Qed.

Lemma filter_truthy_all (ts : list jsstring) :
  Forall (fun t => t <> []) ts -> List.filter truthy ts = ts.
Proof.
  induction 1 as [|t ts Ht Hts IH]; [reflexivity|].
  cbn [List.filter]. destruct t; [congruence|]. cbn. rewrite IH. reflexivity.
Qed.

Lemma inner_nonempty_all (ts : list jsstring) :
  Forall (fun t => t <> []) ts -> inner_nonempty ts.
Proof.
  induction 1 as [|t ts Ht Hts IH]; [exact I|].
  cbn. split; [right; assumption | assumption].
Qed.

End Pieces.

Section Tokens.

Lemma tokenize_words (text : jsstring) :
  tokenize text = words_from [] false (List.map blank (toLowerCase text)).
Proof. unfold tokenize. rewrite replace_blank. reflexivity. Qed.

(** Every token is a non-empty word of letters [a-z] and digits. *)
Lemma tokenize_shape (text : jsstring) :
  Forall (fun t => t <> [] /\ Forall (fun c => is_alnum c = true) t) (tokenize text).
Proof.
  rewrite tokenize_words. unfold words_from.
  apply List.Forall_forall. intros t [Hin Ht]%filter_In.
  split.
  - destruct t; [discriminate | discriminate].
  - assert (H : Forall (Forall (fun c => is_alnum c = true))
                  (split_scan [] false (List.map blank (toLowerCase text)))).
    { apply split_scan_chars; [constructor|].
      apply List.Forall_forall. intros c (c0 & <- & _)%in_map_iff.
      destruct (blank_cases c0) as [H|[H _]]; [left | right]; assumption. }
    rewrite List.Forall_forall in H. apply H. assumption.
Qed.

Lemma tokenize_app_space (a : jsstring) (c : char16) (b : jsstring) :
  is_space c = true -> tokenize (a ++ c :: b) = tokenize a ++ tokenize b.
Proof.
  intros Hc. rewrite !tokenize_words, toLowerCase_app.
  change (toLowerCase (c :: b)) with (lower_unit c ++ toLowerCase b).
  rewrite (lower_unit_space c Hc). cbn [app].
  rewrite map_app. cbn [List.map].
  rewrite (blank_fixed c) by (right; assumption).
  apply words_from_app_space; [discriminate | assumption].
Qed.

Lemma alnum_or_space_fixed (s : jsstring) :
  Forall (fun c => is_alnum c = true \/ is_space c = true) s ->
  List.map blank (toLowerCase s) = s.
Proof.
  intros H. rewrite toLowerCase_fixed.
  - induction H as [|c s Hc Hs IH]; [reflexivity|].
    cbn [List.map]. rewrite (blank_fixed c Hc), IH. reflexivity.
  - eapply Forall_impl; [exact H|]. intros c [Hc|Hc].
    + apply lower_unit_alnum. assumption.
    + apply lower_unit_space. assumption.
Qed.

(** Joining the tokens of a text with spaces and reading the result
    again gives the same tokens. *)
Lemma tokenize_join (text : jsstring) :
  tokenize (join (lit " ") (tokenize text)) = tokenize text.
Proof.
  pose proof (tokenize_shape text) as Hshape.
  set (ts := tokenize text) in *.
  assert (Hne : Forall (fun t => t <> []) ts).
  { eapply Forall_impl; [exact Hshape|]. intros t [H _]. exact H. }
  assert (Hal : Forall (Forall (fun c => is_alnum c = true)) ts).
  { eapply Forall_impl; [exact Hshape|]. intros t [_ H]. exact H. }
  rewrite tokenize_words, alnum_or_space_fixed.
  2:{ apply Forall_join; [repeat constructor; right; reflexivity|].
      eapply Forall_impl; [exact Hal|]. intros t Ht.
      eapply Forall_impl; [exact Ht|]. intros c Hc. left. assumption. }
  destruct ts as [|p rest] eqn:Ets; [reflexivity|].
  unfold words_from. fold (split_ws (join (lit " ") (p :: rest))).
  change (lit " ") with [32].
  rewrite split_join.
  - apply filter_truthy_all. assumption.
  - eapply Forall_impl; [exact Hal|]. intros t Ht.
    eapply Forall_impl; [exact Ht|]. intros c Hc.
    apply is_alnum_not_space. assumption.
  - apply inner_nonempty_all. apply Forall_cons_1 in Hne as [_ Hne]. assumption.
Qed.

Lemma tokenize_ci (a b : jsstring) : ci_equal a b -> tokenize a = tokenize b.
Proof.
  intros H. unfold tokenize. rewrite (toLowerCase_ci a b H). reflexivity.
Qed.

End Tokens.

(* ================================================================== *)
(** * Lemmas: the text of a page *)
(* ================================================================== *)

Section Trim.

Lemma reverse_rev {A} (l : list A) : reverse l = rev l.
Proof. symmetry. apply rev_alt. Qed.

Lemma drop_while_clean p (s : jsstring) :
  match drop_while p s with [] => True | c :: _ => p c = false end.
Proof.
  unfold drop_while. destruct (span p s) as [a b] eqn:E.
  apply span_spec in E as (_ & _ & H). exact H.
Qed.

Lemma drop_while_suffix p (s : jsstring) :
  exists a, s = a ++ drop_while p s /\ Forall (fun c => p c = true) a.
Proof.
  unfold drop_while. destruct (span p s) as [a b] eqn:E.
  apply span_spec in E as (-> & H & _). exists a. split; [reflexivity | assumption].
Qed.

Lemma drop_while_all p (s : jsstring) :
  Forall (fun c => p c = true) s -> drop_while p s = [].
Proof.
  intros H. rewrite <- (app_nil_r s). apply drop_while_app; [assumption | exact I].
Qed.

(** A trimmed text is empty, or starts and ends with a character that
    is not white space. *)
Lemma trim_clean (s : jsstring) :
  clean_start (trim s) /\ clean_start (rev (trim s)).
Proof.
  unfold trim. rewrite !reverse_rev.
  set (d1 := drop_while is_space s).
  set (d2 := drop_while is_space (rev d1)).
  pose proof (drop_while_clean is_space s) as H1. fold d1 in H1.
  pose proof (drop_while_clean is_space (rev d1)) as H2. fold d2 in H2.
  destruct (drop_while_suffix is_space (rev d1)) as (a & Ea & _). fold d2 in Ea.
  rewrite rev_involutive. split; [|exact H2].
  apply (f_equal (@rev _)) in Ea. rewrite rev_involutive, rev_app_distr in Ea.
  destruct (rev d2) as [|c r] eqn:Er; [exact I|].
  rewrite Ea in H1. exact H1.
Qed.

Lemma trim_all_space (s : jsstring) :
  Forall (fun c => is_space c = true) s -> trim s = [].
Proof.
  intros H. unfold trim. rewrite (drop_while_all _ _ H). reflexivity.
Qed.

End Trim.

Section WordsOfText.

(** A text that ends with a character that is not white space has a
    last piece that ends with it. *)
Lemma split_scan_last (s : jsstring) (c : char16) (acc : jsstring) (b : bool) :
  is_space c = false ->
  exists init l, split_scan acc b (s ++ [c]) = init ++ [l ++ [c]].
Proof.
  intros Hc. revert acc b. induction s as [|d s IH]; intros acc b.
  - cbn [app split_scan]. rewrite Hc. cbn [split_scan rev].
    exists [], (rev acc). reflexivity.
  - cbn [app split_scan]. destruct (is_space d).
    + destruct b.
      * apply IH.
      * destruct (IH [] true) as (init & l & E). rewrite E.
        exists (rev acc :: init), l. reflexivity.
    + apply IH.
Qed.

Lemma inner_nonempty_last (ps : list jsstring) :
  inner_nonempty ps ->
  (forall init x, ps = init ++ [x] -> x <> []) ->
  Forall (fun p => p <> []) ps.
Proof.
  induction ps as [|q rest IH]; intros Hin Hlast; [constructor|].
  destruct Hin as [Hq Hin]. constructor.
  - destruct Hq as [-> | Hq]; [|assumption]. apply (Hlast [] q). reflexivity.
  - apply IH; [assumption|]. intros init x ->.
    apply (Hlast (q :: init) x). reflexivity.
Qed.

(** The pieces of a text without white space at its ends are words:
    non-empty, and free of white space. *)
Lemma split_ws_clean (t : jsstring) :
  t <> [] -> clean_start t -> clean_start (rev t) ->
  Forall (fun p => p <> [] /\ ws_free p) (split_ws t).
Proof.
  intros Hne Hfirst Hlast.
  destruct t as [|c t]; [congruence|]. cbn in Hfirst.
  assert (Hpieces : exists h rest, split_ws (c :: t) = h :: rest
                      /\ h <> [] /\ Forall ws_free (h :: rest)
                      /\ inner_nonempty rest).
  { unfold split_ws. cbn [split_scan]. rewrite Hfirst.
    destruct (split_scan_shape t) as [Hf _].
    destruct (Hf [c]) as (h & rest & E & Hh & Hhne & Hrest & Hin).
    { constructor; [assumption | constructor]. }
    exists h, rest. split; [assumption|]. split; [apply Hhne; discriminate|].
    split; [constructor; assumption | assumption]. }
  destruct Hpieces as (h & rest & E & Hh & Hfree & Hin).
  assert (Hend : forall init x, split_ws (c :: t) = init ++ [x] -> x <> []).
  { intros init x Ex.
    destruct (rev (c :: t)) as [|d r] eqn:Er.
    { apply (f_equal (@rev _)) in Er. rewrite rev_involutive in Er. discriminate. }
    cbn in Hlast.
    apply (f_equal (@rev _)) in Er. rewrite rev_involutive in Er.
    cbn [rev] in Er. rewrite Er in Ex.
    destruct (split_scan_last (rev r) d [] false Hlast) as (init' & l & E').
    unfold split_ws in Ex. rewrite E' in Ex.
    apply app_inj_tail in Ex as [_ <-].
    intros H. apply app_eq_nil in H as [_ H]. discriminate. }
  assert (Hall : Forall (fun p => p <> []) (split_ws (c :: t))).
  { rewrite E. apply inner_nonempty_last.
    - cbn. split; [right; assumption | assumption].
    - intros init x Ex. apply (Hend init x). rewrite E. assumption. }
  rewrite E in Hall |- *.
  apply List.Forall_forall. intros p Hp.
  rewrite List.Forall_forall in Hall, Hfree. split; auto.
Qed.

Lemma split_ws_nonempty (s : jsstring) : split_ws s <> [].
Proof.
  destruct (split_ws_shape s) as (p & rest & E & _). rewrite E. discriminate.
Qed.

(** The words of the text of a page. *)
Lemma page_text_words (html : jsstring) :
  page_text html = []
  \/ Forall (fun p => p <> [] /\ ws_free p) (split_ws (page_text html)).
Proof.
  destruct (page_text html) as [|c t] eqn:E; [left; reflexivity|]. right.
  rewrite <- E. unfold page_text in *.
  match goal with
  | |- context [trim ?x] => destruct (trim_clean x) as [H1 H2]
  end.
  apply split_ws_clean; [congruence | assumption | assumption].
Qed.

End WordsOfText.

Section BlankPage.

Lemma not_lt_no_prefix (opening : jsstring) (c : char16) (r : jsstring) :
  c <> 60 -> match_prefix eq_ci (60 :: opening) (c :: r) = None.
Proof.
  intros Hc. cbn [match_prefix].
  destruct (eq_ci 60 c) eqn:E; [|reflexivity].
  apply eq_ci_lt in E. contradiction.
Qed.

Lemma re_block_not_lt (opening closing : jsstring) (c : char16) (r : jsstring) :
  c <> 60 -> re_block (60 :: opening) closing (c :: r) = None.
Proof.
  intros Hc. unfold re_block. rewrite not_lt_no_prefix by assumption. reflexivity.
Qed.

Lemma re_tag_not_lt (c : char16) (r : jsstring) : c <> 60 -> re_tag (c :: r) = None.
Proof.
  intros Hc. unfold re_tag.
  destruct c as [|p]; [reflexivity|].
  repeat (destruct p as [p|p|]; try reflexivity). congruence.
Qed.

Lemma re_title_at_not_lt (c : char16) (r : jsstring) :
  c <> 60 -> re_title_at (c :: r) = None.
Proof.
  intros Hc. unfold re_title_at.
  change (lit "<title") with (60 :: lit "title").
  rewrite not_lt_no_prefix by assumption. reflexivity.
Qed.

(** An expression that starts with [<] leaves a text without [<] as it
    is. *)
Lemma replace_all_no_lt (m : jsstring -> option nat) (repl s : jsstring) :
  (forall c r, c <> 60 -> m (c :: r) = None) ->
  Forall (fun c => c <> 60) s ->
  replace_all m repl s = s.
Proof.
  intros Hm. induction 1 as [|c s Hc Hs IH]; [reflexivity|].
  rewrite replace_all_copy by (left; apply Hm; assumption).
  rewrite IH. reflexivity.
Qed.

Lemma match_title_no_lt (s : jsstring) :
  Forall (fun c => c <> 60) s -> match_title s = None.
Proof.
  induction 1 as [|c s Hc Hs IH]; [reflexivity|].
  cbn [match_title]. rewrite re_title_at_not_lt by assumption. exact IH.
Qed.

Lemma space_not_lt (c : char16) : is_space c = true -> c <> 60.
Proof. intros H ->. vm_compute in H. discriminate. Qed.

(** Collapsing the runs of white space of a text of white space leaves
    white space. *)
Lemma collapse_all_space (s : jsstring) :
  Forall (fun c => is_space c = true) s ->
  Forall (fun c => is_space c = true) (replace_all re_spaces2 (lit " ") s).
Proof.
  intros H. destruct s as [|c s]; [constructor|].
  destruct s as [|d s].
  - apply Forall_cons_1 in H as [Hc _].
    rewrite replace_all_copy.
    + repeat constructor. assumption.
    + left. unfold re_spaces2. cbn [span]. rewrite Hc. reflexivity.
  - assert (Hspan : span is_space (c :: d :: s) = (c :: d :: s, [])).
    { rewrite <- (app_nil_r (c :: d :: s)) at 1.
      apply span_app; [assumption | exact I]. }
    rewrite (replace_all_match _ _ _ _ (S (length s))).
    2:{ unfold re_spaces2. rewrite Hspan. reflexivity. }
    change (drop (S (length s)) (d :: s)) with (drop (length s) s).
    rewrite drop_all. repeat constructor.
Qed.

Lemma page_text_blank (html : jsstring) :
  Forall (fun c => is_space c = true) html -> page_text html = [].
Proof.
  intros H.
  assert (Hlt : Forall (fun c => c <> 60) html).
  { eapply Forall_impl; [exact H|]. apply space_not_lt. }
  unfold page_text.
  unfold re_script, re_style.
  change (lit "<script") with (60 :: lit "script").
  change (lit "<style") with (60 :: lit "style").
  rewrite (replace_all_no_lt _ _ html)
    by (assumption || (intros; apply re_block_not_lt; assumption)).
  rewrite (replace_all_no_lt _ _ html)
    by (assumption || (intros; apply re_block_not_lt; assumption)).
  rewrite (replace_all_no_lt _ _ html)
    by (assumption || (intros; apply re_tag_not_lt; assumption)).
  apply trim_all_space, collapse_all_space. assumption.
Qed.

Lemma fetched_blank (html u : jsstring) :
  Forall (fun c => is_space c = true) html ->
  fetched html u = {| content := []; title := u; wordCount := 1; url := u |}.
Proof.
  intros H. unfold fetched, page_title.
  rewrite (page_text_blank html H).
  rewrite match_title_no_lt; [reflexivity|].
  eapply Forall_impl; [exact H|]. apply space_not_lt.
Qed.

End BlankPage.

(* ================================================================== *)
(** * Lemmas: no tag is left in the text *)
(* ================================================================== *)

Section Thinned.

Lemma thinned_refl (s : jsstring) : thinned s s.
Proof. induction s; constructor; assumption. Qed.

Lemma thinned_app (a a' b b' : jsstring) :
  thinned a a' -> thinned b b' -> thinned (a ++ b) (a' ++ b').
Proof.
  intros Ha Hb. induction Ha; cbn [app]; try assumption.
  - apply thinned_keep. assumption.
  - apply thinned_drop; assumption.
  - apply thinned_swap; assumption.
Qed.

Lemma thinned_rev (s t : jsstring) : thinned s t -> thinned (rev s) (rev t).
Proof.
  induction 1 as [|c s t H IH|c s t Hc H IH|c d s t Hc Hd H IH]; cbn [rev].
  - constructor.
  - apply thinned_app; [assumption | apply thinned_refl].
  - rewrite <- (app_nil_r (rev t)).
    apply thinned_app; [assumption|].
    apply thinned_drop; [assumption | constructor].
  - apply thinned_app; [assumption|].
    apply thinned_swap; [assumption | assumption | constructor].
Qed.

Lemma thinned_all_space (a : jsstring) :
  Forall (fun c => is_space c = true) a -> thinned a [].
Proof.
  induction 1; [constructor|]. apply thinned_drop; assumption.
Qed.

Lemma thinned_drop_while (s : jsstring) : thinned s (drop_while is_space s).
Proof.
  destruct (drop_while_suffix is_space s) as (a & E & Ha).
  rewrite E at 1.
  change (drop_while is_space s) with ([] ++ drop_while is_space s) at 2.
  apply thinned_app; [apply thinned_all_space; assumption | apply thinned_refl].
Qed.

Lemma thinned_trans (s t u : jsstring) : thinned s t -> thinned t u -> thinned s u.
Proof.
  intros Hst. revert u.
  induction Hst as [|c s t H IH|c s t Hc H IH|c d s t Hc Hd H IH]; intros u Htu.
  - assumption.
  - inversion Htu; subst.
    + apply thinned_keep. apply IH. assumption.
    + apply thinned_drop; [assumption|]. apply IH. assumption.
    + apply thinned_swap; [assumption | assumption|]. apply IH. assumption.
  - apply thinned_drop; [assumption|]. apply IH. assumption.
  - inversion Htu; subst.
    + apply thinned_swap; [assumption | assumption|]. apply IH. assumption.
    + apply thinned_drop; [assumption|]. apply IH. assumption.
    + apply thinned_swap; [assumption | assumption|]. apply IH. assumption.
Qed.

Lemma thinned_trim (s : jsstring) : thinned s (trim s).
Proof.
  unfold trim. rewrite !reverse_rev.
  eapply thinned_trans; [apply thinned_drop_while|].
  rewrite <- (rev_involutive (drop_while is_space s)) at 1.
  apply thinned_rev, thinned_drop_while.
Qed.

(** Collapsing the runs of white space thins the text. *)
Lemma thinned_collapse (n : nat) (s : jsstring) :
  (length s <= n)%nat -> thinned s (replace_all re_spaces2 (lit " ") s).
Proof.
  revert s. induction n as [|n IH]; intros s Hlen.
  { destruct s; [constructor | cbn in Hlen; lia]. }
  destruct s as [|c s]; [constructor|]. cbn [length] in Hlen.
  destruct (span is_space (c :: s)) as [run rest] eqn:Hspan.
  pose proof (span_spec _ _ _ _ Hspan) as (Hs & Hrun & _).
  destruct run as [|r0 [|r1 run]].
  - rewrite replace_all_copy
      by (left; unfold re_spaces2; rewrite Hspan; reflexivity).
    apply thinned_keep, IH. lia.
  - rewrite replace_all_copy
      by (left; unfold re_spaces2; rewrite Hspan; reflexivity).
    apply thinned_keep, IH. lia.
  - cbn [app] in Hs. injection Hs as <- Hs.
    rewrite (replace_all_match _ _ _ _ (S (length run)))
      by (unfold re_spaces2; rewrite Hspan; reflexivity).
    assert (Hdrop : drop (S (length run)) s = rest).
    { rewrite Hs. change (r1 :: run ++ rest) with ((r1 :: run) ++ rest).
      change (S (length run)) with (length (r1 :: run)).
      apply drop_app_length. }
    rewrite Hdrop.
    apply Forall_cons_1 in Hrun as [Hc Hrun].
    change (lit " " ++ replace_all re_spaces2 (lit " ") rest)
      with (32 :: replace_all re_spaces2 (lit " ") rest).
    apply thinned_swap; [assumption | reflexivity|].
    rewrite Hs. change (r1 :: run ++ rest) with ((r1 :: run) ++ rest).
    change (replace_all re_spaces2 (lit " ") rest)
      with ([] ++ replace_all re_spaces2 (lit " ") rest).
    apply thinned_app; [apply thinned_all_space; assumption|].
    apply IH. rewrite Hs in Hlen. cbn [length] in Hlen.
    rewrite length_app in Hlen. lia.
Qed.

Lemma split_scan_nonempty (acc : jsstring) (b : bool) (s : jsstring) :
  split_scan acc b s <> [].
Proof.
  revert acc b. induction s as [|c s IH]; intros acc b; cbn [split_scan].
  - discriminate.
  - destruct (is_space c); [destruct b|]; try apply IH. discriminate.
Qed.

Lemma join_cons (sep p : jsstring) (rest : list jsstring) :
  rest <> [] -> join sep (p :: rest) = p ++ sep ++ join sep rest.
Proof. destruct rest; [congruence | reflexivity]. Qed.

(** Splitting at white space and joining with spaces thins the text. *)
Lemma thinned_join_split (s : jsstring) :
  (forall acc, thinned (rev acc ++ s) (join [32] (split_scan acc false s)))
  /\ thinned s (join [32] (split_scan [] true s)).
Proof.
  induction s as [|c s [IH1 IH2]].
  - split.
    + intros acc. cbn. rewrite app_nil_r. apply thinned_refl.
    + constructor.
  - split.
    + intros acc. cbn [split_scan]. destruct (is_space c) eqn:Hc.
      * rewrite join_cons by apply split_scan_nonempty.
        apply thinned_app; [apply thinned_refl|].
        apply thinned_swap; [assumption | reflexivity | assumption].
      * specialize (IH1 (c :: acc)). cbn [rev] in IH1.
        rewrite <- app_assoc in IH1. exact IH1.
    + cbn [split_scan]. destruct (is_space c) eqn:Hc.
      * apply thinned_drop; assumption.
      * exact (IH1 [c]).
Qed.

Lemma join_take_prefix (sep : jsstring) (n : nat) (ws : list jsstring) :
  exists tail, join sep ws = join sep (take n ws) ++ tail.
Proof.
  revert n. induction ws as [|p rest IH]; intros n.
  - exists []. destruct n; reflexivity.
  - destruct n as [|n]; [exists (join sep (p :: rest)); reflexivity|].
    cbn [take firstn].
    destruct rest as [|q rest].
    + exists []. destruct n; cbn; rewrite app_nil_r; reflexivity.
    + rewrite join_cons by discriminate.
      destruct (IH n) as (tail & E).
      destruct n as [|n].
      * exists (sep ++ join sep (q :: rest)). reflexivity.
      * change (take (S n) (q :: rest)) with (q :: take n rest) in *.
        rewrite (join_cons sep p (q :: take n rest)) by discriminate.
        rewrite E. exists tail. rewrite <- !app_assoc. reflexivity.
Qed.

End Thinned.

Section TagsClosed.

Lemma thinned_not_in (x : char16) (s t : jsstring) :
  thinned s t -> is_space x = false -> ~ In x s -> ~ In x t.
Proof.
  intros H Hx. induction H as [|c s t H IH|c s t Hc H IH|c d s t Hc Hd H IH];
    cbn [In]; intros Hs.
  - assumption.
  - intros [->|Hin]; [apply Hs; left; reflexivity|].
    apply IH; [|assumption]. intros Hin'. apply Hs. right. assumption.
  - apply IH. intros Hin'. apply Hs. right. assumption.
  - intros [->|Hin]; [congruence|].
    apply IH; [|assumption]. intros Hin'. apply Hs. right. assumption.
Qed.

Lemma thinned_head_gt (s t : jsstring) :
  thinned (62 :: s) t -> exists t', t = 62 :: t'.
Proof.
  intros H. inversion H; subst.
  - eexists. reflexivity.
  - discriminate.
  - discriminate.
Qed.

Lemma tags_closed_thinned (s t : jsstring) :
  thinned s t -> tags_closed s -> tags_closed t.
Proof.
  induction 1 as [|c s t H IH|c s t Hc H IH|c d s t Hc Hd H IH];
    cbn [tags_closed].
  - trivial.
  - intros [Hhead Hs]. split; [|apply IH; assumption].
    intros E. destruct (Hhead E) as [(s'' & ->)|Hno].
    + left. apply (thinned_head_gt _ _ H).
    + right. apply (thinned_not_in 62 s t); [assumption | reflexivity | assumption].
  - intros [_ Hs]. apply IH. assumption.
  - intros [_ Hs]. split; [|apply IH; assumption].
    intros ->. discriminate.
Qed.

Lemma tags_closed_prefix (a b : jsstring) : tags_closed (a ++ b) -> tags_closed a.
Proof.
  induction a as [|c a IH]; [intros; exact I|]. cbn [app tags_closed].
  intros [Hhead Hs]. split; [|apply IH; assumption].
  intros E. destruct (Hhead E) as [(s'' & Es)|Hno].
  - destruct a as [|d a].
    + right. intros [].
    + left. cbn [app] in Es. injection Es as -> _. eexists. reflexivity.
  - right. intros Hin. apply Hno. apply in_or_app. left. assumption.
Qed.

Lemma tags_closed_suffix (a b : jsstring) : tags_closed (a ++ b) -> tags_closed b.
Proof.
  induction a as [|c a IH]; [intros H; exact H|]. cbn [app tags_closed].
  intros [_ Hs]. apply IH. assumption.
Qed.

(** What a replacement writes comes from the text or from the
    replacement. *)
Lemma replace_scan_Forall (P : char16 -> Prop) (m : jsstring -> option nat)
  (repl : jsstring) (s : jsstring) (k : nat) :
  Forall P repl -> Forall P s -> Forall P (replace_scan m repl k s).
Proof.
  intros Hrepl Hs. revert k.
  induction Hs as [|c s Hc Hs IH]; intros k; [constructor|].
  cbn [replace_scan]. destruct k as [|k]; [|apply IH].
  destruct (m (c :: s)) as [[|len]|].
  - constructor; [assumption | apply IH].
  - apply Forall_app_2; [assumption | apply IH].
  - constructor; [assumption | apply IH].
Qed.

Lemma not_gt_true (c : char16) : not_gt c = true <-> c <> 62.
Proof. unfold not_gt. rewrite negb_true_iff, N.eqb_neq. reflexivity. Qed.

(** When the expression does not match at a [<], a [>] follows at once
    or not at all; when it matches, the match ends at the first [>]. *)
Lemma re_tag_lt (s : jsstring) :
  match re_tag (60 :: s) with
  | Some n => exists i0 inner after,
                s = (i0 :: inner) ++ 62 :: after /\ i0 <> 62
                /\ n = S (S (S (length inner)))
  | None => (exists s'', s = 62 :: s'') \/ ~ In 62 s
  end.
Proof.
  change (re_tag (60 :: s))
    with (match span not_gt s with
          | ((_ :: _) as inner, 62 :: _) => Some (length inner + 2)%nat
          | _ => None
          end).
  destruct (span not_gt s) as [inner rest] eqn:Hspan.
  pose proof (span_spec _ _ _ _ Hspan) as (Hs & Hinner & Hrest).
  destruct inner as [|i0 inner].
  - cbn [app] in Hs. subst rest.
    destruct s as [|c s]; [right; intros []|].
    left. apply not_true_iff_false in Hrest.
    rewrite not_gt_true in Hrest.
    assert (c = 62) by (destruct (N.eq_dec c 62); [assumption | contradiction]).
    subst. eexists. reflexivity.
  - destruct rest as [|c rest].
    + right. rewrite Hs, app_nil_r. intros Hin.
      rewrite List.Forall_forall in Hinner.
      apply Hinner in Hin. vm_compute in Hin. discriminate.
    + apply not_true_iff_false in Hrest. rewrite not_gt_true in Hrest.
      assert (c = 62) by (destruct (N.eq_dec c 62); [assumption | contradiction]).
      subst c.
      replace (length (i0 :: inner) + 2)%nat with (S (S (S (length inner))))
        by (cbn [length]; lia).
      exists i0, inner, rest. split; [assumption|]. split; [|reflexivity].
      apply Forall_cons_1 in Hinner as [H0 _]. apply not_gt_true. assumption.
Qed.

(** After the tags are replaced, nothing stands between a [<] and a
    later [>]. *)
Lemma tags_closed_replace (n : nat) (s : jsstring) :
  (length s <= n)%nat -> tags_closed (replace_all re_tag (lit " ") s).
Proof.
  revert s. induction n as [|n IH]; intros s Hlen.
  { destruct s; [exact I | cbn in Hlen; lia]. }
  destruct s as [|c s]; [exact I|]. cbn [length] in Hlen.
  destruct (N.eq_dec c 60) as [->|Hc].
  - pose proof (re_tag_lt s) as Htag.
    destruct (re_tag (60 :: s)) as [k|] eqn:E.
    + destruct Htag as (i0 & inner & after & Hs & _ & ->).
      rewrite (replace_all_match _ _ _ _ _ E).
      assert (Hdrop : drop (S (S (length inner))) s = after).
      { rewrite Hs.
        change ((i0 :: inner) ++ 62 :: after)
          with ((i0 :: inner) ++ [62] ++ after).
        rewrite app_assoc.
        replace (S (S (length inner))) with (length ((i0 :: inner) ++ [62]))
          by (rewrite length_app; cbn; lia).
        apply drop_app_length. }
      rewrite Hdrop.
      change (lit " " ++ replace_all re_tag (lit " ") after)
        with (32 :: replace_all re_tag (lit " ") after).
      cbn [tags_closed]. split; [discriminate|].
      apply IH. rewrite Hs, length_app in Hlen. cbn [length] in Hlen.
      unfold jsstring, char16 in *. lia.
    + rewrite replace_all_copy by (left; assumption).
      cbn [tags_closed]. split; [|apply IH; lia].
      intros _. destruct Htag as [(s'' & ->)|Hno].
      * left. rewrite replace_all_copy
          by (left; apply re_tag_not_lt; discriminate).
        eexists. reflexivity.
      * right. intros Hin.
        assert (H : Forall (fun c => c <> 62) (replace_all re_tag (lit " ") s)).
        { apply replace_scan_Forall; [repeat constructor; discriminate|].
          apply List.Forall_forall. intros x Hx ->. contradiction. }
        rewrite List.Forall_forall in H. apply (H 62 Hin). reflexivity.
  - rewrite replace_all_copy by (left; apply re_tag_not_lt; assumption).
    cbn [tags_closed]. split; [contradiction|]. apply IH. lia.
Qed.

Lemma tags_closed_tag_free (s : jsstring) : tags_closed s -> tag_free s.
Proof.
  intros H before rest ->. apply tags_closed_suffix in H.
  destruct rest as [|c r]; [reflexivity|].
  destruct (N.eq_dec c 60) as [->|Hc]; [|apply re_tag_not_lt; assumption].
  destruct H as [Hhead _]. specialize (Hhead eq_refl).
  pose proof (re_tag_lt r) as Htag.
  destruct (re_tag (60 :: r)) as [k|] eqn:E; [|exact E]. exfalso.
  destruct Htag as (i0 & inner & after & Hr & Hi0 & _).
  destruct Hhead as [(s'' & Es)|Hno].
  - rewrite Es in Hr. cbn [app] in Hr. injection Hr as <- _. congruence.
  - apply Hno. rewrite Hr. apply in_or_app. right. left. reflexivity.
Qed.

(** The content of a page has no tag left. *)
Lemma content_tag_free (html : jsstring) :
  tag_free (truncate_words (page_text html)).
Proof.
  apply tags_closed_tag_free.
  unfold truncate_words. change (lit " ") with [32].
  destruct (join_take_prefix [32] 8000 (split_ws (page_text html))) as (tail & E).
  apply (tags_closed_prefix _ tail). rewrite <- E.
  apply (tags_closed_thinned (page_text html)).
  { exact (proj1 (thinned_join_split (page_text html)) []). }
  unfold page_text.
  eapply tags_closed_thinned; [apply thinned_trim|].
  eapply tags_closed_thinned; [apply (thinned_collapse _ _ (Nat.le_refl _))|].
  apply (tags_closed_replace _ _ (Nat.le_refl _)).
Qed.

End TagsClosed.

(* ================================================================== *)
(** * Lemmas: the arguments of the evaluation command *)
(* ================================================================== *)

(** The comparisons of an argument with the literals of the switch. *)
Ltac literal_tests :=
  repeat match goal with
         | |- context [jsstring_eqb (lit ?a) (lit ?b)] =>
             let v := eval vm_compute in (jsstring_eqb (lit a) (lit b)) in
             change (jsstring_eqb (lit a) (lit b)) with v
         end;
  cbv iota; cbn [orb].

Section ParseArgs.

Lemma jsstring_eqb_eq (a b : jsstring) : jsstring_eqb a b = true <-> a = b.
Proof.
  revert b. induction a as [|x a IH]; intros [|y b]; cbn; try (split; congruence).
  rewrite andb_true_iff, N.eqb_eq, IH. split.
  - intros [-> ->]. reflexivity.
  - intros [= -> ->]. split; reflexivity.
Qed.

Lemma jsstring_eqb_neq (a b : jsstring) : a <> b -> jsstring_eqb a b = false.
Proof.
  intros H. destruct (jsstring_eqb a b) eqn:E; [|reflexivity].
  apply jsstring_eqb_eq in E. contradiction.
Qed.

(** A turn depends on the rest of the loop only where it continues. *)
Lemma parseArgs_turn_ext (k k' : nat -> CliOptions -> IO CliOptions)
  (arg : jsstring) (next : option jsstring) (i i' : nat) (o : CliOptions) :
  (forall o', k (i + 1)%nat o' = k' (i' + 1)%nat o') ->
  (forall o', k (i + 2)%nat o' = k' (i' + 2)%nat o') ->
  parseArgs_turn k arg next i o = parseArgs_turn k' arg next i' o.
Proof.
  intros H1 H2. unfold parseArgs_turn.
  repeat match goal with
         | |- (if ?b then _ else _) = _ => destruct b
         end; cbv zeta; rewrite ?H1, ?H2; reflexivity.
Qed.

(** The loop looks at the arguments from [i] on only. *)
Lemma parseArgs_loop_shift (fuel : nat) (argv : list jsstring) (i : nat)
  (o : CliOptions) :
  parseArgs_loop fuel argv i o = parseArgs_loop fuel (drop i argv) 0 o.
Proof.
  revert argv i o. induction fuel as [|fuel IH]; intros argv i o; [reflexivity|].
  cbn [parseArgs_loop].
  rewrite !lookup_drop, Nat.add_0_r.
  destruct (argv !! i) as [arg|]; [|reflexivity].
  apply parseArgs_turn_ext; intros o'.
  - rewrite (IH argv (i + 1)%nat), (IH (drop i argv) (0 + 1)%nat), drop_drop.
    reflexivity.
  - rewrite (IH argv (i + 2)%nat), (IH (drop i argv) (0 + 2)%nat), drop_drop.
    reflexivity.
Qed.

(** More turns than arguments change nothing. *)
Lemma parseArgs_loop_fuel (fuel : nat) (argv : list jsstring) (i : nat)
  (o : CliOptions) :
  (length argv <= i + fuel)%nat ->
  parseArgs_loop (S fuel) argv i o = parseArgs_loop fuel argv i o.
Proof.
  revert i o. induction fuel as [|fuel IH]; intros i o Hlen.
  - cbn [parseArgs_loop]. rewrite lookup_ge_None_2 by lia. reflexivity.
  - change (parseArgs_loop (S (S fuel)) argv i o)
      with (match argv !! i with
            | None => io_ret o
            | Some arg =>
                parseArgs_turn (parseArgs_loop (S fuel) argv) arg
                  (argv !! (i + 1)%nat) i o
            end).
    change (parseArgs_loop (S fuel) argv i o)
      with (match argv !! i with
            | None => io_ret o
            | Some arg =>
                parseArgs_turn (parseArgs_loop fuel argv) arg
                  (argv !! (i + 1)%nat) i o
            end).
    destruct (argv !! i) as [arg|]; [|reflexivity].
    apply parseArgs_turn_ext; intros o'; apply IH; lia.
Qed.

Lemma parseArgs_loop_enough (fuel : nat) (argv : list jsstring) (o : CliOptions) :
  (length argv <= fuel)%nat ->
  parseArgs_loop fuel argv 0 o = parseArgs_with o argv.
Proof.
  unfold parseArgs_with. intros H.
  induction H as [|fuel H IH]; [reflexivity|].
  rewrite parseArgs_loop_fuel by lia. exact IH.
Qed.

(** The loop, argument by argument. *)
Lemma parseArgs_with_nil (o : CliOptions) : parseArgs_with o [] = io_ret o.
Proof. reflexivity. Qed.

Lemma parseArgs_with_cons (o : CliOptions) (arg : jsstring) (rest : list jsstring) :
  parseArgs_with o (arg :: rest)
  = parseArgs_turn
      (fun i o' => parseArgs_with o' (drop (i - 1) rest))
      arg (head rest) 0 o.
Proof.
  unfold parseArgs_with at 1. cbn [length parseArgs_loop].
  change ((arg :: rest) !! 0%nat) with (Some arg).
  change ((arg :: rest) !! (0 + 1)%nat) with (rest !! 0%nat).
  replace (rest !! 0%nat) with (head rest) by (destruct rest; reflexivity).
  apply parseArgs_turn_ext; intros o'.
  - rewrite parseArgs_loop_shift. cbn [Nat.add skipn Nat.sub].
    apply parseArgs_loop_enough. apply Nat.le_refl.
  - rewrite parseArgs_loop_shift. cbn [Nat.add Nat.sub].
    change (drop 2 (arg :: rest)) with (drop 1 rest).
    apply parseArgs_loop_enough. rewrite length_drop. apply Nat.le_sub_l.
Qed.

Lemma drop_1_tail {A} (l : list A) : drop (2 - 1) l = drop 1 l.
Proof. reflexivity. Qed.

Lemma parseArgs_with_value (flag : string) (set : option jsstring -> CliOptions -> CliOptions)
  (o : CliOptions) (rest : list jsstring) :
  (forall k next i o',
      parseArgs_turn k (lit flag) next i o' = k (i + 2)%nat (set next o')) ->
  parseArgs_with o (lit flag :: rest)
  = parseArgs_with (set (head rest) o) (drop 1 rest).
Proof.
  intros H. rewrite parseArgs_with_cons, H. reflexivity.
Qed.

Lemma parseArgs_with_switch (flag : string) (set : CliOptions -> CliOptions)
  (o : CliOptions) (rest : list jsstring) :
  (forall k next i o',
      parseArgs_turn k (lit flag) next i o' = k (i + 1)%nat (set o')) ->
  parseArgs_with o (lit flag :: rest) = parseArgs_with (set o) rest.
Proof.
  intros H. rewrite parseArgs_with_cons, H. reflexivity.
Qed.

Lemma parseArgs_with_unknown (o : CliOptions) (arg : jsstring) (rest : list jsstring) :
  ~ In arg known_arguments ->
  parseArgs_with o (arg :: rest) = io_throw (unknown_argument arg).
Proof.
  intros H. rewrite parseArgs_with_cons. unfold parseArgs_turn.
  unfold known_arguments in H. cbn [In] in H.
  rewrite !(jsstring_eqb_neq arg) by (intros ->; apply H; tauto).
  reflexivity.
Qed.

Lemma In_drop {A} (a : A) (k : nat) (l : list A) : In a (drop k l) -> In a l.
Proof.
  revert l. induction k as [|k IH]; intros l; [rewrite drop_0; trivial|].
  destruct l as [|x l]; [trivial|]. cbn [skipn]. intros H. right. apply IH, H.
Qed.

(** A number that passed the test of [--max-words]. *)
Lemma max_words_accepted (x : number) :
  negb (is_finite x) || num_le x (number_of_Z 0) = false -> positive_finite x.
Proof.
  intros H. apply orb_false_iff in H as [Hf Hle].
  apply negb_false_iff in Hf. split; [assumption|].
  destruct x as [[|]|[|]| |[|] m e]; cbn in Hf, Hle; try discriminate.
  reflexivity.
Qed.

(** Everything that [parseArgs] can do, from any options whose word
    limit is a positive number. *)
Lemma parseArgs_with_outcomes (n : nat) (argv : list jsstring) (o : CliOptions)
  (h : Host) (p : Process) :
  (length argv <= n)%nat ->
  positive_finite (opt_maxWords o) ->
  match parseArgs_with o argv h p with
  | (Returned o', p') => p' = p /\ positive_finite (opt_maxWords o')
  | (Thrown e, p') =>
      p' = p
      /\ (e = max_words_error
          \/ exists arg, In arg argv /\ ~ In arg known_arguments
                         /\ e = unknown_argument arg)
  | (Exited code, p') => code = 0 /\ p' = logged [help_text] p
  end.
Proof.
  revert argv o. induction n as [|n IH]; intros argv o Hlen Ho.
  { destruct argv; [|cbn in Hlen; lia]. cbn. split; [reflexivity | assumption]. }
  destruct argv as [|arg rest]; [cbn; split; [reflexivity | assumption]|].
  cbn [length] in Hlen.
  assert (Hrest : forall k o', positive_finite (opt_maxWords o') ->
            match parseArgs_with o' (drop k rest) h p with
            | (Returned o'', p') => p' = p /\ positive_finite (opt_maxWords o'')
            | (Thrown e, p') =>
                p' = p
                /\ (e = max_words_error
                    \/ exists a, In a (arg :: rest) /\ ~ In a known_arguments
                                 /\ e = unknown_argument a)
            | (Exited code, p') => code = 0 /\ p' = logged [help_text] p
            end).
  { intros k o' Ho'.
    specialize (IH (drop k rest) o'). rewrite length_drop in IH.
    specialize (IH ltac:(lia) Ho').
    destruct (parseArgs_with o' (drop k rest) h p) as [[o''|e|c] p']; try assumption.
    destruct IH as [Hp [He|(a & Ha & Hk & He)]]; (split; [assumption|]).
    - left. assumption.
    - right. exists a. split; [|split; assumption].
      right. apply (In_drop _ _ _ Ha). }
  rewrite parseArgs_with_cons. unfold parseArgs_turn.
  destruct (jsstring_eqb arg (lit "--")) eqn:E0; [apply Hrest; assumption|].
  destruct (jsstring_eqb arg (lit "--url")) eqn:E1; [apply Hrest; assumption|].
  destruct (jsstring_eqb arg (lit "--source")) eqn:E2; [apply Hrest; assumption|].
  destruct (jsstring_eqb arg (lit "--source-file")) eqn:E3; [apply Hrest; assumption|].
  destruct (jsstring_eqb arg (lit "--summary")) eqn:E4; [apply Hrest; assumption|].
  destruct (jsstring_eqb arg (lit "--summary-file")) eqn:E5; [apply Hrest; assumption|].
  destruct (jsstring_eqb arg (lit "--max-words")) eqn:E6.
  { cbv zeta.
    destruct (negb (is_finite (Number_of (head rest)))
              || num_le (Number_of (head rest)) (number_of_Z 0)) eqn:Et.
    - cbn. split; [reflexivity | left; reflexivity].
    - apply Hrest. apply max_words_accepted. assumption. }
  destruct (jsstring_eqb arg (lit "--skip-agent")) eqn:E7; [apply Hrest; assumption|].
  destruct (jsstring_eqb arg (lit "--json")) eqn:E8; [apply Hrest; assumption|].
  destruct (jsstring_eqb arg (lit "--compact")) eqn:E9; [apply Hrest; assumption|].
  destruct (jsstring_eqb arg (lit "--help") || jsstring_eqb arg (lit "-h")) eqn:E10.
  { cbn. split; reflexivity. }
  cbn. split; [reflexivity|]. right. exists arg.
  split; [left; reflexivity|]. split; [|reflexivity].
  apply orb_false_iff in E10 as [E10 E11].
  unfold known_arguments. cbn [In].
  intros [<-|[<-|[<-|[<-|[<-|[<-|[<-|[<-|[<-|[<-|[<-|[<-|[]]]]]]]]]]]]];
    discriminate.
Qed.

End ParseArgs.

(* ================================================================== *)
(** * Lemmas: the evaluation command *)
(* ================================================================== *)

Section Command.

Lemma logged_nil (p : Process) : logged [] p = p.
Proof. destruct p. unfold logged. cbn. rewrite app_nil_r. reflexivity. Qed.

Lemma logged_app (a b : list jsstring) (p : Process) :
  logged b (logged a p) = logged (a ++ b) p.
Proof. unfold logged. cbn. rewrite app_assoc. reflexivity. Qed.

Lemma called_nil (p : Process) : called [] p = p.
Proof.
  destruct p as [[n f t] o e]. unfold called. cbn. rewrite app_nil_r. reflexivity.
Qed.

Lemma called_app (a b : list event) (p : Process) :
  called b (called a p) = called (a ++ b) p.
Proof. unfold called. cbn. rewrite app_assoc. reflexivity. Qed.

Lemma logged_called (lines : list jsstring) (evs : list event) (p : Process) :
  logged lines (called evs p) = called evs (logged lines p).
Proof. reflexivity. Qed.

Lemma console_log_eq (line : jsstring) (h : Host) (p : Process) :
  console_log line h p = (Returned tt, logged [line] p).
Proof. reflexivity. Qed.

Lemma io_for_each_log {A} (f : A -> jsstring) (l : list A) (h : Host) (p : Process) :
  io_for_each (fun x => console_log (f x)) l h p
  = (Returned tt, logged (List.map f l) p).
Proof.
  revert p. induction l as [|x l IH]; intros p.
  - cbn. rewrite logged_nil. reflexivity.
  - cbn [io_for_each List.map]. unfold io_bind. rewrite console_log_eq, IH.
    rewrite logged_app. reflexivity.
Qed.

Lemma runEvals_eq (sourceText summary : jsstring) (silent : bool)
  (h : Host) (p : Process) :
  runEvals sourceText summary silent h p
  = (Returned (eval_results sourceText summary),
     logged (if silent then [] else result_lines (eval_results sourceText summary)) p).
Proof.
  unfold runEvals, io_bind. destruct silent; cbn [negb].
  - cbn [io_ret]. rewrite logged_nil. reflexivity.
  - rewrite io_for_each_log. reflexivity.
Qed.

(** An awaited call of the workflow's kind leaves the consoles alone.
    The tool fetches when its schema accepts the url, and only then. *)
Lemma await_fetchPageTool (u : jsstring) (h : Host) (p : Process) :
  (url_ok (host_env h) u = true ->
   exists c, await (fetchPageTool u) h p = (c, called [EvFetch u] p)
             /\ (forall code, c <> Exited code)
             /\ forall r, c = Returned r -> exists data, r = ToolData data)
  /\ (url_ok (host_env h) u = false ->
      await (fetchPageTool u) h p = (Returned ToolValidationError, p)).
Proof.
  unfold await, fetchPageTool, createTool. split; intros ->.
  - unfold fetchPageTool_execute, js_fetch, bind, log_event, throw, ret, lift.
    destruct (net_fetch (host_env h) _ u) as [res|e].
    + destruct (res_ok res); cbn [negb].
      * destruct (res_text res) as [html|e]; eexists;
          (split; [reflexivity|]); (split; [discriminate|]);
          intros r [= <-] || intros r [=]; eexists; reflexivity.
      * eexists. split; [reflexivity|]. split; [discriminate|]. intros r [=].
    + eexists. split; [reflexivity|]. split; [discriminate|]. intros r [=].
  - destruct p. reflexivity.
Qed.

Lemma await_generate (a : Agent) (prompt : jsstring) (h : Host) (p : Process) :
  exists c, await (agent_generate a prompt) h p
            = (c, called [EvGenerate (agent_id a) prompt] p)
            /\ forall code, c <> Exited code.
Proof.
  unfold await. rewrite agent_generate_eq.
  destruct (llm_generate (host_env h) _ _ _); eexists; split;
    try reflexivity; discriminate.
Qed.

Lemma readOptionalFile_cases (filePath : option jsstring) (h : Host) (p : Process) :
  exists c, readOptionalFile filePath h p = (c, p)
            /\ (forall code, c <> Exited code)
            /\ (falsy filePath = true -> c = Returned None).
Proof.
  destruct filePath as [[|x path]|].
  - eexists. split; [reflexivity|]. split; [discriminate | reflexivity].
  - unfold readOptionalFile, io_bind, fs_readFile.
    destruct (disk_readFile h (world p) _); eexists; (split; [reflexivity|]);
      (split; [discriminate | discriminate]).
  - eexists. split; [reflexivity|]. split; [discriminate | reflexivity].
Qed.

(** What the command prints once it has its results. *)
Lemma print_report_eq (o : CliOptions) (title : option jsstring)
  (summaryText : jsstring) (evalResults : list SummaryEvalResult)
  (h : Host) (p : Process) :
  (if opt_json o then
     console_log
       (json_line
          (if opt_compact o
           then stringify (payload title (opt_url o) summaryText evalResults)
           else stringify_gap (lit "  ") []
                  (payload title (opt_url o) summaryText evalResults)))
   else
     console_log (LF ++ lit "=== Summary Eval Report ===") ;;;
     console_log (lit "Title: " ++ template title) ;;;
     (if falsy (opt_url o) then io_ret tt
      else console_log (lit "URL: " ++ default [] (opt_url o))) ;;;
     console_log (LF ++ lit "Summary:" ++ LF) ;;;
     console_log summaryText ;;;
     console_log (LF ++ lit "Scores:" ++ LF) ;;;
     io_for_each
       (fun result =>
          console_log (lit "- " ++ lit (metric result) ++ lit ": "
                         ++ number_to_string (eval_score result)
                         ++ lit " (" ++ reason result ++ lit ")"))
       evalResults)%io h p
  = (Returned tt,
     logged (if opt_json o
             then [json_line
                     (if opt_compact o
                      then stringify
                             (payload title (opt_url o) summaryText evalResults)
                      else stringify_gap (lit "  ") []
                             (payload title (opt_url o) summaryText evalResults))]
             else report_lines (template title) (opt_url o) summaryText
                    evalResults) p).
Proof.
  destruct (opt_json o); [reflexivity|].
  unfold io_bind. rewrite !console_log_eq.
  unfold report_lines.
  destruct (falsy (opt_url o)).
  - cbn [io_ret]. rewrite !console_log_eq, io_for_each_log.
    rewrite !logged_app. reflexivity.
  - rewrite !console_log_eq, io_for_each_log.
    rewrite !logged_app. reflexivity.
Qed.

(** What a run has logged in the end, for a title that is a string or
    [undefined]. *)
Lemma printed_lines (o : CliOptions) (title : option jsstring)
  (src sm : jsstring) :
  (if opt_json o then [] else result_lines (eval_results src sm))
  ++ (if opt_json o
      then [json_line
              (if opt_compact o
               then stringify (payload title (opt_url o) sm (eval_results src sm))
               else stringify_gap (lit "  ") []
                      (payload title (opt_url o) sm (eval_results src sm)))]
      else report_lines (template title) (opt_url o) sm (eval_results src sm))
  = match title with
    | Some t => printed o t src sm
    | None => printed_untitled o src sm
    end.
Proof.
  unfold printed, printed_untitled, json_report.
  destruct title as [t|]; destruct (opt_json o); reflexivity.
Qed.

(** The command after its options are read: the calls it has made are
    the fetch, if the tool accepted the url of [--url], and then the
    question to the summarizer, if neither [--skip-agent] nor the text
    of a summary was given; it has logged nothing when it failed and
    the results with their report when it succeeded. *)
Lemma main_cases (h : Host) (p : Process) (o : CliOptions) :
  parseArgs (drop 2 (process_argv h)) h p = (Returned o, p) ->
  exists c fe ge lines,
    main h p = (c, logged lines (called (fe ++ ge) p))
    /\ (forall code, c <> Exited code)
    /\ (fe = []
        \/ exists u, fe = [EvFetch u] /\ opt_url o = Some u /\ u <> []
                     /\ url_ok (host_env h) u = true)
    /\ (ge = []
        \/ exists prompt,
             ge = [EvGenerate "summarizer" prompt]
             /\ opt_skipAgent o = false /\ falsy (opt_summary o) = true)
    /\ match c with
       | Returned _ =>
           exists src sm,
             src <> [] /\ sm <> []
             /\ ((exists title, lines = printed o title src sm)
                 \/ (lines = printed_untitled o src sm
                     /\ exists u, opt_url o = Some u /\ u <> []
                                  /\ url_ok (host_env h) u = false))
       | _ => lines = []
       end.
Proof.
  intros Hparse.
  assert (Hstop : forall (e : exn) fe ge q,
             q = called (fe ++ ge) p ->
             (fe = []
              \/ exists u, fe = [EvFetch u] /\ opt_url o = Some u /\ u <> []
                           /\ url_ok (host_env h) u = true) ->
             (ge = []
              \/ exists prompt,
                   ge = [EvGenerate "summarizer" prompt]
                   /\ opt_skipAgent o = false /\ falsy (opt_summary o) = true) ->
             exists c fe' ge' lines,
               (@Thrown unit e, q)
               = (c, logged lines (called (fe' ++ ge') p))
               /\ (forall code, c <> Exited code)
               /\ (fe' = []
                   \/ exists u, fe' = [EvFetch u] /\ opt_url o = Some u /\ u <> []
                                /\ url_ok (host_env h) u = true)
               /\ (ge' = []
                   \/ exists prompt,
                        ge' = [EvGenerate "summarizer" prompt]
                        /\ opt_skipAgent o = false /\ falsy (opt_summary o) = true)
               /\ match c with
                  | Returned _ =>
                      exists src sm,
                        src <> [] /\ sm <> []
                        /\ ((exists title, lines = printed o title src sm)
                            \/ (lines = printed_untitled o src sm
                                /\ exists u, opt_url o = Some u /\ u <> []
                                             /\ url_ok (host_env h) u = false))
                  | _ => lines = []
                  end).
  { intros e fe ge q -> Hfe Hge. exists (Thrown e), fe, ge, [].
    rewrite logged_nil. repeat split; try assumption; discriminate. }
  unfold main. unfold io_bind at 1. rewrite Hparse.
  unfold io_bind at 1.
  destruct (readOptionalFile_cases (opt_sourceFile o) h p) as (c1 & E1 & N1 & _).
  rewrite E1. destruct c1 as [sourceFromFile|e|code];
    [| apply (Hstop e [] []); [symmetry; apply called_nil | left; reflexivity ..]
     | destruct (N1 code eq_refl)].
  unfold io_bind at 1.
  destruct (readOptionalFile_cases (opt_summaryFile o) h p) as (c2 & E2 & N2 & _).
  rewrite E2. destruct c2 as [summaryFromFile|e|code];
    [| apply (Hstop e [] []); [symmetry; apply called_nil | left; reflexivity ..]
     | destruct (N2 code eq_refl)].
  unfold io_bind at 1.
  set (sourceText := or_else (opt_source o) sourceFromFile).
  (* the fetch *)
  assert (Hfetch : exists c fe,
             (if falsy (opt_url o)
              then io_ret (Some (lit "Custom Source"), sourceText)
              else
                io_bind (await (fetchPageTool (default [] (opt_url o))))
                  (fun fetched =>
                     io_ret (fetched_title fetched,
                             or_else sourceText (fetched_content fetched)))) h p
             = (c, called fe p)
             /\ (forall code, c <> Exited code)
             /\ (fe = []
                 \/ exists u, fe = [EvFetch u] /\ opt_url o = Some u /\ u <> []
                              /\ url_ok (host_env h) u = true)
             /\ forall title text, c = Returned (title, text) ->
                  title = None ->
                  exists u, opt_url o = Some u /\ u <> []
                            /\ url_ok (host_env h) u = false).
  { destruct (opt_url o) as [[|u0 u]|] eqn:Eu; cbn [falsy].
    - exists (Returned (Some (lit "Custom Source"), sourceText)), [].
      rewrite called_nil. split; [reflexivity|]. split; [discriminate|].
      split; [left; reflexivity|]. intros title text [= <- _]. discriminate.
    - change (default [] (Some (u0 :: u))) with (u0 :: u).
      destruct (await_fetchPageTool (u0 :: u) h p) as [Hyes Hno].
      destruct (url_ok (host_env h) (u0 :: u)) eqn:Ok.
      + destruct (Hyes eq_refl) as (c & Ec & Nc & Hdata).
        unfold io_bind. rewrite Ec.
        assert (Hfe : [EvFetch (u0 :: u)] = []
                      \/ exists u', [EvFetch (u0 :: u)] = [EvFetch u']
                                    /\ Some (u0 :: u) = Some u' /\ u' <> []
                                    /\ url_ok (host_env h) u' = true).
        { right. exists (u0 :: u). repeat split; [discriminate | exact Ok]. }
        destruct c as [fetched|e|code].
        * destruct (Hdata fetched eq_refl) as [data ->].
          eexists _, _. split; [reflexivity|]. split; [discriminate|].
          split; [exact Hfe|]. intros title text [= <- _]. discriminate.
        * eexists _, _. split; [reflexivity|]. split; [discriminate|].
          split; [exact Hfe|]. intros title text [=].
        * destruct (Nc code eq_refl).
      + unfold io_bind. rewrite (Hno eq_refl).
        eexists _, []. rewrite called_nil. split; [reflexivity|].
        split; [discriminate|]. split; [left; reflexivity|].
        intros title text _ _. exists (u0 :: u).
        repeat split; [discriminate | exact Ok].
    - exists (Returned (Some (lit "Custom Source"), sourceText)), [].
      rewrite called_nil. split; [reflexivity|]. split; [discriminate|].
      split; [left; reflexivity|]. intros title text [= <- _]. discriminate. }
  destruct Hfetch as (c3 & fe & E3 & N3 & Hfe & Htitle).
  rewrite E3. destruct c3 as [[title text]|e|code]; cbn [fst snd].
  2:{ apply (Hstop e fe []);
        [rewrite app_nil_r; reflexivity | exact Hfe | left; reflexivity]. }
  2:{ destruct (N3 code eq_refl). }
  specialize (Htitle title text eq_refl). clear E3 N3.
  destruct (falsy text) eqn:Etext.
  { apply (Hstop no_source_error fe []);
      [rewrite app_nil_r; reflexivity | exact Hfe | left; reflexivity]. }
  unfold io_bind at 1.
  set (summaryText := or_else (opt_summary o) summaryFromFile).
  assert (Hgen : exists c ge,
             (if falsy summaryText && negb (opt_skipAgent o)
              then
                io_bind (await (agent_generate summarizerAgent
                                  (agent_prompt o (default [] text))))
                  (fun t => io_ret (Some t))
              else io_ret summaryText) h (called fe p)
             = (c, called (fe ++ ge) p)
             /\ (forall code, c <> Exited code)
             /\ (ge = []
                 \/ exists prompt,
                      ge = [EvGenerate "summarizer" prompt]
                      /\ opt_skipAgent o = false /\ falsy (opt_summary o) = true)).
  { destruct (falsy summaryText && negb (opt_skipAgent o)) eqn:Et.
    - apply andb_true_iff in Et as [Es Ek]. apply negb_true_iff in Ek.
      assert (Ho : falsy (opt_summary o) = true).
      { unfold summaryText, or_else in Es.
        destruct (opt_summary o) as [[|]|]; reflexivity || discriminate. }
      destruct (await_generate summarizerAgent (agent_prompt o (default [] text)) h
                  (called fe p)) as (c & Ec & Nc).
      unfold io_bind. rewrite Ec, called_app.
      assert (Hge : [EvGenerate (agent_id summarizerAgent)
                       (agent_prompt o (default [] text))] = []
                    \/ exists prompt,
                         [EvGenerate (agent_id summarizerAgent)
                            (agent_prompt o (default [] text))]
                         = [EvGenerate "summarizer" prompt]
                         /\ opt_skipAgent o = false /\ falsy (opt_summary o) = true).
      { right. eexists. split; [reflexivity | split; assumption]. }
      destruct c as [t|e|code].
      + eexists _, _. split; [reflexivity|]. split; [discriminate | exact Hge].
      + eexists _, _. split; [reflexivity|]. split; [discriminate | exact Hge].
      + destruct (Nc code eq_refl).
    - exists (Returned summaryText), []. rewrite app_nil_r.
      split; [reflexivity|]. split; [discriminate | left; reflexivity]. }
  destruct Hgen as (c4 & ge & E4 & N4 & Hge).
  rewrite E4. destruct c4 as [summary'|e|code].
  2:{ apply (Hstop e fe ge); [reflexivity | assumption ..]. }
  2:{ destruct (N4 code eq_refl). }
  clear E4 N4.
  destruct (falsy summary') eqn:Esum;
    [apply (Hstop no_summary_error fe ge); [reflexivity | assumption ..]|].
  unfold io_bind at 1. rewrite runEvals_eq.
  rewrite print_report_eq, logged_app, printed_lines.
  exists (Returned tt), fe, ge. eexists. split; [reflexivity|].
  split; [discriminate|]. split; [exact Hfe|]. split; [exact Hge|].
  exists (default [] text), (default [] summary').
  split; [destruct text as [[|]|]; discriminate|].
  split; [destruct summary' as [[|]|]; discriminate|].
  destruct title as [t|].
  - left. exists t. reflexivity.
  - right. split; [reflexivity | apply Htitle; reflexivity].
Qed.

Lemma parseArgs_cases (argv : list jsstring) (h : Host) (p : Process) :
  match parseArgs argv h p with
  | (Returned o, p') => p' = p /\ positive_finite (opt_maxWords o)
  | (Thrown e, p') =>
      p' = p
      /\ (e = max_words_error
          \/ exists arg, In arg argv /\ ~ In arg known_arguments
                         /\ e = unknown_argument arg)
  | (Exited code, p') => code = 0 /\ p' = logged [help_text] p
  end.
Proof.
  apply (parseArgs_with_outcomes (length argv) argv initial_options h p).
  - apply Nat.le_refl.
  - split; reflexivity.
Qed.

(** The command exits by itself only after printing the help. *)
Lemma main_exit (h : Host) (p : Process) (code : N) (p' : Process) :
  main h p = (Exited code, p') -> code = 0 /\ p' = logged [help_text] p.
Proof.
  intros Hmain.
  pose proof (parseArgs_cases (drop 2 (process_argv h)) h p) as Hparse.
  destruct (parseArgs (drop 2 (process_argv h)) h p) as [[o|e|c] p1] eqn:E.
  - destruct Hparse as [-> _].
    destruct (main_cases h p o E) as (c & fe & ge & lines & Em & Hno & _).
    rewrite Hmain in Em. injection Em as <- _. destruct (Hno code eq_refl).
  - unfold main, io_bind in Hmain. rewrite E in Hmain. discriminate.
  - unfold main, io_bind in Hmain. rewrite E in Hmain.
    injection Hmain as <- <-. assumption.
Qed.

Lemma readOptionalFile_none (filePath : option jsstring) (h : Host) (p : Process) :
  falsy filePath = true -> readOptionalFile filePath h p = (Returned None, p).
Proof.
  intros H. destruct (readOptionalFile_cases filePath h p) as (c & E & _ & Hc).
  rewrite E, (Hc H). reflexivity.
Qed.

(** With the source and the summary given as texts, the command calls
    nobody. *)
Lemma main_offline (h : Host) (p : Process) (o : CliOptions) (src sm : jsstring) :
  parseArgs (drop 2 (process_argv h)) h p = (Returned o, p) ->
  falsy (opt_url o) = true ->
  falsy (opt_sourceFile o) = true ->
  falsy (opt_summaryFile o) = true ->
  opt_source o = Some src -> src <> [] ->
  opt_summary o = Some sm -> sm <> [] ->
  main h p = (Returned tt, logged (printed o (lit "Custom Source") src sm) p).
Proof.
  intros Hparse Hurl Hsf Hmf Hsrc Hsrc_ne Hsm Hsm_ne.
  unfold main. unfold io_bind at 1. rewrite Hparse.
  unfold io_bind at 1. rewrite (readOptionalFile_none _ h p Hsf).
  unfold io_bind at 1. rewrite (readOptionalFile_none _ h p Hmf).
  match goal with
  | |- context [io_bind (if falsy (opt_url o) then ?A else ?B)] =>
      replace (if falsy (opt_url o) then A else B) with A
        by (rewrite Hurl; reflexivity)
  end.
  unfold io_bind at 1. rewrite Hsrc, Hsm.
  cbn [or_else io_ret fst snd].
  destruct src as [|s0 src]; [congruence|].
  destruct sm as [|m0 sm]; [congruence|].
  change (falsy (Some (s0 :: src))) with false.
  change (falsy (Some (m0 :: sm))) with false.
  cbn [andb]. unfold io_bind at 1. cbn [io_ret].
  change (falsy (Some (m0 :: sm))) with false. cbv iota.
  change (default [] (Some (s0 :: src))) with (s0 :: src).
  change (default [] (Some (m0 :: sm))) with (m0 :: sm).
  unfold io_bind at 1. rewrite runEvals_eq.
  rewrite print_report_eq, logged_app, printed_lines. reflexivity.
Qed.

(** Without a source text the command fails before it asks anybody. *)
Lemma main_no_source (h : Host) (p : Process) (o : CliOptions) :
  parseArgs (drop 2 (process_argv h)) h p = (Returned o, p) ->
  falsy (opt_url o) = true ->
  falsy (opt_sourceFile o) = true ->
  falsy (opt_summaryFile o) = true ->
  falsy (opt_source o) = true ->
  main h p = (Thrown no_source_error, p).
Proof.
  intros Hparse Hurl Hsf Hmf Hsrc.
  unfold main. unfold io_bind at 1. rewrite Hparse.
  unfold io_bind at 1. rewrite (readOptionalFile_none _ h p Hsf).
  unfold io_bind at 1. rewrite (readOptionalFile_none _ h p Hmf).
  match goal with
  | |- context [io_bind (if falsy (opt_url o) then ?A else ?B)] =>
      replace (if falsy (opt_url o) then A else B) with A
        by (rewrite Hurl; reflexivity)
  end.
  unfold io_bind at 1. cbn [io_ret fst snd].
  replace (falsy (or_else (opt_source o) None)) with true; [reflexivity|].
  destruct (opt_source o) as [[|]|]; reflexivity || discriminate.
Qed.

(** An empty source text is no source, whatever else is given. *)
Lemma main_empty_source (h : Host) (p : Process) (o : CliOptions) :
  parseArgs (drop 2 (process_argv h)) h p = (Returned o, p) ->
  opt_source o = Some [] ->
  exists e p', main h p = (Thrown e, p').
Proof.
  intros Hparse Hsrc.
  unfold main. unfold io_bind at 1. rewrite Hparse.
  unfold io_bind at 1.
  destruct (readOptionalFile_cases (opt_sourceFile o) h p) as (c1 & E1 & N1 & _).
  rewrite E1. destruct c1 as [sourceFromFile|e|code];
    [|eexists _, _; reflexivity | destruct (N1 code eq_refl)].
  unfold io_bind at 1.
  destruct (readOptionalFile_cases (opt_summaryFile o) h p) as (c2 & E2 & N2 & _).
  rewrite E2. destruct c2 as [summaryFromFile|e|code];
    [|eexists _, _; reflexivity | destruct (N2 code eq_refl)].
  unfold io_bind at 1. rewrite Hsrc. cbn [or_else].
  destruct (falsy (opt_url o)).
  - cbn [io_ret fst snd falsy]. eexists _, _. reflexivity.
  - destruct (await_fetchPageTool (default [] (opt_url o)) h p) as [Hyes Hno].
    unfold io_bind at 1.
    destruct (url_ok (host_env h) (default [] (opt_url o))).
    + destruct (Hyes eq_refl) as (c & Ec & Nc & _). rewrite Ec.
      destruct c as [fetched|e|code];
        [|eexists _, _; reflexivity | destruct (Nc code eq_refl)].
      cbn [io_ret fst snd falsy]. eexists _, _. reflexivity.
    + rewrite (Hno eq_refl).
      cbn [io_ret fst snd falsy]. eexists _, _. reflexivity.
Qed.

End Command.

(* ================================================================== *)
(** * Lemmas: the arithmetic of the scores *)
(* ================================================================== *)

Section BinaryFloats.

Local Open Scope Z_scope.

Lemma digits2_pos_bounds (a : positive) :
  2 ^ (Zpos (digits2_pos a) - 1) <= Zpos a < 2 ^ Zpos (digits2_pos a).
Proof.
  induction a as [a IH|a IH|]; cbn [digits2_pos].
  - rewrite Pos2Z.inj_succ.
    replace (Z.succ (Z.pos (digits2_pos a)) - 1) with (Z.succ (Z.pos (digits2_pos a) - 1)) by lia.
    rewrite !Z.pow_succ_r by lia. lia.
  - rewrite Pos2Z.inj_succ.
    replace (Z.succ (Z.pos (digits2_pos a)) - 1) with (Z.succ (Z.pos (digits2_pos a) - 1)) by lia.
    rewrite !Z.pow_succ_r by lia. lia.
  - cbn. lia.
Qed.

Lemma digits2_pos_unique (a : positive) (k : Z) :
  2 ^ (k - 1) <= Zpos a < 2 ^ k -> Zpos (digits2_pos a) = k.
Proof.
  intros [Hlo Hhi]. pose proof (digits2_pos_bounds a) as [Blo Bhi].
  assert (0 < k).
  { destruct (Z.lt_trichotomy k 0) as [?|[?|?]]; try lia.
    - rewrite Z.pow_neg_r in Hhi by lia. lia.
    - subst. cbn in Hhi. lia. }
  set (d := Zpos (digits2_pos a)) in *.
  destruct (Z.lt_trichotomy d k) as [Hlt|[?|Hgt]]; [|assumption|]; exfalso.
  - assert (2 ^ d <= 2 ^ (k - 1)) by (apply Z.pow_le_mono_r; lia). lia.
  - assert (2 ^ k <= 2 ^ (d - 1)) by (apply Z.pow_le_mono_r; lia). lia.
Qed.

Lemma iter_xO_value (a k : positive) : Zpos (Pos.iter xO a k) = Zpos a * 2 ^ Zpos k.
Proof.
  induction k as [|k IH] using Pos.peano_ind.
  - cbn. lia.
  - rewrite Pos.iter_succ, Pos2Z.inj_succ, Z.pow_succ_r by lia.
    rewrite Pos2Z.inj_xO, IH. lia.
Qed.

Lemma iter_xO_digits (a k : positive) :
  Zpos (digits2_pos (Pos.iter xO a k)) = Zpos (digits2_pos a) + Zpos k.
Proof.
  induction k as [|k IH] using Pos.peano_ind.
  - cbn. lia.
  - rewrite Pos.iter_succ. cbn [digits2_pos]. rewrite !Pos2Z.inj_succ, IH. lia.
Qed.

Lemma loc_of_shr_record_of_loc (m : Z) (l : location) :
  loc_of_shr_record (shr_record_of_loc m l) = l.
Proof. destruct l as [|[| |]]; reflexivity. Qed.

Lemma shr_m_of_loc (m : Z) (l : location) : shr_m (shr_record_of_loc m l) = m.
Proof. destruct l as [|[| |]]; reflexivity. Qed.

Lemma shr_fexp_keep (m : positive) (e : Z) (l : location) :
  Zpos (digits2_pos m) = 53 -> -1074 <= e ->
  shr_fexp 53 1024 (Zpos m) e l = (shr_record_of_loc (Zpos m) l, e).
Proof.
  intros Hd He. unfold shr_fexp, Zdigits2. rewrite Hd.
  replace (fexp 53 1024 (53 + e) - e) with 0.
  - reflexivity.
  - unfold fexp, emin. lia.
Qed.

Lemma shr_fexp_one (m : positive) (e : Z) (l : location) :
  Zpos (digits2_pos m) = 54 -> -1075 <= e ->
  shr_fexp 53 1024 (Zpos m) e l = (shr_1 (shr_record_of_loc (Zpos m) l), e + 1).
Proof.
  intros Hd He. unfold shr_fexp, Zdigits2. rewrite Hd.
  replace (fexp 53 1024 (54 + e) - e) with 1.
  - reflexivity.
  - unfold fexp, emin. lia.
Qed.

Lemma round_nearest_even_cases (m : Z) (l : location) :
  round_nearest_even m l = m \/ round_nearest_even m l = m + 1.
Proof.
  destruct l as [|[| |]]; cbn; auto. destruct (Z.even m); auto.
Qed.

(** Rounding a mantissa of 53 digits: it stays, or goes up by one, and
    a carry gives [2^52] with the next exponent. *)
Lemma binary_round_aux_53 (s : bool) (q : positive) (e : Z) (l : location) :
  Zpos (digits2_pos q) = 53 -> -1074 <= e <= 970 ->
  exists m' e',
    binary_round_aux 53 1024 s (Zpos q) e l = S754_finite s m' e'
    /\ 2 ^ 52 <= Zpos m' < 2 ^ 53
    /\ ((e' = e /\ (m' = q \/ Zpos m' = Zpos q + 1))
        \/ (e' = e + 1 /\ Zpos m' = 2 ^ 52))
    /\ (l = loc_Exact -> m' = q /\ e' = e).
Proof.
  intros Hd He. unfold binary_round_aux.
  rewrite shr_fexp_keep by (assumption || lia).
  rewrite shr_m_of_loc, loc_of_shr_record_of_loc.
  pose proof (digits2_pos_bounds q) as Hq. rewrite Hd in Hq.
  change (53 - 1) with 52 in Hq.
  destruct (round_nearest_even_cases (Zpos q) l) as [E|E].
  - rewrite E. rewrite shr_fexp_keep by (assumption || lia).
    cbn [shr_m shr_record_of_loc].
    replace (e <=? 1024 - 53) with true by (symmetry; apply Z.leb_le; lia).
    exists q, e. split; [reflexivity|]. split; [assumption|].
    split; [left; split; [reflexivity | left; reflexivity] | auto].
  - assert (Hl : l <> loc_Exact).
    { intros ->. cbn in E. lia. }
    rewrite E.
    destruct (Z.eq_dec (Zpos q + 1) (2 ^ 53)) as [Hc|Hc].
    + (* carry *)
      rewrite Hc. change (2 ^ 53) with (Zpos (2 ^ 53)).
      rewrite shr_fexp_one by (reflexivity || lia).
      cbn [shr_record_of_loc shr_1 shr_m].
      replace (e + 1 <=? 1024 - 53) with true by (symmetry; apply Z.leb_le; lia).
      exists (2 ^ 52)%positive, (e + 1). split; [reflexivity|].
      split; [cbn; lia|]. split; [right; split; reflexivity | contradiction].
    + assert (Hq1 : Zpos (digits2_pos (q + 1)) = 53).
      { apply digits2_pos_unique. change (53 - 1) with 52.
        rewrite Pos2Z.inj_add. lia. }
      change (Zpos q + 1) with (Zpos q + Zpos 1). rewrite <- Pos2Z.inj_add.
      rewrite shr_fexp_keep by (assumption || lia).
      cbn [shr_m shr_record_of_loc].
      replace (e <=? 1024 - 53) with true by (symmetry; apply Z.leb_le; lia).
      exists (q + 1)%positive, e. split; [reflexivity|].
      split; [rewrite Pos2Z.inj_add; lia|].
      split; [left; split; [reflexivity | right; apply Pos2Z.inj_add]
             | contradiction].
Qed.

(** Rounding a mantissa of 54 digits: its last digit goes. *)
Lemma binary_round_aux_54 (s : bool) (q : positive) (e : Z) (l : location) :
  Zpos (digits2_pos q) = 54 -> -1075 <= e <= 969 ->
  exists m' e',
    binary_round_aux 53 1024 s (Zpos q) e l = S754_finite s m' e'
    /\ 2 ^ 52 <= Zpos m' < 2 ^ 53
    /\ (e' = e + 1 \/ (e' = e + 2 /\ Zpos m' = 2 ^ 52))
    /\ (l = loc_Exact -> forall h, q = xO h -> m' = h /\ e' = e + 1).
Proof.
  intros Hd He. unfold binary_round_aux.
  rewrite shr_fexp_one by (assumption || lia).
  pose proof (digits2_pos_bounds q) as Hq. rewrite Hd in Hq.
  change (54 - 1) with 53 in Hq.
  assert (Hhalf : exists h (r : bool),
             shr_1 (shr_record_of_loc (Zpos q) l)
             = {| shr_m := Zpos h; shr_r := r;
                  shr_s := match l with loc_Exact => false | _ => true end |}
             /\ (q = xO h /\ r = false \/ q = xI h /\ r = true)).
  { destruct q as [h|h|]; [| |cbn in Hq; lia].
    - exists h, true. split; [|right; split; reflexivity].
      destruct l as [|[| |]]; reflexivity.
    - exists h, false. split; [|left; split; reflexivity].
      destruct l as [|[| |]]; reflexivity. }
  destruct Hhalf as (h & r & Eh & Hq').
  rewrite Eh. cbn [shr_m].
  assert (Hh : 2 ^ 52 <= Zpos h < 2 ^ 53).
  { destruct Hq' as [[-> _]|[-> _]].
    - rewrite Pos2Z.inj_xO in Hq. lia.
    - rewrite Pos2Z.inj_xI in Hq. lia. }
  assert (Hdh : Zpos (digits2_pos h) = 53).
  { apply digits2_pos_unique. change (53 - 1) with 52. assumption. }
  set (l' := loc_of_shr_record _).
  destruct (round_nearest_even_cases (Zpos h) l') as [E|E].
  - rewrite E. rewrite shr_fexp_keep by (assumption || lia).
    cbn [shr_m shr_record_of_loc].
    replace (e + 1 <=? 1024 - 53) with true by (symmetry; apply Z.leb_le; lia).
    exists h, (e + 1). split; [reflexivity|]. split; [assumption|].
    split; [left; reflexivity|].
    intros _ h' ->. destruct Hq' as [[[= ->] _]|[[=] _]]. split; reflexivity.
  - rewrite E.
    assert (Hnot : l = loc_Exact -> forall h', q = xO h' -> False).
    { intros -> h' ->. destruct Hq' as [[[= ->] ->]|[[=] _]].
      unfold l' in E. cbn in E. lia. }
    destruct (Z.eq_dec (Zpos h + 1) (2 ^ 53)) as [Hc|Hc].
    + rewrite Hc. change (2 ^ 53) with (Zpos (2 ^ 53)).
      rewrite shr_fexp_one by (reflexivity || lia).
      cbn [shr_record_of_loc shr_1 shr_m].
      replace (e + 1 + 1 <=? 1024 - 53) with true
        by (symmetry; apply Z.leb_le; lia).
      exists (2 ^ 52)%positive, (e + 1 + 1). split; [reflexivity|].
      split; [cbn; lia|].
      split; [right; split; [lia | reflexivity]|].
      intros Hl h' Hh'. destruct (Hnot Hl h' Hh').
    + assert (Hq1 : Zpos (digits2_pos (h + 1)) = 53).
      { apply digits2_pos_unique. change (53 - 1) with 52.
        rewrite Pos2Z.inj_add. lia. }
      change (Zpos h + 1) with (Zpos h + Zpos 1). rewrite <- Pos2Z.inj_add.
      rewrite shr_fexp_keep by (assumption || lia).
      cbn [shr_m shr_record_of_loc].
      replace (e + 1 <=? 1024 - 53) with true by (symmetry; apply Z.leb_le; lia).
      exists (h + 1)%positive, (e + 1). split; [reflexivity|].
      split; [rewrite Pos2Z.inj_add; lia|].
      split; [left; reflexivity|].
      intros Hl h' Hh'. destruct (Hnot Hl h' Hh').
Qed.

Lemma shl_align_spec (m : positive) (e e' : Z) :
  e' <= e ->
  exists m', shl_align m e e' = (m', e')
             /\ Zpos m' = Zpos m * 2 ^ (e - e')
             /\ Zpos (digits2_pos m') = Zpos (digits2_pos m) + (e - e').
Proof.
  intros He. unfold shl_align.
  destruct (e' - e) as [|k|k] eqn:Ek; [|lia|].
  - assert (e' = e) by lia. subst e'. exists m.
    rewrite Z.sub_diag, Z.pow_0_r, Z.mul_1_r, Z.add_0_r. auto.
  - exists (Pos.iter xO m k). replace (e - e') with (Zpos k) by lia.
    rewrite iter_xO_value, iter_xO_digits. auto.
Qed.


Lemma int_digits_le (a : positive) : Zpos a < 2 ^ 53 -> Zpos (digits2_pos a) <= 53.
Proof.
  intros Ha. pose proof (digits2_pos_bounds a) as [Hlo _].
  destruct (Z.le_gt_cases (Zpos (digits2_pos a)) 53) as [?|Hgt]; [assumption|].
  assert (2 ^ 53 <= 2 ^ (Zpos (digits2_pos a) - 1)) by (apply Z.pow_le_mono_r; lia).
  lia.
Qed.

Lemma int_mantissa_spec (a : positive) :
  Zpos a < 2 ^ 53 ->
  Zpos (int_mantissa a) = Zpos a * 2 ^ (53 - Zpos (digits2_pos a))
  /\ Zpos (digits2_pos (int_mantissa a)) = 53
  /\ -52 <= int_exponent a <= 0.
Proof.
  intros Ha. pose proof (int_digits_le a Ha) as Hd.
  unfold int_mantissa, int_exponent.
  destruct (shl_align_spec a 0 (Zpos (digits2_pos a) - 53) ltac:(lia))
    as (m' & E & Hv & Hdig).
  rewrite E. cbn [fst].
  replace (0 - (Zpos (digits2_pos a) - 53)) with (53 - Zpos (digits2_pos a)) in * by lia.
  split; [assumption|]. split; [lia|]. lia.
Qed.

Lemma binary_round_aux_exact (s : bool) (m : positive) (e : Z) :
  Zpos (digits2_pos m) = 53 -> -1074 <= e <= 970 ->
  binary_round_aux 53 1024 s (Zpos m) e loc_Exact = S754_finite s m e.
Proof.
  intros Hd He.
  destruct (binary_round_aux_53 s m e loc_Exact Hd He) as (m' & e' & E & _ & _ & Hex).
  destruct (Hex eq_refl) as [-> ->]. exact E.
Qed.

Lemma number_of_Z_pos (a : positive) :
  Zpos a < 2 ^ 53 ->
  number_of_Z (Zpos a) = S754_finite false (int_mantissa a) (int_exponent a).
Proof.
  intros Ha. pose proof (int_digits_le a Ha) as Hd.
  destruct (int_mantissa_spec a Ha) as (Hv & Hdig & He).
  unfold number_of_Z, binary_normalize, binary_round.
  replace (fexp 53 1024 (Zpos (digits2_pos a) + 0)) with (Zpos (digits2_pos a) - 53)
    by (unfold fexp, emin; lia).
  unfold int_mantissa, int_exponent in *.
  destruct (shl_align_spec a 0 (Zpos (digits2_pos a) - 53) ltac:(lia))
    as (m' & E & _ & _).
  rewrite E in *. cbn [fst] in *.
  apply binary_round_aux_exact; [assumption | lia].
Qed.

(** Integers compare as their numbers do. *)
Lemma SFcompare_int (a b : positive) :
  Zpos a < 2 ^ 53 -> Zpos b < 2 ^ 53 ->
  SFcompare (number_of_Z (Zpos a)) (number_of_Z (Zpos b)) = Some (Pos.compare a b).
Proof.
  intros Ha Hb. rewrite !number_of_Z_pos by assumption.
  destruct (int_mantissa_spec a Ha) as (Hva & _ & _).
  destruct (int_mantissa_spec b Hb) as (Hvb & _ & _).
  pose proof (digits2_pos_bounds a) as [Alo Ahi].
  pose proof (digits2_pos_bounds b) as [Blo Bhi].
  pose proof (int_digits_le a Ha). pose proof (int_digits_le b Hb).
  cbn [SFcompare]. f_equal. unfold int_exponent.
  set (da := Zpos (digits2_pos a)) in *. set (db := Zpos (digits2_pos b)) in *.
  destruct (Z.compare_spec (da - 53) (db - 53)) as [E|E|E].
  - assert (da = db) by lia.
    change (Pos.compare_cont Eq (int_mantissa a) (int_mantissa b))
      with (Pos.compare (int_mantissa a) (int_mantissa b)).
    rewrite !Pos2Z.inj_compare, Hva, Hvb.
    replace db with da by assumption.
    assert (Hk : 0 < 2 ^ (53 - da)) by (apply Z.pow_pos_nonneg; lia).
    set (k := 2 ^ (53 - da)) in *.
    destruct (Z.compare_spec (Zpos a * k) (Zpos b * k));
      destruct (Z.compare_spec (Zpos a) (Zpos b)); try reflexivity; nia.
  - symmetry. apply Pos.compare_lt_iff.
    assert (2 ^ da <= 2 ^ (db - 1)) by (apply Z.pow_le_mono_r; lia).
    apply Pos2Z.pos_lt_pos. lia.
  - symmetry. apply Pos.compare_gt_iff.
    assert (2 ^ db <= 2 ^ (da - 1)) by (apply Z.pow_le_mono_r; lia).
    apply Pos2Z.pos_lt_pos. lia.
Qed.

Lemma new_location_zero (n : Z) : new_location n 0 = loc_Exact.
Proof. unfold new_location. destruct (Z.even n); reflexivity. Qed.

(** The quotient of two numbers with mantissas of 53 digits. *)
Lemma num_div_normal (ma mb : positive) (ea eb : Z) :
  Zpos (digits2_pos ma) = 53 -> Zpos (digits2_pos mb) = 53 ->
  -52 <= ea <= 0 -> -52 <= eb <= 0 ->
  exists m e,
    num_div (S754_finite false ma ea) (S754_finite false mb eb)
    = S754_finite false m e
    /\ 2 ^ 52 <= Zpos m < 2 ^ 53
    /\ (Zpos ma < Zpos mb ->
        e = ea - eb - 53 \/ (e = ea - eb - 52 /\ Zpos m = 2 ^ 52))
    /\ (Zpos mb <= Zpos ma ->
        e = ea - eb - 52 \/ (e = ea - eb - 51 /\ Zpos m = 2 ^ 52))
    /\ (ma = mb -> Zpos m = 2 ^ 52 /\ e = ea - eb - 52).
Proof.
  intros Hda Hdb Hea Heb.
  pose proof (digits2_pos_bounds ma) as Ha. rewrite Hda in Ha.
  pose proof (digits2_pos_bounds mb) as Hb. rewrite Hdb in Hb.
  change (53 - 1) with 52 in *.
  unfold num_div, SFdiv, SFdiv_core_binary. unfold Zdigits2.
  rewrite Hda, Hdb.
  replace (Z.min (fexp 53 1024 (53 + ea - (53 + eb))) (ea - eb))
    with (ea - eb - 53) by (unfold fexp, emin; lia).
  replace (ea - eb - (ea - eb - 53)) with 53 by lia.
  cbv iota. rewrite Z.shiftl_mul_pow2 by lia.
  pose proof (Z_div_mod (Zpos ma * 2 ^ 53) (Zpos mb) ltac:(lia)) as Hdm.
  destruct (Z.div_eucl (Zpos ma * 2 ^ 53) (Zpos mb)) as [q r].
  destruct Hdm as [Hq Hr].
  assert (Hqlo : 2 ^ 52 <= q) by nia.
  assert (Hqhi : q < 2 ^ 54) by nia.
  destruct q as [|q|q]; try lia.
  cbn [xorb].
  destruct (Z_lt_le_dec (Zpos ma) (Zpos mb)) as [Hlt|Hge].
  - assert (Hq53 : Zpos q < 2 ^ 53) by nia.
    assert (Hdq : Zpos (digits2_pos q) = 53).
    { apply digits2_pos_unique. change (53 - 1) with 52. lia. }
    destruct (binary_round_aux_53 false q (ea - eb - 53)
                (new_location (Zpos mb) r) Hdq ltac:(lia))
      as (m & e & E & Hm & He & _).
    exists m, e. split; [exact E|]. split; [assumption|].
    split; [|split].
    + intros _. destruct He as [[-> _]|[-> Hc]]; [left; reflexivity|].
      right. split; [lia | assumption].
    + intros H. lia.
    + intros ->. lia.
  - assert (Hq53 : 2 ^ 53 <= Zpos q) by nia.
    assert (Hdq : Zpos (digits2_pos q) = 54).
    { apply digits2_pos_unique. change (54 - 1) with 53. lia. }
    destruct (binary_round_aux_54 false q (ea - eb - 53)
                (new_location (Zpos mb) r) Hdq ltac:(lia))
      as (m & e & E & Hm & He & Hex).
    exists m, e. split; [exact E|]. split; [assumption|].
    split; [|split].
    + intros H. lia.
    + intros _. destruct He as [->|[-> Hc]]; [left; lia|].
      right. split; [lia | assumption].
    + intros Hab. subst mb.
      assert (Hr0 : r = 0) by nia.
      assert (Hq' : Zpos q = 2 ^ 53) by nia.
      subst r. rewrite new_location_zero in Hex.
      assert (Eq : q = xO (2 ^ 52)%positive).
      { apply Pos2Z.inj. rewrite Hq'. reflexivity. }
      destruct (Hex eq_refl _ Eq) as [-> ->]. split; [reflexivity | lia].
Qed.

Lemma iter_pos_iter {A} (f : A -> A) (n : positive) (x : A) :
  SpecFloat.iter_pos f n x = Pos.iter f x n.
Proof.
  revert x. induction n as [n IH|n IH|]; intros x; cbn [SpecFloat.iter_pos Pos.iter].
  - rewrite !IH, <- !Pos.iter_swap. reflexivity.
  - rewrite !IH. reflexivity.
  - reflexivity.
Qed.

Lemma iter_shr_1_exact (m k : positive) :
  SpecFloat.iter_pos shr_1 k
    {| shr_m := Zpos (Pos.iter xO m k); shr_r := false; shr_s := false |}
  = {| shr_m := Zpos m; shr_r := false; shr_s := false |}.
Proof.
  rewrite iter_pos_iter.
  induction k as [|k IH] using Pos.peano_ind.
  - reflexivity.
  - rewrite Pos.iter_succ_r, Pos.iter_succ. exact IH.
Qed.

Lemma shl_align_keep (m : positive) (e e' : Z) :
  e <= e' -> shl_align m e e' = (m, e).
Proof.
  intros He. unfold shl_align. destruct (e' - e) as [|k|k] eqn:Ek; try reflexivity. lia.
Qed.

(** Rounding a multiple of a power of two that stands for an integer
    below [2^53] gives the number of that integer. *)
Lemma binary_round_exact (M a : positive) (E : Z) :
  E <= 0 -> Zpos M = Zpos a * 2 ^ (- E) -> Zpos a < 2 ^ 53 ->
  binary_round 53 1024 false M E
  = S754_finite false (int_mantissa a) (int_exponent a).
Proof.
  intros HE HM Ha.
  destruct (int_mantissa_spec a Ha) as (Hv & Hdig & Hie).
  pose proof (int_digits_le a Ha) as Hda.
  pose proof (digits2_pos_bounds a) as [Alo Ahi].
  assert (HdM : Zpos (digits2_pos M) = Zpos (digits2_pos a) - E).
  { apply digits2_pos_unique. rewrite HM.
    replace (Zpos (digits2_pos a) - E - 1) with (Zpos (digits2_pos a) - 1 + - E) by lia.
    replace (Zpos (digits2_pos a) - E) with (Zpos (digits2_pos a) + - E) by lia.
    rewrite !Z.pow_add_r by lia.
    assert (0 < 2 ^ (- E)) by (apply Z.pow_pos_nonneg; lia). nia. }
  unfold binary_round.
  replace (fexp 53 1024 (Zpos (digits2_pos M) + E)) with (int_exponent a)
    by (unfold fexp, emin, int_exponent; lia).
  destruct (Z_le_gt_dec (int_exponent a) E) as [Hle|Hgt].
  - destruct (shl_align_spec M E (int_exponent a) Hle) as (m' & Em & Hm' & Hd').
    rewrite Em.
    assert (m' = int_mantissa a) as ->.
    { apply Pos2Z.inj. rewrite Hm', Hv, HM, <- Z.mul_assoc, <- Z.pow_add_r by (unfold int_exponent in *; lia).
      f_equal. f_equal. unfold int_exponent. lia. }
    apply binary_round_aux_exact; [assumption | lia].
  - rewrite shl_align_keep by lia.
    assert (Ek : exists k, int_exponent a - E = Zpos k).
    { destruct (int_exponent a - E) as [|k|k] eqn:Ek; try lia. exists k. reflexivity. }
    destruct Ek as [k Ek].
    assert (HMk : M = Pos.iter xO (int_mantissa a) k).
    { apply Pos2Z.inj. rewrite iter_xO_value, Hv, HM, <- Z.mul_assoc, <- Z.pow_add_r
        by (unfold int_exponent in *; lia).
      f_equal. f_equal. unfold int_exponent in *. lia. }
    unfold binary_round_aux.
    unfold shr_fexp at 1. unfold Zdigits2.
    replace (fexp 53 1024 (Zpos (digits2_pos M) + E)) with (int_exponent a)
      by (unfold fexp, emin, int_exponent; lia).
    unfold shr. rewrite Ek.
    cbn [shr_record_of_loc]. rewrite HMk, iter_shr_1_exact.
    cbn [shr_m loc_of_shr_record round_nearest_even].
    replace (E + Zpos k) with (int_exponent a) by lia.
    rewrite shr_fexp_keep by (assumption || lia).
    cbn [shr_record_of_loc shr_m].
    destruct (Z.leb_spec (int_exponent a) (1024 - 53)); [reflexivity | lia].
Qed.

(** The difference of two integers is exact. *)
Lemma num_sub_int (a b : positive) :
  Zpos b < Zpos a -> Zpos a < 2 ^ 53 ->
  num_sub (number_of_Z (Zpos a)) (number_of_Z (Zpos b))
  = number_of_Z (Zpos a - Zpos b).
Proof.
  intros Hba Ha.
  assert (Hb : Zpos b < 2 ^ 53) by lia.
  destruct (Zpos a - Zpos b) as [|c|c] eqn:Ec; try lia.
  assert (Hc : Zpos c < 2 ^ 53) by lia.
  rewrite !number_of_Z_pos by assumption.
  destruct (int_mantissa_spec a Ha) as (Hva & _ & Hea).
  destruct (int_mantissa_spec b Hb) as (Hvb & _ & Heb).
  unfold num_sub, SFsub. cbn [cond_Zopp].
  set (ez := Z.min (int_exponent a) (int_exponent b)).
  destruct (shl_align_spec (int_mantissa a) (int_exponent a) ez ltac:(lia))
    as (xa & Exa & Hxa & _).
  destruct (shl_align_spec (int_mantissa b) (int_exponent b) ez ltac:(lia))
    as (xb & Exb & Hxb & _).
  rewrite Exa, Exb. cbn [fst].
  assert (Hxa' : Zpos xa = Zpos a * 2 ^ (- ez)).
  { rewrite Hxa, Hva, <- Z.mul_assoc, <- Z.pow_add_r by (unfold int_exponent in *; lia).
    f_equal. f_equal. unfold int_exponent. lia. }
  assert (Hxb' : Zpos xb = Zpos b * 2 ^ (- ez)).
  { rewrite Hxb, Hvb, <- Z.mul_assoc, <- Z.pow_add_r by (unfold int_exponent in *; lia).
    f_equal. f_equal. unfold int_exponent. lia. }
  assert (Hp : 0 < 2 ^ (- ez)) by (apply Z.pow_pos_nonneg; lia).
  assert (Hd : Zpos xa - Zpos xb = Zpos c * 2 ^ (- ez)) by nia.
  destruct (Zpos xa - Zpos xb) as [|D|D] eqn:ED; try lia.
  unfold binary_normalize.
  apply binary_round_exact; [lia | exact Hd | assumption].
Qed.

(** Rounding keeps the sign and gives a number. *)
Lemma shr_1_nonneg (r : shr_record) : 0 <= shr_m r -> 0 <= shr_m (shr_1 r).
Proof.
  destruct r as [[|[p|p|]|p] r s]; cbn; lia.
Qed.

Lemma shr_fexp_nonneg (m e : Z) (l : location) :
  0 <= m -> 0 <= shr_m (fst (shr_fexp 53 1024 m e l)).
Proof.
  intros Hm. unfold shr_fexp, shr.
  destruct (fexp 53 1024 (Zdigits2 m + e) - e) as [|k|k]; cbn [fst];
    try (rewrite shr_m_of_loc; assumption).
  rewrite iter_pos_iter. apply Pos.iter_invariant.
  - intros x. apply shr_1_nonneg.
  - rewrite shr_m_of_loc. assumption.
Qed.

Lemma binary_round_aux_sign (s : bool) (m e : Z) (l : location) :
  0 <= m ->
  match binary_round_aux 53 1024 s m e l with
  | S754_nan => False
  | S754_zero s' | S754_infinity s' | S754_finite s' _ _ => s' = s
  end.
Proof.
  intros Hm. unfold binary_round_aux.
  pose proof (shr_fexp_nonneg m e l Hm) as H1.
  destruct (shr_fexp 53 1024 m e l) as [mrs e1]. cbn [fst] in H1.
  assert (H2 : 0 <= round_nearest_even (shr_m mrs) (loc_of_shr_record mrs))
    by (destruct (round_nearest_even_cases (shr_m mrs) (loc_of_shr_record mrs)) as [->| ->]; lia).
  pose proof (shr_fexp_nonneg _ e1 loc_Exact H2) as H3.
  destruct (shr_fexp 53 1024 _ e1 loc_Exact) as [mrs2 e2]. cbn [fst] in H3.
  destruct (shr_m mrs2) as [|p|p]; [reflexivity| |lia].
  destruct (e2 <=? 1024 - 53); reflexivity.
Qed.

(** [Math.max(0, 1 - q)] is [+0] for a [q] of at least 1. *)
Lemma max_zero_one_minus (m : positive) (e : Z) :
  2 ^ 52 <= Zpos m -> -52 <= e ->
  Math_max (number_of_Z 0) (num_sub (number_of_Z 1) (S754_finite false m e))
  = S754_zero false.
Proof.
  intros Hm He.
  change (number_of_Z 1) with (S754_finite false (2 ^ 52)%positive (-52)).
  change (number_of_Z 0) with (S754_zero false).
  unfold num_sub, SFsub. cbn [cond_Zopp].
  replace (Z.min (-52) e) with (-52) by lia.
  destruct (shl_align_spec m e (-52) He) as (x & Ex & Hx & _).
  rewrite Ex. cbn [fst].
  change (fst (shl_align (2 ^ 52)%positive (-52) (-52))) with (2 ^ 52)%positive.
  assert (Hp : 1 <= 2 ^ (e - -52)) by (apply (Z.pow_le_mono_r 2 0); lia).
  assert (HD : Zpos (2 ^ 52)%positive - Zpos x <= 0).
  { change (Zpos (2 ^ 52)%positive) with (2 ^ 52). nia. }
  destruct (Zpos (2 ^ 52)%positive - Zpos x) as [|D|D] eqn:ED; try lia.
  - reflexivity.
  - unfold binary_normalize, binary_round.
    destruct (shl_align D (-52) (fexp 53 1024 (Zpos (digits2_pos D) + -52))) as [mz ez].
    pose proof (binary_round_aux_sign true (Zpos mz) ez loc_Exact ltac:(lia)) as Hs.
    destruct (binary_round_aux 53 1024 true (Zpos mz) ez loc_Exact) as [[|]|[|]| |[|] m' e'];
      try discriminate; try contradiction; reflexivity.
Qed.

Lemma SFcompare_nonneg (a b : Z) :
  0 <= a < 2 ^ 53 -> 0 <= b < 2 ^ 53 ->
  SFcompare (number_of_Z a) (number_of_Z b) = Some (a ?= b).
Proof.
  intros Ha Hb. destruct a as [|a|a], b as [|b|b]; try lia.
  - reflexivity.
  - rewrite (number_of_Z_pos b) by lia. reflexivity.
  - rewrite (number_of_Z_pos a) by lia. reflexivity.
  - rewrite SFcompare_int by lia. rewrite Pos2Z.inj_compare. reflexivity.
Qed.

Lemma num_le_nonneg (a b : Z) :
  0 <= a < 2 ^ 53 -> 0 <= b < 2 ^ 53 ->
  num_le (number_of_Z a) (number_of_Z b) = (a <=? b).
Proof.
  intros Ha Hb. unfold num_le, SFleb. rewrite SFcompare_nonneg by assumption.
  unfold Z.leb. destruct (a ?= b); reflexivity.
Qed.

Lemma num_eq_nonneg (a b : Z) :
  0 <= a < 2 ^ 53 -> 0 <= b < 2 ^ 53 ->
  num_eq (number_of_Z a) (number_of_Z b) = (a =? b).
Proof.
  intros Ha Hb. unfold num_eq, SFeqb. rewrite SFcompare_nonneg by assumption.
  unfold Z.eqb. destruct a, b; try reflexivity; cbn [Z.compare].
  - destruct (Pos.compare_spec p p0) as [->| |]; try rewrite Pos.eqb_refl; try reflexivity;
      symmetry; apply Pos.eqb_neq; lia.
  - destruct (Pos.compare_spec p p0) as [->| |]; try rewrite Pos.eqb_refl; cbn; try reflexivity;
      symmetry; apply Pos.eqb_neq; lia.
Qed.

Lemma digits2_pos_mono (a b : positive) :
  Zpos a <= Zpos b -> Zpos (digits2_pos a) <= Zpos (digits2_pos b).
Proof.
  intros Hab. pose proof (digits2_pos_bounds a) as [Alo _].
  pose proof (digits2_pos_bounds b) as [_ Bhi].
  destruct (Z.le_gt_cases (Zpos (digits2_pos a)) (Zpos (digits2_pos b))) as [?|Hgt];
    [assumption|].
  assert (2 ^ Zpos (digits2_pos b) <= 2 ^ (Zpos (digits2_pos a) - 1))
    by (apply Z.pow_le_mono_r; lia).
  lia.
Qed.

(** The quotient of two positive integers: at least 1 when the first is
    not the smaller, at most 1 when it is not the larger. *)
Lemma num_div_ints (a b : positive) :
  Zpos a < 2 ^ 53 -> Zpos b < 2 ^ 53 ->
  exists m e,
    num_div (number_of_Z (Zpos a)) (number_of_Z (Zpos b)) = S754_finite false m e
    /\ 2 ^ 52 <= Zpos m < 2 ^ 53
    /\ (Zpos b <= Zpos a -> -52 <= e)
    /\ (Zpos a <= Zpos b -> e <= -53 \/ (e = -52 /\ Zpos m = 2 ^ 52)).
Proof.
  intros Ha Hb. rewrite !number_of_Z_pos by assumption.
  destruct (int_mantissa_spec a Ha) as (Hva & Hda & Hea).
  destruct (int_mantissa_spec b Hb) as (Hvb & Hdb & Heb).
  destruct (num_div_normal _ _ _ _ Hda Hdb Hea Heb) as (m & e & E & Hm & Hlt & Hge & Heq).
  exists m, e. split; [exact E|]. split; [exact Hm|].
  unfold int_exponent in *.
  set (da := Zpos (digits2_pos a)) in *. set (db := Zpos (digits2_pos b)) in *.
  assert (Hmono : da = db -> (Zpos (int_mantissa a) < Zpos (int_mantissa b) <-> Zpos a < Zpos b)).
  { intros Hd. rewrite Hva, Hvb, Hd.
    assert (0 < 2 ^ (53 - db)) by (apply Z.pow_pos_nonneg; pose proof (int_digits_le b Hb); lia).
    nia. }
  split.
  - intros Hba. pose proof (digits2_pos_mono b a Hba) as Hd. fold da db in Hd.
    destruct (Z_lt_le_dec (Zpos (int_mantissa a)) (Zpos (int_mantissa b))) as [H|H].
    + assert (da <> db) by (intros Hd'; apply Hmono in H; [lia | assumption]).
      specialize (Hlt H). lia.
    + specialize (Hge H). lia.
  - intros Hab. pose proof (digits2_pos_mono a b Hab) as Hd. fold da db in Hd.
    destruct (Z_lt_le_dec (Zpos (int_mantissa a)) (Zpos (int_mantissa b))) as [H|H].
    + specialize (Hlt H). lia.
    + specialize (Hge H).
      destruct (Z.eq_dec da db) as [Hd'|Hd'].
      * assert (Zpos (int_mantissa a) = Zpos (int_mantissa b)).
        { pose proof (Hmono Hd').
          assert (Zpos a = Zpos b) by lia.
          rewrite Hva, Hvb, Hd'. congruence. }
        assert (Hmm : int_mantissa a = int_mantissa b) by (apply Pos2Z.inj; assumption).
        destruct (Heq Hmm) as [? ?]. right. lia.
      * destruct Hge as [?|[? ?]]; [left; lia|].
        destruct (Z.eq_dec e (-52)); [right; split; assumption | left; lia].
Qed.

Lemma num_div_zero (b : positive) :
  Zpos b < 2 ^ 53 ->
  num_div (number_of_Z 0) (number_of_Z (Zpos b)) = S754_zero false.
Proof. intros Hb. rewrite (number_of_Z_pos b) by assumption. reflexivity. Qed.

(** The two decimals of a number between 0 and 1. *)
Lemma hundredth_table (N : Z) :
  0 <= N <= 100 -> StringToNumber (fixed_layout N 2) = hundredth N.
Proof.
  intros HN.
  assert (T : forallb
                (fun n => bool_decide (StringToNumber (fixed_layout (Z.of_nat n) 2)
                                       = hundredth (Z.of_nat n)))
                (seq 0 101) = true) by (vm_compute; reflexivity).
  rewrite forallb_forall in T.
  assert (Hin : In (Z.to_nat N) (seq 0 101)) by (apply in_seq; lia).
  apply T, bool_decide_eq_true_1 in Hin. rewrite Z2Nat.id in Hin by lia. exact Hin.
Qed.

Lemma rounded2_unit (m : positive) (e : Z) :
  Zpos m < 2 ^ 53 -> e <= -53 \/ (e = -52 /\ Zpos m = 2 ^ 52) ->
  exists N, 0 <= N <= 100 /\ rounded2 (S754_finite false m e) = hundredth N.
Proof.
  intros Hm He.
  assert (He0 : e < 0) by lia.
  assert (HP : 2 ^ 52 <= 2 ^ (- e)) by (apply Z.pow_le_mono_r; lia).
  assert (HmP : Zpos m <= 2 ^ (- e)).
  { destruct He as [He|[-> ->]]; [|reflexivity].
    assert (2 ^ 53 <= 2 ^ (- e)) by (apply Z.pow_le_mono_r; lia). lia. }
  set (P := 2 ^ (- e)) in *.
  assert (H52 : 0 < 2 ^ 52) by (apply Z.pow_pos_nonneg; lia).
  assert (H21 : 2 ^ 53 < 10 ^ 21) by (vm_compute; reflexivity).
  exists (nearest_scaled m e 2).
  assert (HN : 0 <= nearest_scaled m e 2 <= 100).
  { unfold nearest_scaled. destruct (Z.leb_spec 0 e); [lia|]. fold P.
    change (10 ^ Z.of_nat 2) with 100.
    split.
    - apply Z.div_pos; lia.
    - apply Z.lt_succ_r, Z.div_lt_upper_bound; lia. }
  split; [exact HN|].
  unfold rounded2, toFixed, at_least_1e21.
  destruct (Z.leb_spec 0 e); [lia|]. fold P.
  destruct (Z.leb_spec (10 ^ 21 * P) (Zpos m)); [nia|].
  cbn [app]. apply hundredth_table, HN.
Qed.

Lemma rounded2_zero : rounded2 (S754_zero false) = hundredth 0.
Proof. vm_compute. reflexivity. Qed.

Lemma rounded2_one : rounded2 (number_of_Z 1) = hundredth 100.
Proof. vm_compute. reflexivity. Qed.

(** The three scores as functions of the three counts. *)
Lemma concisenessScore_value (n : nat) :
  Z.of_nat n < 2 ^ 53 ->
  rounded2 (concisenessScore (number_of_nat n))
  = hundredth (Z.min 100 (Z.max 0 ((903 - 2 * Z.of_nat n) / 6))).
Proof.
  intros Hn.
  destruct (Z_lt_le_dec (Z.of_nat n) 451) as [Hs|Hl].
  - assert (T : forallb
                  (fun n => bool_decide
                     (rounded2 (concisenessScore (number_of_nat n))
                      = hundredth (Z.min 100 (Z.max 0 ((903 - 2 * Z.of_nat n) / 6)))))
                  (seq 0 451) = true) by (vm_compute; reflexivity).
    rewrite forallb_forall in T.
    assert (Hin : In n (seq 0 451)) by (apply in_seq; lia).
    apply T, bool_decide_eq_true_1 in Hin. exact Hin.
  - assert (H0 : (903 - 2 * Z.of_nat n) / 6 <= 0).
    { apply Z.lt_succ_r, Z.div_lt_upper_bound; lia. }
    replace (Z.min 100 (Z.max 0 ((903 - 2 * Z.of_nat n) / 6))) with 0 by lia.
    unfold concisenessScore, number_of_nat.
    assert (H53 : 150 < 2 ^ 53) by (vm_compute; reflexivity).
    rewrite num_le_nonneg by lia.
    destruct (Z.leb_spec (Z.of_nat n) 150); [lia|].
    destruct (Z.of_nat n) as [|a|a] eqn:Ea; try lia.
    rewrite (num_sub_int a 150%positive) by lia.
    destruct (Zpos a - 150) as [|c|c] eqn:Ec; try lia.
    destruct (num_div_ints c 300%positive ltac:(lia) ltac:(lia))
      as (m & e & E & Hm & Hge & _).
    rewrite E, max_zero_one_minus by lia.
    apply rounded2_zero.
Qed.

Lemma toxicityScore_value (h : nat) :
  Z.of_nat h < 2 ^ 53 ->
  rounded2 (toxicityScore (number_of_nat h))
  = hundredth (Z.max 0 (100 - 20 * Z.of_nat h)).
Proof.
  intros Hh.
  destruct (Z_lt_le_dec (Z.of_nat h) 5) as [Hs|Hl].
  - assert (T : forallb
                  (fun h => bool_decide
                     (rounded2 (toxicityScore (number_of_nat h))
                      = hundredth (Z.max 0 (100 - 20 * Z.of_nat h))))
                  (seq 0 5) = true) by (vm_compute; reflexivity).
    rewrite forallb_forall in T.
    assert (Hin : In h (seq 0 5)) by (apply in_seq; lia).
    apply T, bool_decide_eq_true_1 in Hin. exact Hin.
  - replace (Z.max 0 (100 - 20 * Z.of_nat h)) with 0 by lia.
    unfold toxicityScore, number_of_nat.
    assert (H53 : 5 < 2 ^ 53) by (vm_compute; reflexivity).
    rewrite num_eq_nonneg by lia.
    destruct (Z.eqb_spec (Z.of_nat h) 0); [lia|].
    destruct (Z.of_nat h) as [|a|a] eqn:Ea; try lia.
    destruct (num_div_ints a 5%positive ltac:(lia) ltac:(lia))
      as (m & e & E & Hm & Hge & _).
    rewrite E, max_zero_one_minus by lia.
    apply rounded2_zero.
Qed.

Lemma coverageScore_value (k n : nat) :
  (k <= n)%nat -> Z.of_nat n < 2 ^ 53 ->
  (exists N, 0 <= N <= 100
             /\ rounded2 (coverageScore (number_of_nat k) (number_of_nat n))
                = hundredth N)
  /\ (k = 0%nat \/ n = 0%nat ->
      rounded2 (coverageScore (number_of_nat k) (number_of_nat n)) = hundredth 0)
  /\ (k = n -> n <> 0%nat ->
      rounded2 (coverageScore (number_of_nat k) (number_of_nat n)) = hundredth 100).
Proof.
  intros Hkn Hn.
  unfold coverageScore, number_of_nat.
  assert (H53 : 0 < 2 ^ 53) by (vm_compute; reflexivity).
  rewrite num_eq_nonneg by lia.
  destruct (Z.eqb_spec (Z.of_nat n) 0) as [Hz|Hnz].
  - change (number_of_Z 0) with (S754_zero false). rewrite rounded2_zero.
    split; [exists 0; split; [lia | reflexivity]|].
    split; [reflexivity | lia].
  - destruct (Z.of_nat n) as [|b|b] eqn:Eb; try lia.
    destruct (Z.of_nat k) as [|a|a] eqn:Ea; try lia.
    + rewrite num_div_zero, rounded2_zero by assumption.
      split; [exists 0; split; [lia | reflexivity]|].
      split; [reflexivity | lia].
    + destruct (num_div_ints a b ltac:(lia) ltac:(lia)) as (m & e & E & Hm & Hge & Hle).
      rewrite E. split; [|split].
      * apply rounded2_unit; [lia | apply Hle; lia].
      * lia.
      * intros Hk _. assert (Hab : Zpos a = Zpos b) by lia.
        specialize (Hge ltac:(lia)). specialize (Hle ltac:(lia)).
        destruct Hle as [?|[-> Hm52]]; [lia|].
        assert (m = (2 ^ 52)%positive) as -> by (apply Pos2Z.inj; exact Hm52).
        exact rounded2_one.
Qed.

End BinaryFloats.

(* ================================================================== *)
(** * Further properties of the fetch *)
(* ================================================================== *)

Lemma fetchStep_execute_page i m env w res html :
  net_fetch env (record_event (EvFetch (in_url i)) w) (in_url i) = Ok res ->
  res_ok res = true ->
  res_text res = Ok html ->
  fetchStep_execute i m env w
  = (Ok (fetched html (in_url i)), record_event (EvFetch (in_url i)) w).
Proof.
  intros E Hok Ht.
  unfold fetchStep_execute, js_fetch, bind, log_event, throw, ret, lift.
  rewrite E, Hok, Ht. reflexivity.
Qed.

Lemma content_normalised (html u : jsstring) :
  let c := content (fetched html u) in
  c = join (lit " ") (split_ws c)
  /\ (length (split_ws c) <= 8000)%nat
  /\ (c = [] \/ Forall (fun p => p <> [] /\ ws_free p) (split_ws c)).
Proof.
  cbv zeta. cbn [content fetched].
  rewrite truncate_words_split.
  split; [reflexivity|].
  split; [rewrite length_take; lia|].
  destruct (page_text_words html) as [E|H].
  - left. rewrite E. reflexivity.
  - right. apply Forall_take. exact H.
Qed.

(** X1.  The content that [fetchStep] and [fetchPageTool] return holds
    no tag: the expression [/<[^>]+>/] that the code replaces matches
    nowhere in it, whatever the page. *)
Theorem X1_fetched_content_has_no_tag :
  (forall env w i mm out w',
      fetchStep_execute i mm env w = (Ok out, w') -> tag_free (content out))
  /\ (forall env w u out w',
         fetchPageTool_execute u env w = (Ok out, w') ->
         tag_free (tool_content out)).
Proof.
  split.
  - intros env w i mm out w' H.
    apply fetchStep_execute_Ok in H as (res & html & _ & _ & _ & _ & ->).
    apply content_tag_free.
  - intros env w u out w' H.
    apply fetchPageTool_execute_Ok in H as (res & html & _ & _ & _ & _ & -> & _).
    apply content_tag_free.
Qed.

Lemma X1_example_page_witness :
  tag_free (lit "Example Hello world")
  /\ tag_free (tool_content {| tool_content := lit "Example Hello world";
                               tool_title := lit "Example";
                               tool_wordCount := 3 |}).
Proof.
  split.
  - apply (proj1 X1_fetched_content_has_no_tag (example_env true []) example_world
             {| in_url := example_url |} mastra
             {| content := lit "Example Hello world"; title := lit "Example";
                wordCount := 3; url := example_url |}
             (record_event (EvFetch example_url) example_world)).
    vm_compute. reflexivity.
  - apply (proj2 X1_fetched_content_has_no_tag (example_env true []) example_world
             example_url _ (record_event (EvFetch example_url) example_world)).
    vm_compute. reflexivity.
Defined.

(** X2.  The content that [fetchStep] and [fetchPageTool] return is in
    a normal form: it is its own words joined by single spaces, at most
    8000 of them, and unless it is empty each word is non-empty and
    free of white space; so it neither starts nor ends with white
    space and has no two white space characters in a row. *)
Theorem X2_fetched_content_is_normalised :
  (forall env w i mm out w',
      fetchStep_execute i mm env w = (Ok out, w') ->
      content out = join (lit " ") (split_ws (content out))
      /\ (length (split_ws (content out)) <= 8000)%nat
      /\ (content out = []
          \/ Forall (fun p => p <> [] /\ ws_free p) (split_ws (content out))))
  /\ (forall env w u out w',
         fetchPageTool_execute u env w = (Ok out, w') ->
         tool_content out = join (lit " ") (split_ws (tool_content out))
         /\ (length (split_ws (tool_content out)) <= 8000)%nat
         /\ (tool_content out = []
             \/ Forall (fun p => p <> [] /\ ws_free p)
                  (split_ws (tool_content out)))).
Proof.
  split.
  - intros env w i mm out w' H.
    apply fetchStep_execute_Ok in H as (res & html & _ & _ & _ & _ & ->).
    apply content_normalised.
  - intros env w u out w' H.
    apply fetchPageTool_execute_Ok in H as (res & html & _ & _ & _ & _ & -> & _).
    apply content_normalised.
Qed.

Lemma X2_example_page_witness :
  lit "Example Hello world" = join (lit " ") (split_ws (lit "Example Hello world"))
  /\ (length (split_ws (lit "Example Hello world")) <= 8000)%nat
  /\ (lit "Example Hello world" = []
      \/ Forall (fun p => p <> [] /\ ws_free p) (split_ws (lit "Example Hello world"))).
Proof.
  apply (proj1 X2_fetched_content_is_normalised (example_env true []) example_world
           {| in_url := example_url |} mastra
           {| content := lit "Example Hello world"; title := lit "Example";
              wordCount := 3; url := example_url |}
           (record_event (EvFetch example_url) example_world)).
  vm_compute. reflexivity.
Defined.

(** X3.  The word count that [fetchStep] and [fetchPageTool] return is
    never 0: the split of an empty text has one (empty) piece.  A page
    that is empty or all white space comes back with an empty content,
    a word count of 1 and the url as its title. *)
Theorem X3_word_count_is_never_zero :
  (forall env w i mm out w',
      fetchStep_execute i mm env w = (Ok out, w') -> (1 <= wordCount out)%nat)
  /\ (forall env w u out w',
         fetchPageTool_execute u env w = (Ok out, w') ->
         (1 <= tool_wordCount out)%nat)
  /\ (forall env w i mm res html,
         net_fetch env (record_event (EvFetch (in_url i)) w) (in_url i) = Ok res ->
         res_ok res = true ->
         res_text res = Ok html ->
         Forall (fun c => is_space c = true) html ->
         fetchStep_execute i mm env w
         = (Ok {| content := []; title := in_url i; wordCount := 1;
                  url := in_url i |},
            record_event (EvFetch (in_url i)) w)).
Proof.
  assert (Hcount : forall html u, (1 <= wordCount (fetched html u))%nat).
  { intros html u. cbn [wordCount fetched]. unfold word_count.
    pose proof (split_ws_nonempty (page_text html)) as Hne.
    destruct (split_ws (page_text html)); [congruence | cbn; lia]. }
  split; [|split].
  - intros env w i mm out w' H.
    apply fetchStep_execute_Ok in H as (res & html & _ & _ & _ & _ & ->).
    apply Hcount.
  - intros env w u out w' H.
    apply fetchPageTool_execute_Ok in H as (res & html & _ & _ & _ & _ & _ & _ & ->).
    apply Hcount.
  - intros env w i mm res html E Hok Ht Hblank.
    rewrite (fetchStep_execute_page i mm env w res html E Hok Ht).
    rewrite fetched_blank by assumption. reflexivity.
Qed.

Lemma X3_blank_page_witness :
  let env :=
    {| url_ok := fun _ => true;
       net_fetch := fun _ _ =>
         Ok {| res_ok := true; res_status := 200; res_text := Ok (lit "  ") |};
       llm_generate := fun _ _ _ => Ok [];
       disk_mkdir := fun _ _ => Ok tt;
       disk_writeFile := fun _ _ _ => Ok tt |} in
  fetchStep_execute {| in_url := example_url |} mastra env example_world
  = (Ok {| content := []; title := example_url; wordCount := 1;
           url := example_url |},
     record_event (EvFetch example_url) example_world).
Proof.
  cbv zeta.
  eapply (proj2 (proj2 X3_word_count_is_never_zero) _ example_world
            {| in_url := example_url |} mastra _ (lit "  ")).
  - reflexivity.
  - reflexivity.
  - reflexivity.
  - repeat constructor.
Defined.

(** X4.  [fetchPageTool] and [fetchStep] agree on every url that the
    schema of the tool accepts: asked for it under the same
    collaborators, the [execute] of the tool and the [execute] of the
    step make the same call and leave the same world; they fail with
    the same error, or return the same content, title and word count,
    the step with the url besides.  A url that the schema refuses is
    not fetched by the tool: its [execute] answers with the error
    object and leaves the world as it was. *)
Theorem X4_fetch_tool_agrees_with_fetch_step :
  forall env w u mm,
    (url_ok env u = true ->
     snd (fetchPageTool u env w)
     = snd (fetchStep_execute {| in_url := u |} mm env w)
     /\ match fetchStep_execute {| in_url := u |} mm env w,
              fetchPageTool u env w with
        | (Ok o, _), (Ok (ToolData t), _) =>
            tool_content t = content o /\ tool_title t = title o
            /\ tool_wordCount t = wordCount o /\ url o = u
        | (Err e, _), (Err e', _) => e = e'
        | _, _ => False
        end)
    /\ (url_ok env u = false ->
        fetchPageTool u env w = (Ok ToolValidationError, w)).
Proof.
  intros env w u mm. unfold fetchPageTool, createTool. split; intros ->.
  - unfold fetchPageTool_execute, fetchStep_execute, js_fetch, bind, log_event,
      throw, ret, lift.
    cbn [in_url].
    destruct (net_fetch env _ u) as [res|e]; [|split; reflexivity].
    destruct (res_ok res); cbn [negb]; [|split; reflexivity].
    destruct (res_text res) as [html|e]; [|split; reflexivity].
    cbn. auto.
  - reflexivity.
Qed.

Lemma X4_accepted_and_refused_witness :
  let refusing :=
    {| url_ok := fun _ => false;
       net_fetch := net_fetch (example_env true []);
       llm_generate := llm_generate (example_env true []);
       disk_mkdir := disk_mkdir (example_env true []);
       disk_writeFile := disk_writeFile (example_env true []) |} in
  snd (fetchPageTool example_url (example_env true []) example_world)
  = snd (fetchStep_execute {| in_url := example_url |} mastra
           (example_env true []) example_world)
  /\ fetchPageTool (lit "not a url") refusing example_world
     = (Ok ToolValidationError, example_world).
Proof.
  cbv zeta. split.
  - apply (proj1 (X4_fetch_tool_agrees_with_fetch_step (example_env true [])
                    example_world example_url mastra)).
    reflexivity.
  - match goal with
    | |- fetchPageTool _ ?e _ = _ =>
        apply (proj2 (X4_fetch_tool_agrees_with_fetch_step e example_world
                        (lit "not a url") mastra))
    end.
    reflexivity.
Defined.

(* ================================================================== *)
(** * Further properties of the saved file *)
(* ================================================================== *)

(** X5.  The slug of a title, as [saveSummaryTool] and
    [conditionalSaveStep] compute it, has at most 50 characters, each
    of [a-z], [0-9] or a hyphen, and no two hyphens in a row; it is
    empty only for the empty title. *)
Theorem X5_slug_shape :
  forall title,
    (length (slug_of title) <= 50)%nat
    /\ Forall (fun c => slug_char c = true) (slug_of title)
    /\ hyphens_apart (slug_of title)
    /\ (slug_of title = [] <-> title = []).
Proof.
  intros title. destruct (slug_of_shape title) as (Hl & Hc & Hh).
  repeat split; try assumption; apply slug_of_nil.
Qed.

Section SavedFile.

Variable env : Env.

Lemma not_slash_is_slash (s : jsstring) :
  Forall (fun c => not_slash c = true) s -> Forall (fun c => is_slash c = false) s.
Proof.
  intros H. eapply Forall_impl; [exact H|].
  intros c Hc. unfold not_slash in Hc. unfold is_slash.
  destruct (c =? 47); [discriminate | reflexivity].
Qed.

(** X6.  A save by [saveSummaryTool] writes one file directly under
    [workspace/summaries], whatever the title: the path returned is
    [workspace/summaries/<slug>-<time>.md], its stem holds no slash, the
    directory asked for is [workspace/summaries], the file asked for
    and stored is the summary under its title and source, and nothing
    else of the world changes. *)
Theorem X6_save_tool_writes_under_summaries :
  forall w title url summary path w',
    saveSummaryTool_execute title url summary env w = (Ok path, w') ->
    path = lit "workspace/summaries/" ++ summary_stem title (now w) ++ lit ".md"
    /\ Forall (fun c => is_slash c = false) (summary_stem title (now w))
    /\ trace w'
       = trace w ++ [EvMkdir (lit "workspace/summaries");
                     EvWriteFile path (summary_text title url summary)]
    /\ files w' = <[path := summary_text title url summary]> (files w)
    /\ now w' = now w.
Proof.
  intros w title url summary path w'.
  rewrite saveSummaryTool_execute_eq. cbv zeta.
  rewrite summary_dir_eq.
  destruct (disk_mkdir env _ _) as [[]|e]; [|discriminate].
  destruct (disk_writeFile env _ _ _) as [[]|e]; [|discriminate].
  intros [= <- <-].
  split; [apply summary_path_eq|].
  split; [apply not_slash_is_slash, summary_stem_no_slash|].
  cbn [store_file record_event trace files now].
  rewrite <- app_assoc. auto.
Qed.

(** X7.  A save by [saveSummaryTool] that fails has thrown the error
    of the disk as it came, and stopped there: either the directory
    could not be made, and then no file was asked for, or the directory
    was made and the file could not be written.  The tool asks for
    nothing else, and returns a path only when both calls succeeded. *)
Theorem X7_failed_save_throws_disk_error :
  forall w title url summary e w',
    saveSummaryTool_execute title url summary env w = (Err e, w') ->
    let dir := lit "workspace/summaries" in
    let path := summary_path title (now w) in
    let text := summary_text title url summary in
    let asked_dir := record_event (EvMkdir dir) w in
    let asked_file := record_event (EvWriteFile path text) asked_dir in
    (disk_mkdir env asked_dir dir = Err e
     /\ trace w' = trace w ++ [EvMkdir dir])
    \/ (disk_mkdir env asked_dir dir = Ok tt
        /\ disk_writeFile env asked_file path text = Err e
        /\ trace w' = trace w ++ [EvMkdir dir; EvWriteFile path text]).
Proof.
  intros w title url summary e w'.
  rewrite saveSummaryTool_execute_eq. cbv zeta.
  rewrite summary_dir_eq.
  destruct (disk_mkdir env _ _) as [[]|e1] eqn:E1.
  - destruct (disk_writeFile env _ _ _) as [[]|e2] eqn:E2; [discriminate|].
    intros [= <- <-]. right. split; [reflexivity|]. split; [reflexivity|].
    cbn [record_event trace]. rewrite <- app_assoc. reflexivity.
  - intros [= <- <-]. left. split; reflexivity.
Qed.

(** X8.  [conditionalSaveStep] with a score that is not below 7 (a
    score that is not a number included) does what [saveSummaryTool]
    does with the same title, url and summary: the same calls, the same
    file, the same failure, and the path of the tool as its
    [filePath]. *)
Theorem X8_save_step_is_save_tool :
  forall w i mm,
    num_lt (score i) threshold = false ->
    conditionalSaveStep_execute i mm env w
    = match saveSummaryTool_execute (sv_title i) (sv_url i) (summary i) env w with
      | (Ok path, w') => (Ok {| saved := true; filePath := Some path |}, w')
      | (Err e, w') => (Err e, w')
      end.
Proof.
  intros w i mm H.
  rewrite (conditionalSaveStep_execute_persist env i mm w H).
  rewrite saveSummaryTool_execute_eq. cbv zeta.
  change (summary_file i) with (summary_text (sv_title i) (sv_url i) (summary i)).
  destruct (disk_mkdir env _ _) as [[]|e1]; [|reflexivity].
  destruct (disk_writeFile env _ _ _) as [[]|e2]; reflexivity.
Qed.

End SavedFile.

Lemma X6_example_save_witness :
  let w' :=
    snd (saveSummaryTool_execute (lit "../Etc: Passwd") example_url
           (lit "A summary.") (example_env true []) example_world) in
  lit "workspace/summaries/-etc-passwd-1772032983320.md"
  = lit "workspace/summaries/"
      ++ summary_stem (lit "../Etc: Passwd") (now example_world) ++ lit ".md"
  /\ files w' !! lit "workspace/summaries/-etc-passwd-1772032983320.md"
     = Some (lit "# ../Etc: Passwd" ++ LF ++ LF ++ lit "> Source: https://example.com"
               ++ LF ++ LF ++ lit "A summary." ++ LF).
Proof.
  cbv zeta.
  destruct (X6_save_tool_writes_under_summaries (example_env true []) example_world
              (lit "../Etc: Passwd") example_url (lit "A summary.")
              (lit "workspace/summaries/-etc-passwd-1772032983320.md")
              (snd (saveSummaryTool_execute (lit "../Etc: Passwd") example_url
                      (lit "A summary.") (example_env true []) example_world)))
    as (Hp & _ & _ & Hf & _).
  - vm_compute. reflexivity.
  - split; [exact Hp|]. rewrite Hf. apply lookup_insert_eq.
Defined.

Lemma X7_no_directory_witness :
  let env :=
    {| url_ok := fun _ => true;
       net_fetch := fun _ _ => Err (Exn "TypeError" (lit "fetch failed"));
       llm_generate := fun _ _ _ => Ok [];
       disk_mkdir := fun _ _ => Err (Exn "Error" (lit "EACCES"));
       disk_writeFile := fun _ _ _ => Ok tt |} in
  trace (snd (saveSummaryTool_execute (lit "Example") example_url
                (lit "A summary.") env example_world))
  = [EvMkdir (lit "workspace/summaries")].
Proof.
  cbv zeta.
  match goal with
  | |- trace (snd (saveSummaryTool_execute _ _ _ ?e _)) = _ =>
      destruct (X7_failed_save_throws_disk_error e example_world (lit "Example")
                  example_url (lit "A summary.") (Exn "Error" (lit "EACCES"))
                  (snd (saveSummaryTool_execute (lit "Example") example_url
                          (lit "A summary.") e example_world)))
        as [[_ Ht]|[Hm _]]
  end.
  - vm_compute. reflexivity.
  - exact Ht.
  - discriminate Hm.
Defined.

Lemma X8_score_not_a_number_witness :
  let i := {| score := S754_nan; summary := lit "A summary.";
              sv_title := lit "Example"; sv_url := example_url |} in
  conditionalSaveStep_execute i mastra (example_env true []) example_world
  = match saveSummaryTool_execute (lit "Example") example_url (lit "A summary.")
            (example_env true []) example_world with
    | (Ok path, w') => (Ok {| saved := true; filePath := Some path |}, w')
    | (Err e, w') => (Err e, w')
    end.
Proof.
  cbv zeta.
  apply (X8_save_step_is_save_tool (example_env true []) example_world
           {| score := S754_nan; summary := lit "A summary.";
              sv_title := lit "Example"; sv_url := example_url |} mastra).
  reflexivity.
Defined.

(* ================================================================== *)
(** * Further properties of the tokens *)
(* ================================================================== *)

(** X9.  Every token that [tokenize] returns is non-empty and made of
    [a-z] and [0-9] only. *)
Theorem X9_tokens_are_lower_case_alphanumeric :
  forall text,
    Forall (fun t => t <> [] /\ Forall (fun c => is_alnum c = true) t)
      (tokenize text).
Proof. exact tokenize_shape. Qed.

(** X10.  The tokens of two texts with a white space character between
    them are the tokens of the first followed by those of the second. *)
Theorem X10_tokenize_distributes_over_white_space :
  forall a c b,
    is_space c = true -> tokenize (a ++ c :: b) = tokenize a ++ tokenize b.
Proof. exact tokenize_app_space. Qed.

Lemma X10_two_words_witness :
  tokenize (lit "Hello," ++ 10 :: lit "World!")
  = tokenize (lit "Hello,") ++ tokenize (lit "World!").
Proof.
  apply (X10_tokenize_distributes_over_white_space (lit "Hello,") 10 (lit "World!")).
  reflexivity.
Defined.

(** X11.  Tokenizing is idempotent: the tokens of a text, joined by
    spaces, tokenize to themselves. *)
Theorem X11_tokenize_idempotent :
  forall text, tokenize (join (lit " ") (tokenize text)) = tokenize text.
Proof. exact tokenize_join. Qed.

(** X12.  Two texts that differ only in the case of their letters of
    [a-z] have the same tokens. *)
Theorem X12_tokenize_ignores_case :
  forall a b, ci_equal a b -> tokenize a = tokenize b.
Proof. exact tokenize_ci. Qed.

Lemma X12_upper_case_witness :
  tokenize (lit "Hello World") = tokenize (lit "hELLO wORLD").
Proof.
  apply (X12_tokenize_ignores_case (lit "Hello World") (lit "hELLO wORLD")).
  repeat constructor.
Defined.

(* ================================================================== *)
(** * Further properties of the scores *)
(* ================================================================== *)

Section Scores.

Local Open Scope Z_scope.

Variables sourceText summary : jsstring.

Lemma score_of_eval_results :
  score_of "conciseness" (eval_results sourceText summary)
  = Some (rounded2 (concisenessScore (number_of_nat (token_count summary))))
  /\ score_of "coverage" (eval_results sourceText summary)
     = Some (rounded2 (coverageScore
                         (number_of_nat (overlap_count sourceText summary))
                         (number_of_nat (token_count summary))))
  /\ score_of "toxicity" (eval_results sourceText summary)
     = Some (rounded2 (toxicityScore (number_of_nat (toxic_hits summary)))).
Proof. repeat split. Qed.

Lemma overlap_count_le :
  (overlap_count sourceText summary <= token_count summary)%nat.
Proof. apply List.filter_length_le. Qed.

Lemma toxic_hits_le : (toxic_hits summary <= token_count summary)%nat.
Proof. apply List.filter_length_le. Qed.

Lemma includes_In (l : list jsstring) (t : jsstring) :
  includes l t = true <-> In t l.
Proof.
  unfold includes. rewrite existsb_exists. split.
  - intros (x & Hin & E). apply jsstring_eqb_eq in E. subst. exact Hin.
  - intros Hin. exists t. split; [exact Hin | apply jsstring_eqb_eq; reflexivity].
Qed.

Lemma filter_none {A} (f : A -> bool) (l : list A) :
  Forall (fun x => f x = false) l -> List.filter f l = [].
Proof.
  induction 1 as [|x l Hx _ IH]; [reflexivity|]. cbn. rewrite Hx. exact IH.
Qed.

Lemma filter_all {A} (f : A -> bool) (l : list A) :
  Forall (fun x => f x = true) l -> List.filter f l = l.
Proof.
  induction 1 as [|x l Hx _ IH]; [reflexivity|]. cbn. rewrite Hx, IH. reflexivity.
Qed.

Lemma hundredth_range (N : Z) :
  0 <= N <= 100 ->
  num_le (number_of_Z 0) (hundredth N) = true
  /\ num_le (hundredth N) (number_of_Z 1) = true.
Proof.
  intros HN.
  assert (T : forallb
                (fun n => num_le (number_of_Z 0) (hundredth (Z.of_nat n))
                          && num_le (hundredth (Z.of_nat n)) (number_of_Z 1))
                (seq 0 101) = true) by (vm_compute; reflexivity).
  rewrite forallb_forall in T.
  assert (Hin : In (Z.to_nat N) (seq 0 101)) by (apply in_seq; lia).
  apply T in Hin. rewrite Z2Nat.id in Hin by lia.
  apply andb_true_iff in Hin. exact Hin.
Qed.

Lemma hundredth_one (N : Z) :
  0 <= N <= 100 -> hundredth N = number_of_Z 1 -> N = 100.
Proof.
  intros HN.
  assert (T : forallb
                (fun n => negb (bool_decide (hundredth (Z.of_nat n) = number_of_Z 1)))
                (seq 0 100) = true) by (vm_compute; reflexivity).
  rewrite forallb_forall in T.
  intros E. destruct (Z.eq_dec N 100) as [|Hne]; [assumption|]. exfalso.
  assert (Hin : In (Z.to_nat N) (seq 0 100)) by (apply in_seq; lia).
  apply T in Hin. rewrite Z2Nat.id in Hin by lia.
  apply negb_true_iff, bool_decide_eq_false_1 in Hin. contradiction.
Qed.

End Scores.

(** X13.  The conciseness score of [runEvals] for a summary of [n]
    tokens is [(450 - n) / 3] hundredths, rounded to the nearest whole
    and kept between 0 and 100: it is 1 up to 151 tokens and 0 from 449
    tokens on. *)
Theorem X13_conciseness_score :
  forall sourceText summary,
    let n := Z.of_nat (token_count summary) in
    (n < 2 ^ 53)%Z ->
    score_of "conciseness" (eval_results sourceText summary)
    = Some (hundredth (Z.min 100 (Z.max 0 ((903 - 2 * n) / 6))))
    /\ ((n <= 151)%Z ->
        score_of "conciseness" (eval_results sourceText summary)
        = Some (number_of_Z 1))
    /\ ((449 <= n)%Z ->
        score_of "conciseness" (eval_results sourceText summary)
        = Some (number_of_Z 0)).
Proof.
  intros sourceText summary n Hn.
  destruct (score_of_eval_results sourceText summary) as (-> & _ & _).
  rewrite concisenessScore_value by exact Hn. fold n.
  split; [reflexivity|]. split; intros H.
  - replace (Z.min 100 (Z.max 0 ((903 - 2 * n) / 6)))%Z with 100%Z; [reflexivity|].
    assert (100 <= (903 - 2 * n) / 6)%Z by (apply Z.div_le_lower_bound; lia). lia.
  - replace (Z.min 100 (Z.max 0 ((903 - 2 * n) / 6)))%Z with 0%Z; [reflexivity|].
    assert ((903 - 2 * n) / 6 <= 0)%Z
      by (apply Z.lt_succ_r, Z.div_lt_upper_bound; lia).
    lia.
Qed.

Lemma X13_short_summary_witness :
  score_of "conciseness" (eval_results (lit "The source.") (lit "A short summary."))
  = Some (number_of_Z 1).
Proof.
  refine (proj1 (proj2 (X13_conciseness_score (lit "The source.")
                          (lit "A short summary.") _)) _);
    vm_compute; congruence.
Defined.

(** X14.  The coverage score of [runEvals] is a whole number of
    hundredths between 0 and 1; it is 0 when no token of the summary is
    a token of the source, a summary without tokens included, and 1
    when the summary has tokens and each is a token of the source. *)
Theorem X14_coverage_score :
  forall sourceText summary,
    (Z.of_nat (token_count summary) < 2 ^ 53)%Z ->
    (exists N, (0 <= N <= 100)%Z
               /\ score_of "coverage" (eval_results sourceText summary)
                  = Some (hundredth N))
    /\ (Forall (fun t => ~ In t (tokenize sourceText)) (tokenize summary) ->
        score_of "coverage" (eval_results sourceText summary)
        = Some (number_of_Z 0))
    /\ (tokenize summary <> [] ->
        Forall (fun t => In t (tokenize sourceText)) (tokenize summary) ->
        score_of "coverage" (eval_results sourceText summary)
        = Some (number_of_Z 1)).
Proof.
  intros sourceText summary Hn.
  destruct (score_of_eval_results sourceText summary) as (_ & -> & _).
  destruct (coverageScore_value _ _ (overlap_count_le sourceText summary) Hn)
    as ((N & HN & E) & Hzero & Hone).
  split; [exists N; split; [exact HN | rewrite E; reflexivity]|].
  split.
  - intros Hnone. rewrite Hzero; [reflexivity|]. left.
    unfold overlap_count. rewrite filter_none; [reflexivity|].
    eapply Forall_impl; [exact Hnone|]. intros t Ht.
    destruct (includes (tokenize sourceText) t) eqn:Ei; [|reflexivity].
    apply includes_In in Ei. contradiction.
  - intros Hne Hall. rewrite Hone; [reflexivity | |].
    + unfold overlap_count, token_count. rewrite filter_all; [reflexivity|].
      eapply Forall_impl; [exact Hall|]. intros t Ht. apply includes_In. exact Ht.
    + unfold token_count. destruct (tokenize summary); [congruence | discriminate].
Qed.

Lemma X14_covered_summary_witness :
  score_of "coverage"
    (eval_results (lit "The quick brown fox.") (lit "Quick fox!"))
  = Some (number_of_Z 1).
Proof.
  refine (proj2 (proj2 (X14_coverage_score (lit "The quick brown fox.")
                          (lit "Quick fox!") _)) _ _).
  - vm_compute. reflexivity.
  - vm_compute. discriminate.
  - vm_compute.
    repeat (apply List.Forall_cons;
            [repeat (first [left; reflexivity | right])|]).
    apply List.Forall_nil.
Defined.

(** X15.  The toxicity score of [runEvals] falls by a fifth with every
    token of the summary that is one of [hate], [kill], [idiot] and
    [stupid], counted as often as it occurs: it is [100 - 20 h]
    hundredths for [h] such tokens, and 0 from five on; it is 1 exactly
    when the summary has none. *)
Theorem X15_toxicity_score :
  forall sourceText summary,
    let h := Z.of_nat (toxic_hits summary) in
    (Z.of_nat (token_count summary) < 2 ^ 53)%Z ->
    score_of "toxicity" (eval_results sourceText summary)
    = Some (hundredth (Z.max 0 (100 - 20 * h)))
    /\ (score_of "toxicity" (eval_results sourceText summary)
        = Some (number_of_Z 1)
        <-> Forall (fun t => ~ In t banned) (tokenize summary)).
Proof.
  intros sourceText summary h Hn.
  destruct (score_of_eval_results sourceText summary) as (_ & _ & ->).
  pose proof (toxic_hits_le summary) as Hle.
  rewrite toxicityScore_value by lia. fold h.
  split; [reflexivity|].
  assert (Hzero : h = 0%Z <-> Forall (fun t => ~ In t banned) (tokenize summary)).
  { unfold h, toxic_hits. split.
    - intros H0. apply List.Forall_forall. intros t Ht Hb.
      assert (Hin : In t (List.filter (includes banned) (tokenize summary)))
        by (apply List.filter_In; split; [exact Ht | apply includes_In; exact Hb]).
      destruct (List.filter (includes banned) (tokenize summary));
        [contradiction | cbn in H0; lia].
    - intros Hnone. rewrite filter_none; [reflexivity|].
      eapply Forall_impl; [exact Hnone|]. intros t Ht.
      destruct (includes banned t) eqn:Ei; [|reflexivity].
      apply includes_In in Ei. contradiction. }
  rewrite <- Hzero. split.
  - intros [= E]. apply hundredth_one in E; lia.
  - intros ->. reflexivity.
Qed.

Lemma X15_two_blocked_terms_witness :
  score_of "toxicity"
    (eval_results (lit "The source.") (lit "Stupid idea; I hate it."))
  = Some (hundredth 60).
Proof.
  refine (proj1 (X15_toxicity_score (lit "The source.")
                   (lit "Stupid idea; I hate it.") _)).
  vm_compute. reflexivity.
Defined.

(** X16.  [runEvals] does not fail: it returns three results, for
    conciseness, coverage and toxicity in this order, each with a score
    that is a whole number of hundredths from 0 to 1; it logs one line
    for each result, in the same order, or nothing when it is silent,
    and leaves the rest of the process alone. *)
Theorem X16_runEvals_outcome :
  forall sourceText summary silent h p,
    (Z.of_nat (token_count summary) < 2 ^ 53)%Z ->
    exists results,
      runEvals sourceText summary silent h p
      = (Returned results,
         logged (if silent then [] else result_lines results) p)
      /\ List.map metric results
         = ["conciseness"; "coverage"; "toxicity"]%string
      /\ length (result_lines results) = 3%nat
      /\ Forall (fun r => exists N, (0 <= N <= 100)%Z
                                    /\ eval_score r = hundredth N
                                    /\ num_le (number_of_Z 0) (eval_score r) = true
                                    /\ num_le (eval_score r) (number_of_Z 1) = true)
           results.
Proof.
  intros sourceText summary silent h p Hn.
  exists (eval_results sourceText summary).
  split; [apply runEvals_eq|].
  split; [reflexivity|]. split; [reflexivity|].
  pose proof (overlap_count_le sourceText summary) as Hk.
  pose proof (toxic_hits_le summary) as Hh.
  assert (Hgrid : forall x, (exists N, (0 <= N <= 100)%Z /\ x = hundredth N) ->
                  exists N, (0 <= N <= 100)%Z /\ x = hundredth N
                            /\ num_le (number_of_Z 0) x = true
                            /\ num_le x (number_of_Z 1) = true).
  { intros x (N & HN & ->). exists N. split; [exact HN|]. split; [reflexivity|].
    apply hundredth_range, HN. }
  unfold eval_results. cbv zeta.
  repeat apply List.Forall_cons; [| | |apply List.Forall_nil];
    cbn [eval_score]; apply Hgrid.
  - eexists. split; [|exact (concisenessScore_value (token_count summary) Hn)]. lia.
  - exact (proj1 (coverageScore_value (overlap_count sourceText summary)
                    (token_count summary) Hk Hn)).
  - eexists. split; [|exact (toxicityScore_value (toxic_hits summary) ltac:(lia))]. lia.
Qed.

Lemma X16_silent_run_witness :
  exists results,
    runEvals (lit "The quick brown fox.") (lit "Quick fox!") true
      (example_host []) example_process
    = (Returned results, example_process)
    /\ List.map eval_score results
       = [number_of_Z 1; number_of_Z 1; number_of_Z 1].
Proof.
  destruct (X16_runEvals_outcome (lit "The quick brown fox.") (lit "Quick fox!") true
              (example_host []) example_process)
    as (results & E & _).
  - vm_compute. reflexivity.
  - exists results. split; [exact E|].
    rewrite runEvals_eq in E. injection E as <-. vm_compute. reflexivity.
Defined.

(* ================================================================== *)
(** * Further properties of the command line *)
(* ================================================================== *)

(** X17.  [parseArgs] ends in one of three ways.  It returns options
    whose word limit is a finite number above 0, or it throws, the
    error being that of [--max-words] or naming an argument of the
    command line that it does not know; in both cases nothing was
    printed.  Or it exits, with code 0, after logging the help text and
    nothing else. *)
Theorem X17_parseArgs_outcomes :
  forall argv h p,
    match parseArgs argv h p with
    | (Returned o, p') => p' = p /\ positive_finite (opt_maxWords o)
    | (Thrown e, p') =>
        p' = p
        /\ (e = max_words_error
            \/ exists arg, In arg argv /\ ~ In arg known_arguments
                           /\ e = unknown_argument arg)
    | (Exited code, p') => code = 0 /\ p' = logged [help_text] p
    end.
Proof. exact parseArgs_cases. Qed.

(** X18.  An option of [parseArgs] that takes a value takes the next
    argument, whatever it is, and the arguments after it are read as
    before; at the end of the command line its value is undefined.  For
    [--max-words] the value is read as a number, and anything but a
    finite number above 0, a missing value included, is an error. *)
Theorem X18_value_options_take_next_argument :
  forall o rest,
    parseArgs_with o (lit "--url" :: rest)
    = parseArgs_with (set_url (head rest) o) (drop 1 rest)
    /\ parseArgs_with o (lit "--source" :: rest)
       = parseArgs_with (set_source (head rest) o) (drop 1 rest)
    /\ parseArgs_with o (lit "--source-file" :: rest)
       = parseArgs_with (set_sourceFile (head rest) o) (drop 1 rest)
    /\ parseArgs_with o (lit "--summary" :: rest)
       = parseArgs_with (set_summary (head rest) o) (drop 1 rest)
    /\ parseArgs_with o (lit "--summary-file" :: rest)
       = parseArgs_with (set_summaryFile (head rest) o) (drop 1 rest)
    /\ parseArgs_with o (lit "--max-words" :: rest)
       = (if negb (is_finite (Number_of (head rest)))
             || num_le (Number_of (head rest)) (number_of_Z 0)
          then io_throw max_words_error
          else parseArgs_with (set_maxWords (Number_of (head rest)) o)
                 (drop 1 rest))
    /\ parseArgs = parseArgs_with initial_options.
Proof.
  intros o rest.
  repeat split;
    try (apply parseArgs_with_value; intros; unfold parseArgs_turn;
         literal_tests; reflexivity).
  rewrite parseArgs_with_cons. unfold parseArgs_turn. literal_tests.
  destruct (negb (is_finite (Number_of (head rest)))
            || num_le (Number_of (head rest)) (number_of_Z 0)); reflexivity.
Qed.

(** X19.  A switch of [parseArgs] sets its option and the arguments
    after it are read as before; [--] is passed over wherever it
    stands, the arguments after it are still read as options.
    [--help] and [-h] log the help text and exit with code 0 without a
    look at the arguments after them, and an argument that is not
    known throws the error that names it. *)
Theorem X19_switches_help_and_unknown_arguments :
  forall o rest,
    parseArgs_with o (lit "--skip-agent" :: rest)
    = parseArgs_with (set_skipAgent o) rest
    /\ parseArgs_with o (lit "--json" :: rest) = parseArgs_with (set_json o) rest
    /\ parseArgs_with o (lit "--compact" :: rest)
       = parseArgs_with (set_compact o) rest
    /\ parseArgs_with o (lit "--" :: rest) = parseArgs_with o rest
    /\ (forall h p,
           parseArgs_with o (lit "--help" :: rest) h p
           = (Exited 0, logged [help_text] p)
           /\ parseArgs_with o (lit "-h" :: rest) h p
              = (Exited 0, logged [help_text] p))
    /\ (forall arg,
           ~ In arg known_arguments ->
           parseArgs_with o (arg :: rest) = io_throw (unknown_argument arg)).
Proof.
  intros o rest.
  split; [apply parseArgs_with_switch; intros; unfold parseArgs_turn;
          literal_tests; reflexivity|].
  split; [apply parseArgs_with_switch; intros; unfold parseArgs_turn;
          literal_tests; reflexivity|].
  split; [apply parseArgs_with_switch; intros; unfold parseArgs_turn;
          literal_tests; reflexivity|].
  split; [apply (parseArgs_with_switch "--" (fun o => o)); intros;
          unfold parseArgs_turn; literal_tests; reflexivity|].
  split.
  - intros h p. rewrite !parseArgs_with_cons. unfold parseArgs_turn.
    literal_tests. split; reflexivity.
  - intros arg. apply parseArgs_with_unknown.
Qed.

Lemma X19_unknown_argument_witness :
  parseArgs [lit "--json"; lit "--verbose"; lit "--help"]
  = io_throw (Exn "Error" (lit "Unknown argument: --verbose")).
Proof.
  change (parseArgs [lit "--json"; lit "--verbose"; lit "--help"])
    with (parseArgs_with initial_options
            [lit "--json"; lit "--verbose"; lit "--help"]).
  destruct (X19_switches_help_and_unknown_arguments initial_options
              [lit "--verbose"; lit "--help"]) as (_ & -> & _).
  destruct (X19_switches_help_and_unknown_arguments (set_json initial_options)
              [lit "--help"]) as (_ & _ & _ & _ & _ & Hu).
  apply (Hu (lit "--verbose")).
  vm_compute. intuition discriminate.
Defined.

(* ================================================================== *)
(** * Further properties of the command *)
(* ================================================================== *)

(** X20.  The command with its [catch] never ends in an uncaught
    error.  It exits with code 0 only from the help, after logging the
    help text; when [main] throws, it writes two lines to the error
    console, [Summary eval failed:] after an empty line and the message
    of the error, and exits with code 1; otherwise it ends as [main]
    does. *)
Theorem X20_command_exit_codes :
  forall h p,
    match main_catch h p with
    | (Returned _, p') => main h p = (Returned tt, p')
    | (Thrown _, _) => False
    | (Exited code, p') =>
        (code = 0 /\ p' = logged [help_text] p)
        \/ (code = 1
            /\ exists e p1, main h p = (Thrown e, p1)
                            /\ p' = complained (failure_lines e) p1)
    end.
Proof.
  intros h p. unfold main_catch.
  destruct (main h p) as [[[]|e|code] p1] eqn:E.
  - reflexivity.
  - cbn. right. split; [reflexivity|]. exists e, p1. split; [reflexivity|].
    unfold complained, failure_lines. cbn. rewrite <- app_assoc. reflexivity.
  - left. apply (main_exit h p code p1 E).
Qed.



(** X22.  With a source and a summary given as non-empty texts and
    neither a url nor files, the command calls nobody and reads
    nothing: it succeeds, and what it logs is fixed by the two texts,
    the lines of the results and the report under the title
    [Custom Source], or with [--json] the one line of JSON. *)
Theorem X22_command_offline :
  forall h p o src sm,
    parseArgs (drop 2 (process_argv h)) h p = (Returned o, p) ->
    falsy (opt_url o) = true ->
    falsy (opt_sourceFile o) = true ->
    falsy (opt_summaryFile o) = true ->
    opt_source o = Some src -> src <> [] ->
    opt_summary o = Some sm -> sm <> [] ->
    main h p = (Returned tt, logged (printed o (lit "Custom Source") src sm) p).
Proof.
  intros h p o src sm Hp Hu Hsf Hmf Hs Hs' Hm Hm'.
  exact (main_offline h p o src sm Hp Hu Hsf Hmf Hs Hs' Hm Hm').
Qed.

Lemma X22_offline_witness :
  let h := example_host ["--source"; "The quick brown fox."; "--summary";
                         "Quick fox!"; "--json"; "--compact"]%string in
  exists o,
    main h example_process
    = (Returned tt,
       logged (printed o (lit "Custom Source") (lit "The quick brown fox.")
                 (lit "Quick fox!")) example_process)
    /\ opt_json o = true.
Proof.
  cbv zeta.
  exists (set_compact
            (set_json
               (set_summary (Some (lit "Quick fox!"))
                  (set_source (Some (lit "The quick brown fox."))
                     initial_options)))).
  split; [|reflexivity].
  apply X22_command_offline; try reflexivity; discriminate.
Defined.

(** X23.  The command needs a source text.  Without [--url], files and
    [--source] it throws the error that asks for one, before it calls
    anybody; and with an empty [--source] text it fails whatever else
    is given, a url or a file of source text included. *)
Theorem X23_command_needs_source :
  forall h p o,
    parseArgs (drop 2 (process_argv h)) h p = (Returned o, p) ->
    (falsy (opt_url o) = true ->
     falsy (opt_sourceFile o) = true ->
     falsy (opt_summaryFile o) = true ->
     falsy (opt_source o) = true ->
     main h p = (Thrown no_source_error, p))
    /\ (opt_source o = Some [] -> exists e p', main h p = (Thrown e, p')).
Proof.
  intros h p o Hp. split.
  - apply main_no_source. exact Hp.
  - apply main_empty_source. exact Hp.
Qed.

Lemma X23_no_arguments_witness :
  main (example_host []) example_process
  = (Thrown (Exn "Error"
               (lit "Provide source text using --url, --source, or --source-file")),
     example_process).
Proof.
  apply (proj1 (X23_command_needs_source (example_host []) example_process
                  initial_options eq_refl)); reflexivity.
Defined.

(** X24.  What the command logs is all or nothing: when [main] fails
    it has logged nothing, and when it succeeds it has logged, for a
    source text and a summary text that are not empty, the line of each
    result and the report under a title, or with [--json] exactly one
    line, the JSON of the title, the url, the summary and the results.
    The title is missing only when the tool has refused the url of
    [--url]: the report then names the title [undefined] and the JSON
    has none. *)
Theorem X24_command_output :
  forall h p o,
    parseArgs (drop 2 (process_argv h)) h p = (Returned o, p) ->
    match main h p with
    | (Returned _, p') =>
        exists sourceText summaryText,
          sourceText <> [] /\ summaryText <> []
          /\ ((exists title,
                 stdout p' = stdout p ++ printed o title sourceText summaryText)
              \/ (stdout p'
                  = stdout p ++ printed_untitled o sourceText summaryText
                  /\ exists u, opt_url o = Some u /\ u <> []
                               /\ url_ok (host_env h) u = false))
    | (_, p') => stdout p' = stdout p
    end.
Proof.
  intros h p o Hparse.
  destruct (main_cases h p o Hparse)
    as (c & fe & ge & lines & E & Hno & _ & _ & Hlines).
  rewrite E. cbn [logged called stdout].
  destruct c as [[]|e|code].
  - destruct Hlines as (src & sm & Hs & Hm & [[title ->]|[-> Hu]]).
    + exists src, sm. split; [exact Hs|]. split; [exact Hm|].
      left. exists title. reflexivity.
    + exists src, sm. split; [exact Hs|]. split; [exact Hm|].
      right. split; [reflexivity | exact Hu].
  - rewrite Hlines. apply app_nil_r.
  - destruct (Hno code eq_refl).
Qed.

Lemma X24_fetched_page_witness :
  let h := example_host ["--url"; "https://example.com"; "--json"; "--compact"]%string in
  let o := set_compact (set_json (set_url (Some example_url) initial_options)) in
  exists p',
    main h example_process = (Returned tt, p')
    /\ exists sourceText summaryText,
         sourceText <> [] /\ summaryText <> []
         /\ exists title,
              stdout p' = [] ++ printed o title sourceText summaryText.
Proof.
  cbv zeta.
  pose proof (X24_command_output
                (example_host ["--url"; "https://example.com"; "--json"; "--compact"]%string)
                example_process
                (set_compact (set_json (set_url (Some example_url) initial_options)))
                ltac:(vm_compute; reflexivity))
    as H.
  destruct (main _ example_process) as [[[]|e|code] p'] eqn:E.
  - exists p'. split; [reflexivity|].
    destruct H as (src & sm & Hs & Hm & [Ht|[_ (u & _ & _ & Hu)]]).
    + exists src, sm. split; [exact Hs|]. split; [exact Hm | exact Ht].
    + discriminate Hu.
  - vm_compute in E. discriminate.
  - vm_compute in E. discriminate.
Defined.
